(** * Exchange lifecycle orchestration in the controller clients

    A shallow embedding of the client-side logic of the three controllers
    (Alice: holder, Acme: verifier, Faber: issuer):

    - [Js], [Json]      JavaScript completions and the platform's JSON parser
    - [Api], [ApiJsonErrors]  the two versions of the [useApi] hook's [request]
    - [ApiCalls]        calls of [request] that overlap on one hook
    - [Alice], [Acme]   which action buttons a record's state tag offers
    - [StoreGuard]      [storeCredential] and its per-id [storing] flag
    - [Refresh]         the [load] callbacks that replace a record list
    - [IssuedCard]      Faber's [CredentialsIssuedCard.load]
    - [IssuedPage]      that card with the loads [confirmRevoke] calls
    - [AutoVerify]      Acme's [autoVerifyPresentations] effect
    - [BackgroundSend]  Faber's fire-and-forget [sendCredential]
    - [Truncate], [Toasts], [Theme]  the table cells' [truncateMiddle], the
                        [useToasts] stack and the layout's theme switch
    - [AgentStatus]     the status poll loop of [useAgentStatus]
    - [IssuedTable]     the rows of Faber's Credentials Issued tables
    - [ProofRequest], [Debounce], [ManualVerify]  Acme's proof request form,
                        its debounced schema load and the Verify button
    - [Ids]             the parts read off schema and credential definition ids

    React state is threaded explicitly.  An [async] function is cut at its
    [await]: the part before it runs when the function is called, the part
    after it when the awaited promise settles, and other events may run in
    between.  A callback created by a render reads the state values of that
    render; the captured values are an explicit argument, and an event
    handler or effect runs the callback of the current render.  State kept
    by a page component ([useState], [useRef]) lives as long as the mounted
    instance of the page. *)

From stdpp Require Import gmap strings list.
From Stdlib Require Import ZArith Ascii String DecimalString DecimalPos DecimalZ Lia.

Local Open Scope string_scope.
Local Open Scope Z_scope.

#[local] Set Warnings "-register-all,-clear-no-such-hyp".

(** ** JavaScript completions: a state-and-exception monad *)

Module Js.

(** An [Error] object, as far as the clients look at it. *)
Record error := Error { name : string; message : string }.

(** [new Error(msg)] *)
Definition new_Error (msg : string) : error := Error "Error" msg.

Inductive completion (A : Type) : Type :=
| Normal (a : A)
| Throw (e : error).
Arguments Normal {A} a.
Arguments Throw {A} e.

(** A computation over a store [S]. *)
Definition M (S A : Type) : Type := S -> S * completion A.

Definition ret {S A} (a : A) : M S A := fun s => (s, Normal a).
Definition throw {S A} (e : error) : M S A := fun s => (s, Throw e).
Definition bind {S A B} (m : M S A) (k : A -> M S B) : M S B :=
  fun s => match m s with
           | (s', Normal a) => k a s'
           | (s', Throw e) => (s', Throw e)
           end.
Definition modify {S} (f : S -> S) : M S unit := fun s => (f s, Normal tt).
Definition get {S} : M S S := fun s => (s, Normal s).

(** [await p] on a promise that has settled: its value, or its rejection
    thrown at the [await]. *)
Definition await {S A} (p : completion A) : M S A := fun s => (s, p).

(** [try { m } catch (e) { h e }] *)
Definition try_catch {S A} (m : M S A) (h : error -> M S A) : M S A :=
  fun s => match m s with
           | (s', Normal a) => (s', Normal a)
           | (s', Throw e) => h e s'
           end.

(** [try { m } finally { f }]: [f] runs on either exit; it replaces the
    completion of [m] only when it throws itself. *)
Definition try_finally {S A} (m : M S A) (f : M S unit) : M S A :=
  fun s => match m s with
           | (s', c) => match f s' with
                        | (s'', Normal _) => (s'', c)
                        | (s'', Throw e) => (s'', Throw e)
                        end
           end.

(** JavaScript truthiness of a string, and [a || b] on strings. *)
Definition truthy (s : string) : bool := negb (String.eqb s EmptyString).
Definition or_else (a b : string) : string := if truthy a then a else b.

(** Truthiness of a possibly absent ([undefined]/[null]) string field. *)
Definition truthy_opt (o : option string) : bool :=
  match o with Some s => truthy s | None => false end.

End Js.

Declare Scope js_scope.
Delimit Scope js_scope with js.
Notation "'let*' x := m 'in' k" := (Js.bind m (fun x => k))
  (at level 10, x name, m at level 100, k at level 200, only parsing) : js_scope.
Notation "m >> k" := (Js.bind m (fun _ => k))
  (at level 100, k at level 200, right associativity, only parsing) : js_scope.


(** ** JSON values and the platform's [JSON.parse]

    [parse] follows the JSON grammar on texts without [\u] escapes, which it
    rejects; a number keeps its lexeme. *)

Module Json.

Inductive value : Type :=
| JNull
| JBool (b : bool)
| JNumber (lexeme : string)
| JString (s : string)
| JArray (items : list value)
| JObject (members : list (string * value)).

Definition SyntaxError : Js.error := Js.Error "SyntaxError" "Unexpected token in JSON".

Definition is_ws (c : ascii) : bool :=
  match nat_of_ascii c with
  | 32%nat | 9%nat | 10%nat | 13%nat => true
  | _ => false
  end.

Definition is_quote (c : ascii) : bool := (nat_of_ascii c =? 34)%nat.
Definition is_backslash (c : ascii) : bool := (nat_of_ascii c =? 92)%nat.

Definition is_digit (c : ascii) : bool :=
  let n := nat_of_ascii c in (48 <=? n)%nat && (n <=? 57)%nat.

Fixpoint skip_ws (cs : list ascii) : list ascii :=
  match cs with
  | c :: cs' => if is_ws c then skip_ws cs' else cs
  | [] => []
  end.

(** [eat lit cs]: the rest of [cs] after the literal [lit]. *)
Fixpoint eat (lit cs : list ascii) : option (list ascii) :=
  match lit, cs with
  | [], _ => Some cs
  | l :: lit', c :: cs' => if Ascii.eqb l c then eat lit' cs' else None
  | _ :: _, [] => None
  end.

Fixpoint take_digits (cs : list ascii) : list ascii * list ascii :=
  match cs with
  | c :: cs' =>
      if is_digit c then let (ds, r) := take_digits cs' in (c :: ds, r)
      else ([], cs)
  | [] => ([], [])
  end.

(** Digits, at least one. *)
Definition digits1 (cs : list ascii) : option (list ascii * list ascii) :=
  match take_digits cs with
  | ([], _) => None
  | (ds, r) => Some (ds, r)
  end.

(** [int]: [0], or a nonzero digit followed by digits. *)
Definition int_part (cs : list ascii) : option (list ascii * list ascii) :=
  match cs with
  | "0"%char :: r => Some (["0"%char], r)
  | _ => digits1 cs
  end.

Definition frac_part (cs : list ascii) : option (list ascii * list ascii) :=
  match cs with
  | "."%char :: r =>
      match digits1 r with
      | Some (ds, r') => Some ("."%char :: ds, r')
      | None => None
      end
  | _ => Some ([], cs)
  end.

Definition exp_part (cs : list ascii) : option (list ascii * list ascii) :=
  match cs with
  | e :: r =>
      if Ascii.eqb e "e" || Ascii.eqb e "E" then
        let (sign, r1) :=
          match r with
          | s :: r1 => if Ascii.eqb s "+" || Ascii.eqb s "-" then ([s], r1) else ([], r)
          | [] => ([], r)
          end in
        match digits1 r1 with
        | Some (ds, r2) => Some (e :: sign ++ ds, r2)
        | None => None
        end
      else Some ([], cs)
  | [] => Some ([], cs)
  end.

Definition parse_number (cs : list ascii) : option (string * list ascii) :=
  let (sign, r0) :=
    match cs with
    | "-"%char :: r => (["-"%char], r)
    | _ => ([], cs)
    end in
  match int_part r0 with
  | Some (i, r1) =>
      match frac_part r1 with
      | Some (f, r2) =>
          match exp_part r2 with
          | Some (e, r3) => Some (string_of_list_ascii (sign ++ i ++ f ++ e), r3)
          | None => None
          end
      | None => None
      end
  | None => None
  end.

Definition unescape (c : ascii) : option ascii :=
  match nat_of_ascii c with
  | 34%nat | 92%nat | 47%nat => Some c   (* quote, backslash, slash *)
  | 98%nat => Some (ascii_of_nat 8)      (* b: backspace *)
  | 102%nat => Some (ascii_of_nat 12)    (* f: form feed *)
  | 110%nat => Some (ascii_of_nat 10)    (* n: line feed *)
  | 114%nat => Some (ascii_of_nat 13)    (* r: carriage return *)
  | 116%nat => Some (ascii_of_nat 9)     (* t: tab *)
  | _ => None
  end.

(** The characters of a string after its opening quote, up to the closing
    one. *)
Fixpoint parse_chars (cs : list ascii) : option (list ascii * list ascii) :=
  match cs with
  | [] => None
  | c :: cs' =>
      if is_quote c then Some ([], cs')
      else if is_backslash c then
        match cs' with
        | e :: cs'' =>
            match unescape e, parse_chars cs'' with
            | Some u, Some (s, r) => Some (u :: s, r)
            | _, _ => None
            end
        | [] => None
        end
      else if (nat_of_ascii c <? 32)%nat then None
      else match parse_chars cs' with
           | Some (s, r) => Some (c :: s, r)
           | None => None
           end
  end.

Fixpoint parse_value (fuel : nat) (cs : list ascii) {struct fuel}
  : option (value * list ascii) :=
  match fuel with
  | O => None
  | S fuel' =>
      match skip_ws cs with
      | [] => None
      | c :: cs1 =>
          if Ascii.eqb c "n" then
            option_map (fun r => (JNull, r)) (eat (list_ascii_of_string "ull") cs1)
          else if Ascii.eqb c "t" then
            option_map (fun r => (JBool true, r)) (eat (list_ascii_of_string "rue") cs1)
          else if Ascii.eqb c "f" then
            option_map (fun r => (JBool false, r)) (eat (list_ascii_of_string "alse") cs1)
          else if is_quote c then
            option_map (fun '(s, r) => (JString (string_of_list_ascii s), r)) (parse_chars cs1)
          else if Ascii.eqb c "[" then
            match skip_ws cs1 with
            | b :: cs2 =>
                if Ascii.eqb b "]" then Some (JArray [], cs2)
                else option_map (fun '(vs, r) => (JArray vs, r)) (parse_elements fuel' cs1)
            | [] => None
            end
          else if Ascii.eqb c "{" then
            match skip_ws cs1 with
            | b :: cs2 =>
                if Ascii.eqb b "}" then Some (JObject [], cs2)
                else option_map (fun '(ms, r) => (JObject ms, r)) (parse_members fuel' cs1)
            | [] => None
            end
          else if Ascii.eqb c "-" || is_digit c then
            option_map (fun '(n, r) => (JNumber n, r)) (parse_number (c :: cs1))
          else None
      end
  end
with parse_elements (fuel : nat) (cs : list ascii) {struct fuel}
  : option (list value * list ascii) :=
  match fuel with
  | O => None
  | S fuel' =>
      match parse_value fuel' cs with
      | Some (v, cs1) =>
          match skip_ws cs1 with
          | d :: cs2 =>
              if Ascii.eqb d "," then
                option_map (fun '(vs, r) => (v :: vs, r)) (parse_elements fuel' cs2)
              else if Ascii.eqb d "]" then Some ([v], cs2)
              else None
          | [] => None
          end
      | None => None
      end
  end
with parse_members (fuel : nat) (cs : list ascii) {struct fuel}
  : option (list (string * value) * list ascii) :=
  match fuel with
  | O => None
  | S fuel' =>
      match skip_ws cs with
      | q :: cs1 =>
          if is_quote q then
            match parse_chars cs1 with
            | Some (k, cs2) =>
                match skip_ws cs2 with
                | colon :: cs3 =>
                    if Ascii.eqb colon ":" then
                      match parse_value fuel' cs3 with
                      | Some (v, cs4) =>
                          match skip_ws cs4 with
                          | d :: cs5 =>
                              if Ascii.eqb d "," then
                                option_map
                                  (fun '(ms, r) => ((string_of_list_ascii k, v) :: ms, r))
                                  (parse_members fuel' cs5)
                              else if Ascii.eqb d "}" then
                                Some ([(string_of_list_ascii k, v)], cs5)
                              else None
                          | [] => None
                          end
                      | None => None
                      end
                    else None
                | [] => None
                end
            | None => None
            end
          else None
      | [] => None
      end
  end.

(** [JSON.parse(text)]: one value, then only white space. *)
Definition parse (text : string) : Js.completion value :=
  let cs := list_ascii_of_string text in
  match parse_value (2 * List.length cs + 2) cs with
  | Some (v, r) =>
      match skip_ws r with
      | [] => Js.Normal v
      | _ :: _ => Js.Throw SyntaxError
      end
  | None => Js.Throw SyntaxError
  end.

(** Truthiness of a parsed value; a number is falsy when it is zero. *)
Definition zero_lexeme (n : string) : bool :=
  let fix go (cs : list ascii) : bool :=
    match cs with
    | [] => true
    | c :: cs' =>
        if Ascii.eqb c "e" || Ascii.eqb c "E" then true
        else if is_digit c && negb (Ascii.eqb c "0") then false
        else go cs'
    end in
  go (list_ascii_of_string n).

Definition truthy (v : value) : bool :=
  match v with
  | JNull => false
  | JBool b => b
  | JNumber n => negb (zero_lexeme n)
  | JString s => Js.truthy s
  | JArray _ | JObject _ => true
  end.

(** The value a JSON object holds for key [k]: the last member of that name. *)
Fixpoint member (k : string) (ms : list (string * value)) : option value :=
  match ms with
  | [] => None
  | (k', v) :: ms' =>
      match member k ms' with
      | Some v' => Some v'
      | None => if String.eqb k k' then Some v else None
      end
  end.

(** [v.k] for a parsed value [v]: [TypeError] on [null], [undefined]
    ([None]) on anything that is not an object holding [k]. *)
Definition prop (k : string) (v : value) : Js.completion (option value) :=
  match v with
  | JNull => Js.Throw (Js.Error "TypeError" "Cannot read properties of null")
  | JObject ms => Js.Normal (member k ms)
  | _ => Js.Normal None
  end.

End Json.

(** ** [useApi]: the shared fetch helper *)

(** What [request] reads of a [fetch] response.  [text] is the settled
    [response.text()] promise. *)
Record response := Response {
  ok : bool;
  status : Z;
  statusText : string;
  text : Js.completion string
}.

(** The hook's two state cells. *)
Record hook := Hook {
  pending : bool;
  lastError : option Js.error
}.

Definition setPending (b : bool) : Js.M hook unit :=
  Js.modify (fun h => Hook b (lastError h)).
Definition setLastError (e : option Js.error) : Js.M hook unit :=
  Js.modify (fun h => Hook (pending h) e).

(** The promise an [async] call returns. *)
Inductive settled (A : Type) : Type :=
| Resolved (a : A)
| Rejected (e : Js.error).
Arguments Resolved {A} a.
Arguments Rejected {A} e.

Definition settle {A} (c : Js.completion A) : settled A :=
  match c with
  | Js.Normal a => Resolved a
  | Js.Throw e => Rejected e
  end.

(** Alice's and Faber's [useApi.request].  [fetched] is the settled promise
    of [fetch(path, ...)]: a response, or the network failure it rejects
    with.  The value [null] is [Json.JNull]. *)
Module Api.
Section Request.
Variable JSON_parse : string -> Js.completion Json.value.

Definition request (fetched : Js.completion response) : Js.M hook Json.value :=
  (setPending true >>
   setLastError None >>
   Js.try_finally
     (Js.try_catch
        (let* response := Js.await fetched in
         if negb (ok response) then
           let* message := Js.await (text response) in
           Js.throw (Js.new_Error (Js.or_else message (statusText response)))
         else if status response =? 204 then Js.ret Json.JNull
         else
           let* body := Js.await (text response) in
           if Js.truthy body then Js.await (JSON_parse body) else Js.ret Json.JNull)
        (fun error => setLastError (Some error) >> Js.throw error))
     (setPending false))%js.

End Request.
End Api.

(** The [useApi.request] that looks for a JSON error body.  Its inner
    [catch] block reads [errorData], a [const] of the [try] block that is
    out of scope there, so that block ends in a [ReferenceError].
    [ToString] is the platform's conversion of a non-string value to the
    message of [new Error(value)]. *)
Module ApiJsonErrors.
Section Request.
Variable JSON_parse : string -> Js.completion Json.value.
Variable ToString : Json.value -> string.

Definition ReferenceError : Js.error :=
  Js.Error "ReferenceError" "errorData is not defined".

(** [a || b || c] where [a] and [b] may be [undefined]. *)
Definition first_truthy (a b : option Json.value) (c : Json.value) : Json.value :=
  match a with
  | Some va => if Json.truthy va then va else
      match b with
      | Some vb => if Json.truthy vb then vb else c
      | None => c
      end
  | None =>
      match b with
      | Some vb => if Json.truthy vb then vb else c
      | None => c
      end
  end.

Definition message_of (v : Json.value) : string :=
  match v with
  | Json.JString s => s
  | _ => ToString v
  end.

(** The [if (!response.ok)] block up to its [throw]: the value of
    [errorMessage]. *)
Definition errorMessage (response : response) : Js.M hook Json.value :=
  (Js.try_catch
     (let* errorData := Js.await (text response) in
      if Js.truthy errorData then
        let* parsed := Js.await (JSON_parse errorData) in
        let* e := Js.await (Json.prop "error" parsed) in
        let* m := Js.await (Json.prop "message" parsed) in
        Js.ret (first_truthy e m (Json.JString errorData))
      else Js.ret (Json.JString (statusText response)))
     (fun _ => Js.throw ReferenceError))%js.

Definition request (fetched : Js.completion response) : Js.M hook Json.value :=
  (setPending true >>
   setLastError None >>
   Js.try_finally
     (Js.try_catch
        (let* response := Js.await fetched in
         if negb (ok response) then
           let* msg := errorMessage response in
           Js.throw (Js.new_Error (message_of msg))
         else if status response =? 204 then Js.ret Json.JNull
         else
           let* body := Js.await (text response) in
           if Js.truthy body then Js.await (JSON_parse body) else Js.ret Json.JNull)
        (fun error => setLastError (Some error) >> Js.throw error))
     (setPending false))%js.

End Request.
End ApiJsonErrors.

(** ** Toasts *)

Record toast := Toast {
  title : string;
  message : string;
  intent : string
}.

(** ** Transition policy: the action buttons a state tag offers *)

Inductive action : Type :=
| AcceptCredential      (* acceptCredentialOffer: request-credential *)
| StoreCredential       (* storeCredential: store-credential *)
| RefreshStored         (* the Refresh Stored button of a done exchange *)
| RespondToProof        (* sendPresentation *)
| VerifyPresentation.   (* verifyPresentation *)

Definition when (b : bool) (a : action) : list action := if b then [a] else [].

(** Alice's pages (holder). *)
Module Alice.

(** The Actions cell of a [CredentialsPage] row. *)
Definition credential_actions (state : string) : list action :=
  when (String.eqb state "offer-received" || String.eqb state "offer_received")
       AcceptCredential ++
  when (String.eqb state "credential-received" || String.eqb state "credential_received")
       StoreCredential ++
  when (String.eqb state "done") RefreshStored.

(** The Actions cell of a [ProofsPage] row. *)
Definition proof_actions (state : string) : list action :=
  when (String.eqb state "request_received") RespondToProof.

End Alice.

(** Acme's pages (verifier). *)
Module Acme.

Definition credential_actions (state : string) : list action :=
  when (String.eqb state "offer_received") AcceptCredential ++
  when (String.eqb state "credential_received") StoreCredential.

Definition proof_actions (state : string) : list action :=
  when (String.eqb state "presentation_received" || String.eqb state "presentation-received")
       VerifyPresentation.

End Acme.

(** The canonical spelling of a state tag: every hyphen as an underscore. *)
Definition canon_char (c : ascii) : ascii :=
  if Ascii.eqb c "-" then "_"%char else c.

Fixpoint canon (s : string) : string :=
  match s with
  | EmptyString => EmptyString
  | String c s' => String (canon_char c) (canon s')
  end.

(** Two tags are synonyms when they differ only in hyphen versus underscore. *)
Definition synonyms (s1 s2 : string) : Prop := canon s1 = canon s2.

(** A literal without separators. *)
Fixpoint nosep (s : string) : bool :=
  match s with
  | EmptyString => true
  | String c s' => negb (Ascii.eqb c "-") && negb (Ascii.eqb c "_") && nosep s'
  end.

(** ** [storeCredential] and its [storing] flag (Alice and Acme) *)

Module StoreGuard.

(** [CredentialsPage] state touched by [storeCredential]; [requests] logs
    the ids of the POST [/api/credential-exchanges/:id/store] calls issued,
    [reloads] counts the silent list reloads started after a success. *)
Record page := Page {
  storing : gmap string bool;
  toasts : list toast;
  requests : list string;
  reloads : nat
}.

Definition init : page := Page ∅ [] [] 0%nat.

Definition setStoring (f : gmap string bool -> gmap string bool) : Js.M page unit :=
  Js.modify (fun p => Page (f (storing p)) (toasts p) (requests p) (reloads p)).
Definition pushToast (t : toast) : Js.M page unit :=
  Js.modify (fun p => Page (storing p) (toasts p ++ [t]) (requests p) (reloads p)).
Definition post_store (credExId : string) : Js.M page unit :=
  Js.modify (fun p => Page (storing p) (toasts p) (requests p ++ [credExId]) (reloads p)).
Definition reload_lists : Js.M page unit :=
  Js.modify (fun p => Page (storing p) (toasts p) (requests p) (S (reloads p))).

(** [storing[credExId]] as a condition. *)
Definition flagged (storing : gmap string bool) (credExId : string) : bool :=
  match storing !! credExId with
  | Some true => true
  | _ => false
  end.

(** [storeCredential] up to its [await].  [storing_c] is the [storing]
    object of the render that created the handler.  The result tells
    whether the call went on to issue the request. *)
Definition storeCredential_call (storing_c : gmap string bool) (credExId : string)
  : Js.M page bool :=
  (if flagged storing_c credExId then Js.ret false
   else
     setStoring (fun prev => <[credExId := true]> prev) >>
     post_store credExId >>
     Js.ret true)%js.

(** [storeCredential] from its [await] on, once the request has settled. *)
Definition storeCredential_resume (credExId : string) (resp : Js.completion Json.value)
  : Js.M page unit :=
  (Js.try_finally
     (Js.try_catch
        (let* _ := Js.await resp in
         pushToast (Toast "Credential stored"
                          "Credential has been successfully stored in your wallet."
                          "success") >>
         reload_lists)
        (fun error =>
           pushToast (Toast "Failed to store credential" (Js.message error) "error")))
     (setStoring (fun prev => delete credExId prev)))%js.

(** The mounted page with its suspended [storeCredential] calls. *)
Record sys := Sys {
  pg : page;
  inflight : list string
}.

Definition start : sys := Sys init [].

Inductive event : Type :=
| Click (credExId : string)                                (* the Store button *)
| Settle (credExId : string) (resp : Js.completion Json.value).

Fixpoint remove_first (x : string) (l : list string) : list string :=
  match l with
  | [] => []
  | y :: l' => if String.eqb x y then l' else y :: remove_first x l'
  end.

Definition mem (x : string) (l : list string) : bool :=
  existsb (String.eqb x) l.

(** A click runs the handler of the current render; a response is
    delivered only to a call that awaits it. *)
Definition step (e : event) (s : sys) : sys :=
  match e with
  | Click credExId =>
      match storeCredential_call (storing (pg s)) credExId (pg s) with
      | (p, Js.Normal true) => Sys p (inflight s ++ [credExId])
      | (p, _) => Sys p (inflight s)
      end
  | Settle credExId resp =>
      if mem credExId (inflight s) then
        Sys (fst (storeCredential_resume credExId resp (pg s)))
            (remove_first credExId (inflight s))
      else s
  end.

Definition run (evs : list event) (s : sys) : sys :=
  fold_left (fun s e => step e s) evs s.




(** The process: every [CredentialsPage] instance the router has mounted so
    far, the last one being the one on screen.  [storing] is [useState] of
    the page, so a mount starts with no flag; an instance that left the
    screen keeps its suspended calls. *)
Definition process : Type := list sys.

Inductive pevent : Type :=
| Mount                                   (* the route renders a new [CredentialsPage] *)
| Press (credExId : string)               (* the Store button of the page on screen *)
| Settled (i : nat) (credExId : string) (resp : Js.completion Json.value).

Definition pstep (e : pevent) (P : process) : process :=
  match e with
  | Mount => (P ++ [start])%list
  | Press credExId =>
      match P !! (List.length P - 1)%nat with
      | Some s => <[(List.length P - 1)%nat := step (Click credExId) s]> P
      | None => P
      end
  | Settled i credExId resp =>
      match P !! i with
      | Some s => <[i := step (Settle credExId resp) s]> P
      | None => P
      end
  end.

Definition prun (evs : list pevent) (P : process) : process :=
  fold_left (fun P e => pstep e P) evs P.


End StoreGuard.

(** ** The [load] callbacks: a response replaces the held list *)

Module Refresh.

(** [res?.results ?? []] *)
Definition results_or_empty (res : Json.value) : Json.value :=
  match res with
  | Json.JObject ms =>
      match Json.member "results" ms with
      | Some Json.JNull | None => Json.JArray []
      | Some v => v
      end
  | _ => Json.JArray []
  end.

(** State of [useConnections] (Alice); Acme's [ProofsPage] keeps [proofs]
    the same way and has no [loading] write in [load]. *)
Record view := View {
  items : Json.value;
  loading : bool;
  toasts : list toast
}.

Definition init : view := View (Json.JArray []) false [].

Definition setItems (v : Json.value) : Js.M view unit :=
  Js.modify (fun w => View v (loading w) (toasts w)).
Definition setLoading (b : bool) : Js.M view unit :=
  Js.modify (fun w => View (items w) b (toasts w)).
Definition pushToast (t : toast) : Js.M view unit :=
  Js.modify (fun w => View (items w) (loading w) (toasts w ++ [t])).

(** [useConnections.load] up to its [await]. *)
Definition load_call : Js.M view unit := setLoading true.

(** [useConnections.load] from its [await] on. *)
Definition load_resume (resp : Js.completion Json.value) : Js.M view unit :=
  (Js.try_finally
     (Js.try_catch
        (let* res := Js.await resp in
         setItems (results_or_empty res))
        (fun error =>
           pushToast (Toast "Failed to load connections" (Js.message error) "error")))
     (setLoading false))%js.

(** Acme's [ProofsPage.load]: nothing before the [await]. *)
Definition proofs_load_call : Js.M view unit := Js.ret tt.

Definition proofs_load_resume (resp : Js.completion Json.value) : Js.M view unit :=
  (Js.try_catch
     (let* res := Js.await resp in
      setItems (results_or_empty res))
     (fun error =>
        pushToast (Toast "Failed to load proofs" (Js.message error) "error")))%js.

(** A hook with its outstanding refreshes, numbered in issue order. *)
Record sys := Sys {
  vw : view;
  next : nat;
  outstanding : list nat
}.

Definition start : sys := Sys init 0 [].

Inductive event : Type :=
| Issue                                              (* a call of [load] *)
| Arrive (n : nat) (resp : Js.completion Json.value). (* refresh [n] settles *)

Definition is_outstanding (n : nat) (s : sys) : bool :=
  existsb (Nat.eqb n) (outstanding s).

Definition drop (n : nat) (l : list nat) : list nat :=
  filter (fun m => m ≠ n) l.

Section Loader.
Variable call : Js.M view unit.
Variable resume : Js.completion Json.value -> Js.M view unit.

Definition step (e : event) (s : sys) : sys :=
  match e with
  | Issue => Sys (fst (call (vw s))) (S (next s)) (outstanding s ++ [next s])
  | Arrive n resp =>
      if is_outstanding n s then
        Sys (fst (resume resp (vw s))) (next s) (drop n (outstanding s))
      else s
  end.

Definition run (evs : list event) (s : sys) : sys :=
  fold_left (fun s e => step e s) evs s.

End Loader.

(** The two loaders. *)
Definition connections_run := run load_call load_resume.
Definition proofs_run := run proofs_load_call proofs_load_resume.

(** A snapshot payload holding the given record list. *)
Definition payload (records : list Json.value) : Json.value :=
  Json.JObject [("results", Json.JArray records)].

End Refresh.

(** ** Faber's [CredentialsIssuedCard.load] *)

Module IssuedCard.

Definition TypeError : Js.error :=
  Js.Error "TypeError" "Cannot read properties of null".

(** [v.k] on a value known not to be [null]; [None] is [undefined]. *)
Definition get (k : string) (v : Json.value) : option Json.value :=
  match v with
  | Json.JObject ms => Json.member k ms
  | _ => None
  end.

(** [v?.k1?.k2 ...] *)
Fixpoint opt_chain (ks : list string) (v : option Json.value) : option Json.value :=
  match ks with
  | [] => v
  | k :: ks' =>
      match v with
      | None | Some Json.JNull => None
      | Some x => opt_chain ks' (get k x)
      end
  end.

(** [x || null] *)
Definition or_null (v : option Json.value) : Json.value :=
  match v with
  | Some x => if Json.truthy x then x else Json.JNull
  | None => Json.JNull
  end.

(** A property of an object literal; an [undefined] value is left out. *)
Definition field (k : string) (v : option Json.value) : list (string * Json.value) :=
  match v with
  | Some x => [(k, x)]
  | None => []
  end.

(** [typeof v === 'object'] for a truthy [v]. *)
Definition is_object (v : Json.value) : bool :=
  match v with
  | Json.JObject _ | Json.JArray _ => true
  | _ => false
  end.

(** The callback of [list.map]: lift a nested [cred_ex_record]. *)
Definition flatten (item : Json.value) : Js.completion Json.value :=
  match item with
  | Json.JNull => Js.Throw TypeError
  | _ =>
      match get "cred_ex_record" item with
      | Some r =>
          if Json.truthy r && is_object r then
            Js.Normal (Json.JObject (
              field "cred_ex_id" (get "cred_ex_id" r) ++
              field "connection_id" (get "connection_id" r) ++
              field "state" (get "state" r) ++
              field "role" (get "role" r) ++
              field "thread_id" (get "thread_id" r) ++
              field "created_at" (get "created_at" r) ++
              field "updated_at" (get "updated_at" r) ++
              [("rev_reg_id",
                or_null (opt_chain ["cred_issue"; "indy"; "rev_reg_id"] (get "by_format" r)));
               ("cred_rev_id",
                or_null (opt_chain ["cred_issue"; "indy"; "cred_rev_id"] (get "by_format" r)));
               ("_raw", item)]))
          else Js.Normal item
      | None => Js.Normal item
      end
  end.

Fixpoint map_flatten (l : list Json.value) : Js.completion (list Json.value) :=
  match l with
  | [] => Js.Normal []
  | x :: l' =>
      match flatten x with
      | Js.Normal y =>
          match map_flatten l' with
          | Js.Normal ys => Js.Normal (y :: ys)
          | Js.Throw e => Js.Throw e
          end
      | Js.Throw e => Js.Throw e
      end
  end.

(** [Array.isArray(res?.results) ? res.results : []] *)
Definition results_array (res : Json.value) : list Json.value :=
  match res with
  | Json.JObject ms =>
      match Json.member "results" ms with
      | Some (Json.JArray l) => l
      | _ => []
      end
  | _ => []
  end.

(** The [try] block up to [setExchanges]: the list it computes, or what it
    throws. *)
Definition snapshot (resp : Js.completion Json.value) : Js.completion (list Json.value) :=
  match resp with
  | Js.Normal res => map_flatten (results_array res)
  | Js.Throw e => Js.Throw e
  end.

Record card := Card {
  exchanges : list Json.value;
  loading : bool;
  loadError : option string;
  fetchedOnce : bool
}.

Definition init : card := Card [] false None false.

Definition setExchanges (l : list Json.value) : Js.M card unit :=
  Js.modify (fun c => Card l (loading c) (loadError c) (fetchedOnce c)).
Definition setLoading (b : bool) : Js.M card unit :=
  Js.modify (fun c => Card (exchanges c) b (loadError c) (fetchedOnce c)).
Definition setLoadError (e : option string) : Js.M card unit :=
  Js.modify (fun c => Card (exchanges c) (loading c) e (fetchedOnce c)).
Definition setFetchedOnce (b : bool) : Js.M card unit :=
  Js.modify (fun c => Card (exchanges c) (loading c) (loadError c) b).

(** The state values a [load] callback captured ([useCallback]'s
    dependencies [fetchedOnce] and [loading]). *)
Record closure := Closure {
  c_loading : bool;
  c_fetchedOnce : bool
}.

Definition render (c : card) : closure := Closure (loading c) (fetchedOnce c).

Definition default_message : string := "Failed to load credential exchanges".

(** [load] up to its [await]; the result tells whether a request went out. *)
Definition load_call (env : closure) : Js.M card bool :=
  (if c_loading env then Js.ret false
   else
     setLoading true >>
     setLoadError None >>
     Js.ret true)%js.

(** [load] from its [await] on. *)
Definition load_resume (env : closure) (resp : Js.completion Json.value) : Js.M card unit :=
  (Js.try_finally
     (Js.try_catch
        (let* list := Js.await (snapshot resp) in
         setExchanges list >>
         setFetchedOnce true)
        (fun error =>
           setLoadError (Some (Js.or_else (Js.message error) default_message)) >>
           if negb (c_fetchedOnce env) then setExchanges [] else Js.ret tt))
     (setLoading false))%js.

(** The mounted card with the [load] calls that await their response, each
    with the values it captured.  [Call] is the [load] of the route effect
    and of the Refresh button; [IssuedPage] adds the one [confirmRevoke]
    calls. *)
Record sys := Sys {
  cd : card;
  inflight : list closure
}.

Definition start : sys := Sys init [].

Inductive event : Type :=
| Call                                               (* [load()] of the current render *)
| Settle (k : nat) (resp : Js.completion Json.value). (* the [k]-th awaiting call *)

Definition step (e : event) (s : sys) : sys :=
  match e with
  | Call =>
      let env := render (cd s) in
      match load_call env (cd s) with
      | (c, Js.Normal true) => Sys c (inflight s ++ [env])
      | (c, _) => Sys c (inflight s)
      end
  | Settle k resp =>
      match inflight s !! k with
      | Some env => Sys (fst (load_resume env resp (cd s))) (delete k (inflight s))
      | None => s
      end
  end.

Definition run (evs : list event) (s : sys) : sys :=
  fold_left (fun s e => step e s) evs s.

End IssuedCard.

(** ** Acme's [autoVerifyPresentations] effect *)

Module AutoVerify.

(** What the scanner reads of a presentation-exchange record. *)
Record proof := Proof {
  presentation_exchange_id : option string;
  pres_ex_id : option string;
  state : option string
}.

(** [proof.presentation_exchange_id || proof.pres_ex_id] *)
Definition exchangeId (p : proof) : option string :=
  if Js.truthy_opt (presentation_exchange_id p) then presentation_exchange_id p
  else pres_ex_id p.

(** [proof.state || 'unknown'] *)
Definition state_of (p : proof) : string :=
  match state p with
  | Some s => Js.or_else s "unknown"
  | None => "unknown"
  end.

Definition isPresentationReceived (st : string) : bool :=
  String.eqb st "presentation_received" || String.eqb st "presentation-received".

(** [ProofsPage] state touched by the effect.  [autoVerified] is
    [autoVerifiedRef.current]; [verify_calls] logs the ids of the POST
    [/api/proofs/:id/verify] calls the scanner issued; [reloads] counts the
    list reloads scheduled after a success. *)
Record page := Page {
  autoVerified : gset string;
  verifying : gmap string bool;
  toasts : list toast;
  verify_calls : list string;
  reloads : nat
}.

Definition init : page := Page ∅ ∅ [] [] 0%nat.

Definition setVerifying (f : gmap string bool -> gmap string bool) : Js.M page unit :=
  Js.modify (fun p => Page (autoVerified p) (f (verifying p)) (toasts p) (verify_calls p) (reloads p)).
Definition ref_add (i : string) : Js.M page unit :=
  Js.modify (fun p => Page ({[i]} ∪ autoVerified p) (verifying p) (toasts p) (verify_calls p) (reloads p)).
Definition ref_delete (i : string) : Js.M page unit :=
  Js.modify (fun p => Page (autoVerified p ∖ {[i]}) (verifying p) (toasts p) (verify_calls p) (reloads p)).
Definition pushToast (t : toast) : Js.M page unit :=
  Js.modify (fun p => Page (autoVerified p) (verifying p) (toasts p ++ [t]) (verify_calls p) (reloads p)).
Definition post_verify (i : string) : Js.M page unit :=
  Js.modify (fun p => Page (autoVerified p) (verifying p) (toasts p) (verify_calls p ++ [i]) (reloads p)).
Definition schedule_reload : Js.M page unit :=
  Js.modify (fun p => Page (autoVerified p) (verifying p) (toasts p) (verify_calls p) (S (reloads p))).

(** [autoVerifiedRef.current.has(exchangeId)] *)
Definition ref_has (o : option string) : Js.M page bool :=
  fun p => (p, Js.Normal match o with
                         | Some i => bool_decide (i ∈ autoVerified p)
                         | None => false
                         end).

(** The loop's test [isPresentationReceived && exchangeId && !alreadyVerified]
    without its last conjunct. *)
Definition qualifies (p : proof) : bool :=
  isPresentationReceived (state_of p) && Js.truthy_opt (exchangeId p).

(** The statements between the test and the [await]. *)
Definition mark (i : string) : Js.M page unit :=
  (setVerifying (fun prev => <[i := true]> prev) >>
   ref_add i >>
   post_verify i)%js.

(** The [try]/[catch]/[finally] from the [await] on. *)
Definition settle_body (i : string) (resp : Js.completion Json.value) : Js.M page unit :=
  (Js.try_finally
     (Js.try_catch
        (let* _ := Js.await resp in
         pushToast (Toast "Presentation auto-verified"
                          ("Proof exchange " ++ substring 0 8 i ++
                           "... has been automatically verified.")
                          "success") >>
         schedule_reload)
        (fun error =>
           pushToast (Toast "Auto-verification failed"
                            (Js.or_else (Js.message error)
                                        "Failed to automatically verify presentation")
                            "error") >>
           ref_delete i))
     (setVerifying (fun prev => delete i prev)))%js.

(** A scan suspended at its [await]: the id being verified and the records
    the loop has not reached. *)
Record scan := Scan {
  awaiting : string;
  rest : list proof
}.

(** The loop from the records [ps] up to its next [await], or to its end. *)
Fixpoint advance (ps : list proof) : Js.M page (option scan) :=
  match ps with
  | [] => Js.ret None
  | p :: ps' =>
      (let* alreadyVerified := ref_has (exchangeId p) in
       if qualifies p && negb alreadyVerified then
         match exchangeId p with
         | Some i => mark i >> Js.ret (Some (Scan i ps'))
         | None => advance ps'
         end
       else advance ps')%js
  end.

(** A suspended scan goes on when its request settles. *)
Definition resume (sc : scan) (resp : Js.completion Json.value) : Js.M page (option scan) :=
  (settle_body (awaiting sc) resp >> advance (rest sc))%js.

(** The whole loop when nothing else runs in between; the request issued
    after the calls [log] settles as [oracle log]. *)
Fixpoint autoVerifyPresentations (oracle : list string -> Js.completion Json.value)
  (ps : list proof) : Js.M page unit :=
  match ps with
  | [] => Js.ret tt
  | p :: ps' =>
      (let* alreadyVerified := ref_has (exchangeId p) in
       (if qualifies p && negb alreadyVerified then
          match exchangeId p with
          | Some i =>
              mark i >>
              let* now := Js.get in
              settle_body i (oracle (verify_calls now))
          | None => Js.ret tt
          end
        else Js.ret tt) >>
       autoVerifyPresentations oracle ps')%js
  end.

(** One mounted [ProofsPage] with its suspended scans. *)
Record sys := Sys {
  pg : page;
  scans : list scan
}.

Definition start : sys := Sys init [].

Inductive event : Type :=
| Snapshot (proofs : list proof)                      (* [setProofs]: the effect runs *)
| Settle (k : nat) (resp : Js.completion Json.value).  (* the [k]-th suspended scan *)

Definition step (e : event) (s : sys) : sys :=
  match e with
  | Snapshot proofs =>
      match proofs with
      | [] => s
      | _ :: _ =>
          match advance proofs (pg s) with
          | (p, Js.Normal (Some sc)) => Sys p (scans s ++ [sc])
          | (p, _) => Sys p (scans s)
          end
      end
  | Settle k resp =>
      match scans s !! k with
      | Some sc =>
          match resume sc resp (pg s) with
          | (p, Js.Normal (Some sc')) => Sys p (<[k := sc']> (scans s))
          | (p, _) => Sys p (delete k (scans s))
          end
      | None => s
      end
  end.

Definition run (evs : list event) (s : sys) : sys :=
  fold_left (fun s e => step e s) evs s.

(** How often the scanner asked to verify [i]. *)
Definition invoked (i : string) (p : page) : nat :=
  List.length (filter (fun j => j = i) (verify_calls p)).

(** The ids the suspended scans wait for. *)
Definition awaited (s : sys) : list string := map awaiting (scans s).

(** The process: every [ProofsPage] instance mounted so far, the last one
    being the one on screen.  A mount creates the ref anew; an instance
    that left the screen keeps its suspended scans. *)
Definition process : Type := list sys.

Inductive pevent : Type :=
| Mount                                       (* the route renders a new [ProofsPage] *)
| Refresh (proofs : list proof)               (* [setProofs] on the mounted instance *)
| Settled (i k : nat) (resp : Js.completion Json.value).

Definition pstep (e : pevent) (P : process) : process :=
  match e with
  | Mount => (P ++ [start])%list
  | Refresh proofs =>
      match P !! (List.length P - 1)%nat with
      | Some s => <[(List.length P - 1)%nat := step (Snapshot proofs) s]> P
      | None => P
      end
  | Settled i k resp =>
      match P !! i with
      | Some s => <[i := step (Settle k resp) s]> P
      | None => P
      end
  end.

Definition prun (evs : list pevent) (P : process) : process :=
  fold_left (fun P e => pstep e P) evs P.

(** Verify requests for [i] issued by the whole process. *)
Definition pinvoked (i : string) (P : process) : nat :=
  list_sum (map (fun s => invoked i (pg s)) P).

(** A presentation exchange in the hyphenated received state. *)
Definition received (i : string) : proof :=
  Proof None (Some i) (Some "presentation-received").

(** The toasts of the two outcomes. *)
Definition success_toast (i : string) : toast :=
  Toast "Presentation auto-verified"
        ("Proof exchange " ++ substring 0 8 i ++ "... has been automatically verified.")
        "success".

Definition failure_toast (e : Js.error) : toast :=
  Toast "Auto-verification failed"
        (Js.or_else (Js.message e) "Failed to automatically verify presentation")
        "error".

(** Distinct suspended scans wait for distinct ids, all of them in the set. *)
Definition scan_inv (s : sys) : Prop :=
  (∀ a b sa sb, a ≠ b -> scans s !! a = Some sa -> scans s !! b = Some sb ->
                awaiting sa ≠ awaiting sb) ∧
  (∀ a sa, scans s !! a = Some sa -> awaiting sa ∈ autoVerified (pg s)).

(** Some suspended scan waits for the verification of [i]. *)
Definition is_awaited (i : string) (s : sys) : bool :=
  existsb (String.eqb i) (awaited s).

(** The event does not settle the request for [i]. *)
Definition not_settling (i : string) (e : event) (s : sys) : bool :=
  match e with
  | Settle k _ =>
      match scans s !! k with
      | Some sc => negb (String.eqb (awaiting sc) i)
      | None => true
      end
  | Snapshot _ => true
  end.

(** None of the events, run from [s], settles the request for [i]. *)
Fixpoint leaves_pending (i : string) (evs : list event) (s : sys) : bool :=
  match evs with
  | [] => true
  | e :: evs' => not_settling i e s && leaves_pending i evs' (step e s)
  end.

End AutoVerify.

(** ** Faber's fire-and-forget [sendCredential] *)

Module BackgroundSend.

Inductive Status : Type := sending | completed | failed.

(** An entry of [pendingCredentials]. *)
Record PendingItem := PendingItem_ {
  id : string;
  credDefId : string;
  connectionId : string;
  comment : string;
  attributes : list (string * string);
  startTime : Z;
  status : Status;
  credExId : option Json.value;
  error : option string;
  isTimeout : bool;
  durationSec : option Z
}.

(** The Status cell of the Background Credential Sends table. *)
Definition badge (item : PendingItem) : string :=
  match status item with
  | sending => "Sending..."
  | completed => "Completed"
  | failed => if isTimeout item then "Timeout" else "Failed"
  end.

Definition SEND_TIMEOUT_MS : Z := 610 * 1000.

(** [Math.round(ms / 1000)] for an elapsed time. *)
Definition round_seconds (ms : Z) : Z := (ms + 500) / 1000.

Definition show (n : Z) : string := DecimalString.NilZero.string_of_int (Z.to_int n).

(** The error a fetch rejects with once its signal is aborted. *)
Definition AbortError : Js.error := Js.Error "AbortError" "The operation was aborted.".

(** What [sendCredential] created for one send: the constants its handlers
    close over, the timeout ([timer] holds the time it is due while it is
    armed), the [AbortController]'s signal and whether the request promise
    has settled. *)
Record task := Task {
  pendingId : string;
  t_start : Z;
  timer : option Z;
  aborted : bool;
  request_settled : bool
}.

(** [now] is the clock read by [Date.now()]. *)
Record world := World {
  now : Z;
  pendingCredentials : list PendingItem;
  sendingFlag : bool;
  toasts : list toast;
  tk : option task
}.

Definition setPendingCredentials (f : list PendingItem -> list PendingItem) : Js.M world unit :=
  Js.modify (fun w => World (now w) (f (pendingCredentials w)) (sendingFlag w) (toasts w) (tk w)).
Definition setSending (b : bool) : Js.M world unit :=
  Js.modify (fun w => World (now w) (pendingCredentials w) b (toasts w) (tk w)).
Definition pushToast (t : toast) : Js.M world unit :=
  Js.modify (fun w => World (now w) (pendingCredentials w) (sendingFlag w) (toasts w ++ [t]) (tk w)).
Definition setTask (f : option task -> option task) : Js.M world unit :=
  Js.modify (fun w => World (now w) (pendingCredentials w) (sendingFlag w) (toasts w) (f (tk w))).

(** [clearTimeout(timeoutId)] *)
Definition clearTimeout : Js.M world unit :=
  setTask (option_map (fun t => Task (pendingId t) (t_start t) None (aborted t) (request_settled t))).

(** The issue form and what [openIssueModal] loaded. *)
Record form := Form {
  f_connectionId : string;
  f_credDefId : string;
  f_comment : string;
  schemaMeta : option string;             (* [schemaMeta.issuerDid] *)
  attributeValues : list (string * option string)
}.

(** [result?.cred_ex_id || result?.credential_exchange_id] *)
Definition result_id (result : Json.value) : option Json.value :=
  match IssuedCard.opt_chain ["cred_ex_id"] (Some result) with
  | Some v => if Json.truthy v then Some v
              else IssuedCard.opt_chain ["credential_exchange_id"] (Some result)
  | None => IssuedCard.opt_chain ["credential_exchange_id"] (Some result)
  end.

(** The [.then] callback. *)
Definition on_result (pending_id : string) (start_time : Z) (result : Json.value) : Js.M world unit :=
  (clearTimeout >>
   let* w := Js.get in
   let durationSec := round_seconds (now w - start_time) in
   setPendingCredentials (map (fun item =>
     if String.eqb (id item) pending_id then
       PendingItem_ (id item) (credDefId item) (connectionId item) (comment item)
                    (attributes item) (startTime item) completed (result_id result)
                    (error item) (isTimeout item) (Some durationSec)
     else item)) >>
   pushToast (Toast "Credential sent"
                    ("Credential has been sent to Alice. Total time: " ++ show durationSec ++
                     " second(s).")
                    "success") >>
   pushToast (Toast "Track in Credentials Issued"
                    "Open Credentials Issued and Refresh to see status."
                    "info"))%js.

(** The [.catch] callback. *)
Definition on_error (pending_id : string) (start_time : Z) (err : Js.error) : Js.M world unit :=
  (clearTimeout >>
   let* w := Js.get in
   let durationSec := round_seconds (now w - start_time) in
   let timedOut := String.eqb (Js.name err) "AbortError" in
   setPendingCredentials (map (fun item =>
     if String.eqb (id item) pending_id then
       PendingItem_ (id item) (credDefId item) (connectionId item) (comment item)
                    (attributes item) (startTime item) failed (credExId item)
                    (Some (Js.or_else (Js.message err) "Unknown error"))
                    timedOut (Some durationSec)
     else item)) >>
   pushToast (Toast (if timedOut then "Request timed out" else "Failed to send credential")
                    ((if timedOut
                      then "Send credential did not complete within " ++
                           show (SEND_TIMEOUT_MS / 1000) ++
                           "s. Check ACA-Py and connection."
                      else Js.or_else (Js.message err)
                             "Unable to send credential, please check connection status and Credential Definition")
                     ++ " (elapsed: " ++ show durationSec ++ " second(s))")
                    "error"))%js.

(** The promise chain [.then(..).catch(..).finally(..)] once the request has
    settled as [r]. *)
Definition on_settled (pending_id : string) (start_time : Z) (r : settled Json.value)
  : Js.M world unit :=
  (match r with
   | Resolved result => on_result pending_id start_time result
   | Rejected err => on_error pending_id start_time err
   end >>
   setSending false)%js.

(** [sendCredential] up to the request.  [rand] is the random suffix of the
    pending id. *)
Definition sendCredential (fm : form) (rand : string) : Js.M world unit :=
  (let* w := Js.get in
   if sendingFlag w then Js.ret tt
   else if negb (Js.truthy (f_connectionId fm)) then
     pushToast (Toast "No connection selected" EmptyString "error")
   else if negb (Js.truthy (f_credDefId fm)) then
     pushToast (Toast "No Credential Definition selected" EmptyString "error")
   else
     match schemaMeta fm with
     | None => pushToast (Toast "Schema info not loaded" EmptyString "error")
     | Some issuerDid =>
         match attributeValues fm with
         | [] => pushToast (Toast "Schema attribute fields not loaded" EmptyString "error")
         | _ :: _ =>
             let start_time := now w in
             let pending_id := "cred-" ++ show (now w) ++ "-" ++ rand in
             let attrs :=
               map (fun a => (fst a, default EmptyString (snd a))) (attributeValues fm) in
             let cmt := Js.or_else (f_comment fm) ("Credential from " ++ issuerDid) in
             setSending true >>
             setPendingCredentials (fun prev => app prev
               [PendingItem_ pending_id (f_credDefId fm) (f_connectionId fm) cmt
                             attrs start_time sending None None false None]) >>
             setTask (fun _ =>
               Some (Task pending_id start_time (Some (now w + SEND_TIMEOUT_MS)) false false))
         end
     end)%js.

Inductive event : Type :=
| Tick (dt : N)                       (* time passes *)
| TimerFires                          (* the armed timeout comes due *)
| Replies (r : settled Json.value)    (* [api.request] settles by itself *)
| Dismiss (i : string)                (* a row's Dismiss or Remove button *)
| ClearFinished.                      (* Clear Completed/Failed *)

Definition is_sending (item : PendingItem) : bool :=
  match status item with sending => true | _ => false end.

Definition mark_settled (ab : bool) : Js.M world unit :=
  setTask (option_map (fun t => Task (pendingId t) (t_start t) (timer t) ab true)).

(** The platform's part: a timeout runs only while armed and due, and runs
    once; aborting a fetch that has not settled rejects it with
    [AbortError]; a promise settles once, and an aborted fetch delivers
    nothing else. *)
Definition step (e : event) (w : world) : world :=
  match e with
  | Tick dt => World (now w + Z.of_N dt) (pendingCredentials w) (sendingFlag w) (toasts w) (tk w)
  | TimerFires =>
      match tk w with
      | Some t =>
          match timer t with
          | Some due =>
              if due <=? now w then
                if request_settled t then
                  fst ((clearTimeout >> mark_settled true)%js w)
                else
                  fst ((clearTimeout >> mark_settled true >>
                        on_settled (pendingId t) (t_start t) (Rejected AbortError))%js w)
              else w
          | None => w
          end
      | None => w
      end
  | Replies r =>
      match tk w with
      | Some t =>
          if request_settled t || aborted t then w
          else fst ((mark_settled (aborted t) >>
                     on_settled (pendingId t) (t_start t) r)%js w)
      | None => w
      end
  | Dismiss i =>
      fst (setPendingCredentials (filter (fun p => id p ≠ i)) w)
  | ClearFinished =>
      fst (setPendingCredentials (filter (fun p => is_sending p = true)) w)
  end.

Definition run (evs : list event) (w : world) : world :=
  fold_left (fun w e => step e w) evs w.

(** The entry of the tracked send, while it is listed. *)
Definition entry (w : world) : option PendingItem :=
  match tk w with
  | Some t => find (fun item => String.eqb (id item) (pendingId t)) (pendingCredentials w)
  | None => None
  end.


(** What the promise chain makes of an entry: the two [map] callbacks. *)
Definition settled_item (pending_id : string) (elapsed : Z) (r : settled Json.value)
  (item : PendingItem) : PendingItem :=
  if String.eqb (id item) pending_id then
    match r with
    | Resolved result =>
        PendingItem_ (id item) (credDefId item) (connectionId item) (comment item)
                     (attributes item) (startTime item) completed (result_id result)
                     (error item) (isTimeout item) (Some (round_seconds elapsed))
    | Rejected err =>
        PendingItem_ (id item) (credDefId item) (connectionId item) (comment item)
                     (attributes item) (startTime item) failed (credExId item)
                     (Some (Js.or_else (Js.message err) "Unknown error"))
                     (String.eqb (Js.name err) "AbortError") (Some (round_seconds elapsed))
    end
  else item.

(** [sendCredential] passes its checks in [w] and creates the send
    [pending_id], an id no listed entry has. *)
Definition starts (fm : form) (rand : string) (w : world) : bool :=
  negb (sendingFlag w) && Js.truthy (f_connectionId fm) && Js.truthy (f_credDefId fm) &&
  match schemaMeta fm with Some _ => true | None => false end &&
  match attributeValues fm with [] => false | _ :: _ => true end &&
  forallb (fun item => negb (String.eqb (id item) ("cred-" ++ show (now w) ++ "-" ++ rand)))
          (pendingCredentials w).

(** The state of the tracked send [pending_id], started at [t0]: until its
    request settles the timeout is armed for [t0 + SEND_TIMEOUT_MS], the
    signal is not aborted and its entry is [sending]; afterwards the timeout
    is gone and its entry is terminal, and when the signal was aborted the
    timeout had come due and the entry is a failure flagged as timeout. *)
Definition send_inv (pending_id : string) (t0 : Z) (w : world) : Prop :=
  ∃ t, tk w = Some t ∧ pendingId t = pending_id ∧ t_start t = t0 ∧
       if request_settled t then
         timer t = None ∧
         (aborted t = true -> t0 + SEND_TIMEOUT_MS <= now w) ∧
         Forall (fun item => id item = pending_id ->
                   status item ≠ sending ∧
                   (aborted t = true -> status item = failed ∧ isTimeout item = true))
                (pendingCredentials w)
       else
         timer t = Some (t0 + SEND_TIMEOUT_MS) ∧ aborted t = false ∧
         Forall (fun item => id item = pending_id -> status item = sending)
                (pendingCredentials w).

(** The event can occur while the Credential Definitions card, whose state
    [sending] is, stays on screen: Dismiss, Remove and Clear are buttons of
    the Credentials Issued route, which the router shows in its place. *)
Definition on_card (e : event) : bool :=
  match e with
  | Dismiss _ | ClearFinished => false
  | _ => true
  end.

(** Sample form and idle world. *)
Definition sample_form : form :=
  Form "conn-1" "cred-def-1" EmptyString (Some "did:sov:faber") [("name", Some "Alice")].

Definition idle_world : world := World 1000 [] false [] None.

End BackgroundSend.

(** ** Statements about [request] *)

(** How a call of [request] ends, by the fetch it awaited: the hook it
    leaves and the completion of its body.  An OK response whose body is
    not empty ends as [JSON.parse] of the body does. *)
Definition request_law (parse : string -> Js.completion Json.value)
  (fetched : Js.completion response) (out : hook * Js.completion Json.value) : Prop :=
  pending (fst out) = false ∧
  match fetched with
  | Js.Throw e => out = (Hook false (Some e), Js.Throw e)
  | Js.Normal r =>
      if ok r then
        if status r =? 204 then out = (Hook false None, Js.Normal Json.JNull)
        else
          match text r with
          | Js.Throw e => out = (Hook false (Some e), Js.Throw e)
          | Js.Normal body =>
              if Js.truthy body then
                match parse body with
                | Js.Normal v => out = (Hook false None, Js.Normal v)
                | Js.Throw e => out = (Hook false (Some e), Js.Throw e)
                end
              else out = (Hook false None, Js.Normal Json.JNull)
          end
      else ∃ e, out = (Hook false (Some e), Js.Throw e)
  end.

(** An OK response with status 200 and the given body. *)
Definition ok_response (body : string) : Js.completion response :=
  Js.Normal (Response true 200 "OK" (Js.Normal body)).

Definition idle : hook := Hook false None.

(** ** Sample records *)

(** A presentation-exchange record as the agent lists it. *)
Definition sample_record : Json.value :=
  Json.JObject [("pres_ex_id", Json.JString "px-1");
                ("state", Json.JString "presentation-received")].


(** ** Faber's [truncateMiddle]

    Strings are taken one byte per UTF-16 code unit, as ids and the
    messages of the agent are. *)

Module Truncate.

Definition chars (s : string) : list ascii := list_ascii_of_string s.
Definition text_of (l : list ascii) : string := string_of_list_ascii l.

(** [str.slice(0, n)] *)
Definition slice_front (n : nat) (str : string) : string :=
  text_of (take n (chars str)).

(** [str.slice(-n)]: the last [n] characters; [-0] is [0], so [slice(-0)] is
    the whole string. *)
Definition slice_back (n : nat) (str : string) : string :=
  match n with
  | O => str
  | S _ => text_of (drop (String.length str - n) (chars str))
  end.

(** [truncateMiddle(value, front, back)]; [None] is a missing value. *)
Definition truncateMiddle (value : option string) (front back : nat) : string :=
  match value with
  | Some str =>
      if Js.truthy str then
        if (String.length str <=? front + back + 3)%nat then str
        else slice_front front str ++ "..." ++ slice_back back str
      else "—"
  | None => "—"
  end.

End Truncate.


(** ** [useToasts]: the toast stack and its removal timers *)

Module Toasts.

(** An entry of [items]: the toast under its generated id. *)
Record entry := Entry {
  e_id : string;
  e_toast : toast
}.

(** The hook's list, the armed removal timers (id and time due) and the
    clock. *)
Record stack := Stack {
  now : Z;
  items : list entry;
  timers : list (string * Z)
}.

Definition empty : stack := Stack 0 [] [].

(** [push(toast)], with [id] the generated uuid and [ttl] the toast's own
    [ttl] when it gives a number (the pages' toasts give none and stay for
    4500 ms). *)
Definition push (id : string) (t : toast) (ttl : option Z) (s : stack) : stack :=
  Stack (now s)
        (items s ++ [Entry id t])
        (timers s ++ [(id, now s + default 4500 ttl)]).

(** The timer callback: [current.filter((t) => t.id !== id)]. *)
Definition remove (id : string) (l : list entry) : list entry :=
  filter (fun e => e_id e ≠ id) l.

(** Is a timer of [id] due? *)
Definition due (id : string) (s : stack) : bool :=
  existsb (fun t => String.eqb (fst t) id && (snd t <=? now s)) (timers s).

(** The first due timer of [id] runs and is gone. *)
Fixpoint disarm (id : string) (t0 : Z) (l : list (string * Z)) : list (string * Z) :=
  match l with
  | [] => []
  | t :: l' =>
      if String.eqb (fst t) id && (snd t <=? t0) then l' else t :: disarm id t0 l'
  end.

Inductive event : Type :=
| Tick (dt : N)
| Push (id : string) (t : toast) (ttl : option Z)
| Fire (id : string).

Definition step (e : event) (s : stack) : stack :=
  match e with
  | Tick dt => Stack (now s + Z.of_N dt) (items s) (timers s)
  | Push id t ttl => push id t ttl s
  | Fire id =>
      if due id s then Stack (now s) (remove id (items s)) (disarm id (now s) (timers s))
      else s
  end.

Definition run (evs : list event) (s : stack) : stack :=
  fold_left (fun s e => step e s) evs s.

Definition ids (s : stack) : list string := map e_id (items s).

(** Every push of [evs], run from [s], uses an id that no listed toast and
    no armed timer has (the uuids are fresh). *)
Fixpoint fresh_pushes (evs : list event) (s : stack) : bool :=
  match evs with
  | [] => true
  | e :: evs' =>
      match e with
      | Push id _ _ =>
          negb (existsb (String.eqb id) (ids s)) &&
          negb (existsb (String.eqb id) (map fst (timers s)))
      | _ => true
      end && fresh_pushes evs' (step e s)
  end.

(** The toast [id] is on screen. *)
Definition shown (id : string) (s : stack) : bool := existsb (String.eqb id) (ids s).

(** The listed toasts and the armed timers carry the same ids, in the same
    order and without repetition. *)
Definition paired (s : stack) : Prop :=
  ids s = map fst (timers s) ∧ NoDup (ids s).

End Toasts.

(** ** [useAgentStatus]: the status poll loop (Alice and Faber) *)

Module AgentStatus.
Section Poll.
Variable JSON_parse : string -> Js.completion Json.value.
Variable pollInterval : Z.

(** The hook's state cell [status], the effect's locals [active] and
    [timeout], the polls awaiting their response, the timers of the page
    (id and time due) and the times at which a fetch was started, latest
    first. *)
Record loop := Loop {
  status : Json.value;
  active : bool;
  timeout : option nat;
  in_flight : nat;
  timers : list (nat * Z);
  next_id : nat;
  now : Z;
  started : list Z
}.

Definition setStatus (v : Json.value) : Js.M loop unit :=
  Js.modify (fun s => Loop v (active s) (timeout s) (in_flight s) (timers s)
                           (next_id s) (now s) (started s)).

(** [timeout = setTimeout(poll, pollInterval)] *)
Definition setTimeout_poll : Js.M loop unit :=
  Js.modify (fun s => Loop (status s) (active s) (Some (next_id s)) (in_flight s)
                           (timers s ++ [(next_id s, now s + pollInterval)])
                           (S (next_id s)) (now s) (started s)).

Definition if_active (m : Js.M loop unit) : Js.M loop unit :=
  (let* s := Js.get in if active s then m else Js.ret tt)%js.

(** [res.json()]: the body read and parsed. *)
Definition json (res : response) : Js.completion Json.value :=
  match text res with
  | Js.Normal body => JSON_parse body
  | Js.Throw e => Js.Throw e
  end.

(** [body.status || 'unknown'] *)
Definition status_of (body : Json.value) : Js.completion Json.value :=
  match Json.prop "status" body with
  | Js.Normal (Some v) => Js.Normal (if Json.truthy v then v else Json.JString "unknown")
  | Js.Normal None => Js.Normal (Json.JString "unknown")
  | Js.Throw e => Js.Throw e
  end.

(** [poll] up to its [await fetch(...)]: one more request is on its way. *)
Definition poll_call (s : loop) : loop :=
  Loop (status s) (active s) (timeout s) (S (in_flight s)) (timers s)
       (next_id s) (now s) (now s :: started s).

(** [poll] from the settled fetch on.  The second [await], of
    [res.json()], touches no state, so the two are resumed as one. *)
Definition poll_resume (fetched : Js.completion response) : Js.M loop unit :=
  (Js.try_finally
     (Js.try_catch
        (let* res := Js.await fetched in
         if negb (ok res) then Js.throw (Js.new_Error (statusText res))
         else
           let* body := Js.await (json res) in
           if_active (let* v := Js.await (status_of body) in setStatus v))
        (fun _ => if_active (setStatus (Json.JString "down"))))
     (if_active setTimeout_poll))%js.

(** The effect's cleanup: [active = false; if (timeout) clearTimeout(timeout)]. *)
Definition clearTimeout (id : nat) (l : list (nat * Z)) : list (nat * Z) :=
  filter (fun t => fst t ≠ id) l.

Definition cleanup (s : loop) : loop :=
  Loop (status s) false (timeout s) (in_flight s)
       (match timeout s with
        | Some id => if (id =? 0)%nat then timers s else clearTimeout id (timers s)
        | None => timers s
        end)
       (next_id s) (now s) (started s).

(** The effect body: [poll()] on the fresh locals. *)
Definition start : loop :=
  poll_call (Loop (Json.JString "loading") true None 0 [] 1 0 []).

Inductive event : Type :=
| Tick (dt : N)
| Settle (fetched : Js.completion response)
| Fire (id : nat)
| Cleanup.

Definition due (id : nat) (s : loop) : bool :=
  existsb (fun t => (fst t =? id)%nat && (snd t <=? now s)) (timers s).

Definition step (e : event) (s : loop) : loop :=
  match e with
  | Tick dt =>
      Loop (status s) (active s) (timeout s) (in_flight s) (timers s)
           (next_id s) (now s + Z.of_N dt) (started s)
  | Settle fetched =>
      match in_flight s with
      | O => s
      | S n =>
          fst (poll_resume fetched
                 (Loop (status s) (active s) (timeout s) n (timers s)
                       (next_id s) (now s) (started s)))
      end
  | Fire id =>
      if due id s then
        poll_call (Loop (status s) (active s) (timeout s) (in_flight s)
                        (clearTimeout id (timers s)) (next_id s) (now s) (started s))
      else s
  | Cleanup => cleanup s
  end.

Definition run (evs : list event) (s : loop) : loop :=
  fold_left (fun s e => step e s) evs s.

(** Consecutive entries of a list of times, latest first, lie at least
    [gap] apart. *)
Fixpoint spaced (gap : Z) (l : list Z) : Prop :=
  match l with
  | [] => True
  | t :: l' =>
      match l' with
      | [] => True
      | t' :: _ => t' + gap <= t
      end ∧ spaced gap l'
  end.

(** The loop's invariant: one poll is awaited or one timer is armed, never
    both; the armed timer is the one [timeout] names; nothing is armed
    after the cleanup. *)
Definition poll_inv (s : loop) : Prop :=
  (0 < next_id s)%nat ∧
  (active s = false -> timers s = []) ∧
  ((in_flight s = 1%nat ∧ timers s = []) ∨
   (in_flight s = 0%nat ∧
    (timers s = [] ∨
     ∃ id d, timers s = [(id, d)] ∧ timeout s = Some id ∧ (0 < id < next_id s)%nat ∧
             match started s with t :: _ => t + pollInterval <= d | [] => True end))) ∧
  match started s with t :: _ => t <= now s | [] => True end ∧
  spaced pollInterval (started s).

End Poll.
End AgentStatus.

(** A JSON string literal of a text without quotes and backslashes. *)
Definition quoted (s : string) : string :=
  String (ascii_of_nat 34) (s ++ String (ascii_of_nat 34) EmptyString).

(** A JSON error body as the controllers send it. *)
Definition sample_error_body : string :=
  "{" ++ quoted "error" ++ ": " ++ quoted "no such connection" ++ "}".

(** ** Overlapping calls of [request] on one hook

    A page issues calls of [request] that overlap (several loads at once, a
    load during a store): each call is cut at its [await fetch(...)], and
    the calls of one hook share [pending] and [lastError].  The later
    [await] of [response.text()] lies between no two writes of the call, so
    the fetch and the body are resumed as one. *)

Module ApiCalls.
Section Calls.
Variable JSON_parse : string -> Js.completion Json.value.
Variable ToString : Json.value -> string.

(** The two versions of the hook. *)
Inductive version : Type := Plain | JsonErrors.

(** [request] up to its [await fetch(...)]. *)
Definition request_call : Js.M hook unit :=
  (setPending true >> setLastError None)%js.

(** [request] from the settled fetch on. *)
Definition request_resume (v : version) (fetched : Js.completion response)
  : Js.M hook Json.value :=
  (Js.try_finally
     (Js.try_catch
        (let* response := Js.await fetched in
         if negb (ok response) then
           match v with
           | Plain =>
               let* message := Js.await (text response) in
               Js.throw (Js.new_Error (Js.or_else message (statusText response)))
           | JsonErrors =>
               let* msg := ApiJsonErrors.errorMessage JSON_parse response in
               Js.throw (Js.new_Error (ApiJsonErrors.message_of ToString msg))
           end
         else if status response =? 204 then Js.ret Json.JNull
         else
           let* body := Js.await (text response) in
           if Js.truthy body then Js.await (JSON_parse body) else Js.ret Json.JNull)
        (fun error => setLastError (Some error) >> Js.throw error))
     (setPending false))%js.

(** The whole call when nothing runs in between. *)
Definition request (v : version) (fetched : Js.completion response) : Js.M hook Json.value :=
  match v with
  | Plain => Api.request JSON_parse fetched
  | JsonErrors => ApiJsonErrors.request JSON_parse ToString fetched
  end.

(** How the call ends: what its promise settles with. *)
Definition outcome (v : version) (fetched : Js.completion response)
  : Js.completion Json.value :=
  snd (request_resume v fetched idle).

(** One hook with the number of calls that await their fetch. *)
Record sys := Sys {
  hk : hook;
  awaited : nat
}.

Definition start : sys := Sys idle 0.

Inductive event : Type :=
| Begin                                    (* a call of [request] *)
| End (fetched : Js.completion response).  (* the fetch of an awaiting call settles *)

Definition step (v : version) (e : event) (s : sys) : sys :=
  match e with
  | Begin => Sys (fst (request_call (hk s))) (S (awaited s))
  | End fetched =>
      match awaited s with
      | O => s
      | S n => Sys (fst (request_resume v fetched (hk s))) n
      end
  end.

Definition run (v : version) (evs : list event) (s : sys) : sys :=
  fold_left (fun s e => step v e s) evs s.

(** The event is the settling of a call that resolves. *)
Definition resolves (v : version) (e : event) : bool :=
  match e with
  | End fetched =>
      match outcome v fetched with
      | Js.Normal _ => true
      | Js.Throw _ => false
      end
  | Begin => false
  end.

End Calls.
End ApiCalls.

(** ** Faber's Credentials Issued tables: rows, View and Revoke *)

Module IssuedTable.

(** [ex.k || dflt]; reading a property of [null] throws. *)
Definition prop_or (k : string) (dflt : Json.value) (ex : Json.value)
  : Js.completion Json.value :=
  match Json.prop k ex with
  | Js.Normal (Some v) => Js.Normal (if Json.truthy v then v else dflt)
  | Js.Normal None => Js.Normal dflt
  | Js.Throw e => Js.Throw e
  end.

(** [v === 'text'] *)
Definition is_text (v : Json.value) (text : string) : bool :=
  match v with
  | Json.JString s => String.eqb s text
  | _ => false
  end.

(** [s === 'done' || s === 'credential-issued' || s === 'credential_issued'] *)
Definition issued_state (s : Json.value) : bool :=
  is_text s "done" || is_text s "credential-issued" || is_text s "credential_issued".

(** [list.filter(callback)] with a callback that may throw. *)
Fixpoint filter_by (p : Json.value -> Js.completion bool) (l : list Json.value)
  : Js.completion (list Json.value) :=
  match l with
  | [] => Js.Normal []
  | x :: l' =>
      match p x with
      | Js.Normal b =>
          match filter_by p l' with
          | Js.Normal ys => Js.Normal (if b then x :: ys else ys)
          | Js.Throw e => Js.Throw e
          end
      | Js.Throw e => Js.Throw e
      end
  end.

Definition inProgress (exchanges : list Json.value) : Js.completion (list Json.value) :=
  filter_by (fun ex =>
               match prop_or "state" (Json.JString EmptyString) ex with
               | Js.Normal s => Js.Normal (negb (issued_state s))
               | Js.Throw e => Js.Throw e
               end) exchanges.

Definition completed (exchanges : list Json.value) : Js.completion (list Json.value) :=
  filter_by (fun ex =>
               match prop_or "state" (Json.JString EmptyString) ex with
               | Js.Normal s => Js.Normal (issued_state s)
               | Js.Throw e => Js.Throw e
               end) exchanges.

(** Truthiness of [ex.k] for a row [ex] (a record of the held list). *)
Definition has (k : string) (ex : Json.value) : bool :=
  match IssuedCard.get k ex with
  | Some v => Json.truthy v
  | None => false
  end.

(** [renderRow]: [supportsRevocation], [isRevoked], the record the View
    button shows, and whether the Revoke button and the Revoked badge are
    rendered. *)
Definition supportsRevocation (ex : Json.value) : bool := has "rev_reg_id" ex.

Definition row_state (ex : Json.value) : Json.value :=
  match IssuedCard.get "state" ex with
  | Some v => if Json.truthy v then v else Json.JString "unknown"
  | None => Json.JString "unknown"
  end.

Definition isRevoked (ex : Json.value) : bool :=
  has "rev_reg_id" ex && has "cred_rev_id" ex && is_text (row_state ex) "done".

Definition detailData (ex : Json.value) : Json.value :=
  match IssuedCard.get "_raw" ex with
  | Some v => if Json.truthy v then v else ex
  | None => ex
  end.

Definition revoke_button (showActions : bool) (ex : Json.value) : bool :=
  showActions && supportsRevocation ex && negb (isRevoked ex).

Definition revoked_badge (showActions : bool) (ex : Json.value) : bool :=
  showActions && isRevoked ex.

(** [revokeModal]'s content. *)
Record modal := Modal {
  m_cred_ex_id : option Json.value;
  m_rev_reg_id : option Json.value;
  m_cred_rev_id : option Json.value
}.

Record panel := Panel {
  revokeModal : option modal;
  toasts : list toast
}.

(** [a || b] on two properties that may be [undefined]. *)
Definition either (a b : option Json.value) : option Json.value :=
  match a with
  | Some v => if Json.truthy v then Some v else b
  | None => b
  end.

Definition handleRevoke (ex : Json.value) : Js.M panel unit :=
  (let credExId := either (IssuedCard.get "cred_ex_id" ex)
                          (IssuedCard.get "credential_exchange_id" ex) in
   if negb (has "rev_reg_id" ex) then
     Js.modify (fun p => Panel (revokeModal p)
       (toasts p ++ [Toast "Cannot revoke"
                           "This credential definition does not support revocation."
                           "error"]))
   else
     Js.modify (fun p => Panel
       (Some (Modal credExId (IssuedCard.get "rev_reg_id" ex) (IssuedCard.get "cred_rev_id" ex)))
       (toasts p)))%js.

(** A nested record as ACA-Py lists it. *)
Definition nested_record : Json.value :=
  Json.JObject [("cred_ex_record",
    Json.JObject [("cred_ex_id", Json.JString "cx-1");
                  ("state", Json.JString "done");
                  ("by_format",
                   Json.JObject [("cred_issue",
                     Json.JObject [("indy",
                       Json.JObject [("rev_reg_id", Json.JString "reg-1");
                                     ("cred_rev_id", Json.JString "1")])])])])].

End IssuedTable.

(** ** Faber's Credentials Issued card: loads and revocations together

    [load] is called by the route effect and the Refresh button, which run
    the callback of the current render, and by [confirmRevoke] once its
    revoke request has succeeded.  [confirmRevoke] is awaiting that request
    then, so the [load] it calls is the callback of the render in which
    Confirm was pressed, with the [loading] and [fetchedOnce] of that
    render. *)

Module IssuedPage.

(** The mounted card: its load state, the revoke dialog and the toasts, the
    [load] calls that await their response and the [confirmRevoke] calls
    that await theirs, each with the values its render's [load] captured. *)
Record page := Page {
  crd : IssuedCard.card;
  pnl : IssuedTable.panel;
  loads : list IssuedCard.closure;
  revokes : list IssuedCard.closure
}.

Definition start : page := Page IssuedCard.init (IssuedTable.Panel None []) [] [].

Inductive event : Type :=
| Call                                                 (* [load()] of the current render *)
| Settle (k : nat) (resp : Js.completion Json.value)   (* the [k]-th awaiting [load] *)
| ClickRevoke (k : nat)                                (* Revoke in the [k]-th Completed row *)
| CloseModal                                           (* Cancel, or the dialog's [onClose] *)
| Confirm                                              (* the dialog's Confirm button *)
| Revoked (k : nat) (resp : Js.completion Json.value). (* the [k]-th revoke request *)

Definition is_settle (e : event) : bool :=
  match e with
  | Settle _ _ => true
  | _ => false
  end.

(** [confirmRevoke] from its [await] on; [env] is what the [load] of its
    render captured. *)
Definition confirmRevoke_resume (env : IssuedCard.closure) (resp : Js.completion Json.value)
  (s : page) : page :=
  match resp with
  | Js.Normal _ =>
      let panel :=
        IssuedTable.Panel None
          (IssuedTable.toasts (pnl s) ++
           [Toast "Credential revoked" "Revocation has been published." "success"]) in
      match IssuedCard.load_call env (crd s) with
      | (c, Js.Normal true) => Page c panel (loads s ++ [env]) (revokes s)
      | (c, _) => Page c panel (loads s) (revokes s)
      end
  | Js.Throw error =>
      Page (crd s)
           (IssuedTable.Panel (IssuedTable.revokeModal (pnl s))
              (IssuedTable.toasts (pnl s) ++
               [Toast "Failed to revoke" (Js.message error) "error"]))
           (loads s) (revokes s)
  end.

Definition step (e : event) (s : page) : page :=
  match e with
  | Call =>
      let s' := IssuedCard.step IssuedCard.Call (IssuedCard.Sys (crd s) (loads s)) in
      Page (IssuedCard.cd s') (pnl s) (IssuedCard.inflight s') (revokes s)
  | Settle k resp =>
      let s' := IssuedCard.step (IssuedCard.Settle k resp)
                  (IssuedCard.Sys (crd s) (loads s)) in
      Page (IssuedCard.cd s') (pnl s) (IssuedCard.inflight s') (revokes s)
  | ClickRevoke k =>
      match IssuedTable.completed (IssuedCard.exchanges (crd s)) with
      | Js.Normal rows =>
          match rows !! k with
          | Some ex =>
              if IssuedTable.revoke_button true ex
              then Page (crd s) (fst (IssuedTable.handleRevoke ex (pnl s))) (loads s) (revokes s)
              else s
          | None => s
          end
      | Js.Throw _ => s
      end
  | CloseModal =>
      Page (crd s) (IssuedTable.Panel None (IssuedTable.toasts (pnl s))) (loads s) (revokes s)
  | Confirm =>
      match IssuedTable.revokeModal (pnl s) with
      | Some _ => Page (crd s) (pnl s) (loads s) (revokes s ++ [IssuedCard.render (crd s)])
      | None => s
      end
  | Revoked k resp =>
      match revokes s !! k with
      | Some env =>
          confirmRevoke_resume env resp (Page (crd s) (pnl s) (loads s) (delete k (revokes s)))
      | None => s
      end
  end.

Definition run (evs : list event) (s : page) : page :=
  fold_left (fun s e => step e s) evs s.

(** Until the first fetch has succeeded the list is empty, no dialog is
    open, no revocation is under way and at most one [load] is awaited;
    from then on every [load] that is awaited or that a [confirmRevoke]
    will call has captured [fetchedOnce] set. *)
Definition page_inv (s : page) : Prop :=
  if IssuedCard.fetchedOnce (crd s) then
    Forall (fun env => IssuedCard.c_fetchedOnce env = true) (loads s) ∧
    Forall (fun env => IssuedCard.c_fetchedOnce env = true) (revokes s)
  else
    IssuedCard.exchanges (crd s) = [] ∧ IssuedTable.revokeModal (pnl s) = None ∧
    revokes s = [] ∧
    ((loads s = [] ∧ IssuedCard.loading (crd s) = false) ∨
     (∃ env, loads s = [env] ∧ IssuedCard.loading (crd s) = true)).

(** One [load] is awaited, called when nothing else was under way: it has
    cleared the error, [loading] is set and every pending [confirmRevoke]
    has captured [loading] set. *)
Definition alone_inv (s : page) : Prop :=
  (∃ env, loads s = [env]) ∧
  IssuedCard.loading (crd s) = true ∧ IssuedCard.loadError (crd s) = None ∧
  Forall (fun env => IssuedCard.c_loading env = true) (revokes s).

(** A revocable record in the state [credential-issued]. *)
Definition revocable_record : Json.value :=
  Json.JObject [("cred_ex_id", Json.JString "cx-1");
                ("state", Json.JString "credential-issued");
                ("rev_reg_id", Json.JString "reg-1")].

End IssuedPage.

(** ** Acme's [sendProofRequest]: the request built from the form *)

Module ProofRequest.
Section Send.
(** The numbers of the platform and its [parseInt]. *)
Variable number : Type.
Variable parseInt : string -> number.

(** A row of [requestedAttributes] and a row of [requestedPredicates]. *)
Record attr := Attr { a_name : string; include : bool }.
Record pred := Pred { p_name : string; p_type : string; p_value : string }.

Record form := Form {
  connectionId : string;
  credDefId : string;
  proofName : string;
  requestedAttributes : list attr;
  requestedPredicates : list pred
}.

(** The values of [requested_attributes] and [requested_predicates];
    [restriction] is the [cred_def_id] of the one restriction. *)
Record attr_spec := AttrSpec { as_name : string; as_restriction : string }.
Record pred_spec := PredSpec {
  ps_name : string;
  ps_type : string;
  ps_value : number;
  ps_restriction : string
}.

Record payload := Payload {
  connection_id : string;
  name : string;
  version : string;
  requested_attributes : gmap string attr_spec;
  requested_predicates : gmap string pred_spec
}.

(** The template literal [`${prefix}_${index}_${name}`]. *)
Definition key (prefix : string) (index : nat) (name : string) : string :=
  prefix ++ "_" ++ BackgroundSend.show (Z.of_nat index) ++ "_" ++ name.

(** The text is made of decimal digits only. *)
Fixpoint numeral (s : string) : bool :=
  match s with
  | EmptyString => true
  | String c s' => Json.is_digit c && numeral s'
  end.

(** [rows.forEach((row, index) => { if (...) object[key] = value })] on an
    object: an assignment to a key the object has replaces its value. *)
Fixpoint assign_each {A B} (key_of : nat -> A -> string) (value_of : A -> option B)
  (index : nat) (rows : list A) (object : gmap string B) : gmap string B :=
  match rows with
  | [] => object
  | row :: rows' =>
      assign_each key_of value_of (S index) rows'
        (match value_of row with
         | Some v => <[key_of index row := v]> object
         | None => object
         end)
  end.

Definition selectedAttrs (fm : form) : list attr :=
  List.filter include (requestedAttributes fm).

(** [pred.name && pred.p_type && pred.p_value !== undefined && pred.p_value !== ''] *)
Definition filled (p : pred) : bool :=
  Js.truthy (p_name p) && Js.truthy (p_type p) && negb (String.eqb (p_value p) EmptyString).

Definition build (fm : form) : payload :=
  Payload (connectionId fm)
          (Js.or_else (proofName fm) "Proof Request")
          "1.0"
          (assign_each (fun i a => key "attr" i (a_name a))
                       (fun a => Some (AttrSpec (a_name a) (credDefId fm)))
                       0 (selectedAttrs fm) ∅)
          (assign_each (fun i p => key "pred" i (p_name p))
                       (fun p => if filled p
                                 then Some (PredSpec (p_name p) (p_type p)
                                                     (parseInt (p_value p)) (credDefId fm))
                                 else None)
                       0 (requestedPredicates fm) ∅).

Record page := Page {
  sending : bool;
  requestModal : bool;
  toasts : list toast;
  requests : list payload;
  reloads : nat
}.

Definition setSending (b : bool) : Js.M page unit :=
  Js.modify (fun s => Page b (requestModal s) (toasts s) (requests s) (reloads s)).
Definition setRequestModal (b : bool) : Js.M page unit :=
  Js.modify (fun s => Page (sending s) b (toasts s) (requests s) (reloads s)).
Definition pushToast (t : toast) : Js.M page unit :=
  Js.modify (fun s => Page (sending s) (requestModal s) (toasts s ++ [t]) (requests s) (reloads s)).
Definition post (p : payload) : Js.M page unit :=
  Js.modify (fun s => Page (sending s) (requestModal s) (toasts s) (requests s ++ [p]) (reloads s)).
Definition load : Js.M page unit :=
  Js.modify (fun s => Page (sending s) (requestModal s) (toasts s) (requests s) (S (reloads s))).

(** [sendProofRequest] up to its [await]; the result tells whether the
    request went out. *)
Definition sendProofRequest_call (fm : form) : Js.M page bool :=
  (let* s := Js.get in
   if sending s then Js.ret false
   else if negb (Js.truthy (connectionId fm)) || negb (Js.truthy (credDefId fm)) then
     pushToast (Toast "Please select connection and Credential Definition" EmptyString "error") >>
     Js.ret false
   else if (List.length (selectedAttrs fm) =? 0)%nat
           && (List.length (requestedPredicates fm) =? 0)%nat then
     pushToast (Toast "Please select at least one attribute or predicate" EmptyString "error") >>
     Js.ret false
   else
     setSending true >>
     post (build fm) >>
     Js.ret true)%js.

(** [sendProofRequest] from its [await] on. *)
Definition sendProofRequest_resume (resp : Js.completion Json.value) : Js.M page unit :=
  (Js.try_finally
     (Js.try_catch
        (let* _ := Js.await resp in
         setRequestModal false >>
         pushToast (Toast "Proof Request sent" "Waiting for Holder to respond..." "success") >>
         load)
        (fun error =>
           pushToast (Toast "Failed to send Proof Request" (Js.message error) "error")))
     (setSending false))%js.

End Send.
End ProofRequest.

(** ** Ledger identifiers: [split(':')] and the parts read off it *)

Module Ids.

(** [s.split(sep)] for a one-character separator. *)
Fixpoint split (sep : ascii) (s : string) : list string :=
  match s with
  | EmptyString => [EmptyString]
  | String c s' =>
      if Ascii.eqb c sep then EmptyString :: split sep s'
      else match split sep s' with
           | part :: parts => String c part :: parts
           | [] => [String c EmptyString]
           end
  end.

(** The number of separators in a text. *)
Fixpoint count (sep : ascii) (s : string) : nat :=
  match s with
  | EmptyString => 0
  | String c s' => (if Ascii.eqb c sep then 1 else 0) + count sep s'
  end.

(** [parts[n]] of an array known to be long enough. *)
Definition part (n : nat) (parts : list string) : string := nth n parts EmptyString.

(** Faber's [schemaMeta]. *)
Record schemaMeta := SchemaMeta {
  schemaId : string;
  schemaIssuerDid : string;
  schemaVersion : string;
  schemaName : string;
  issuerDid : string
}.

(** [openIssueModal], from [schemaId.split(':')] to the value given to
    [setSchemaMeta]. *)
Definition schema_meta (schema_id credDefId : string) : Js.completion schemaMeta :=
  let schemaParts := split ":" schema_id in
  if (List.length schemaParts <? 4)%nat then
    Js.Throw (Js.new_Error ("Invalid schema_id format: " ++ schema_id))
  else
    let credDefParts := split ":" credDefId in
    if (List.length credDefParts <? 2)%nat then
      Js.Throw (Js.new_Error ("Invalid cred_def_id format: " ++ credDefId))
    else
      Js.Normal (SchemaMeta schema_id (part 0 schemaParts) (part 3 schemaParts)
                            (part 2 schemaParts) (part 0 credDefParts)).

Definition not_a_function : Js.error :=
  Js.Error "TypeError" "split is not a function".

(** [v.split(':')[0]] for a truthy [v]. *)
Definition first_part (v : Json.value) : Js.completion Json.value :=
  match v with
  | Json.JString s => Js.Normal (Json.JString (part 0 (split ":" s)))
  | _ => Js.Throw not_a_function
  end.

Definition truthy_member (k : string) (c : Json.value) : option Json.value :=
  match IssuedCard.get k c with
  | Some v => if Json.truthy v then Some v else None
  | None => None
  end.

(** The Issuer cell of a row of Alice's stored credentials. *)
Definition issuer (c : Json.value) : Js.completion Json.value :=
  match truthy_member "cred_def_id" c with
  | Some v => first_part v
  | None =>
      match truthy_member "schema_id" c with
      | Some v => first_part v
      | None =>
          match truthy_member "schema_issuer_did" c with
          | Some v => Js.Normal v
          | None => Js.Normal (Json.JString "unknown")
          end
      end
  end.

End Ids.

(** ** [Layout]: the theme switch *)

Module Theme.

(** The [data-theme] attribute of [document.body] and the [theme] item of
    [localStorage]; [None] is [null]. *)
Record browser := Browser {
  data_theme : option string;
  stored : option string
}.

(** [value || 'light'] *)
Definition or_light (value : option string) : string :=
  match value with
  | Some s => Js.or_else s "light"
  | None => "light"
  end.

(** The mount effect. *)
Definition mount (b : browser) : browser :=
  Browser (Some (or_light (stored b))) (stored b).

Definition toggleTheme (b : browser) : browser :=
  let current := or_light (data_theme b) in
  let next := if String.eqb current "light" then "dark" else "light" in
  Browser (Some next) (Some next).

(** [n] clicks on the switch. *)
Fixpoint clicks (n : nat) (b : browser) : browser :=
  match n with
  | O => b
  | S n' => toggleTheme (clicks n' b)
  end.

End Theme.

(** ** Acme's [loadSchemaAttributes]: the 500 ms debounce *)

Module Debounce.

(** A timer armed by [setTimeout]: its id, the time it is due and the
    [credDefId] its callback closes over. *)
Record timer := Timer {
  t_id : nat;
  t_due : Z;
  t_credDefId : string
}.

(** [loadSchemaAttributesTimerRef.current], the page's timers, the state
    [loadingSchema] and the credential definitions whose details were
    requested, in order. *)
Record page := Page {
  now : Z;
  ref : option nat;
  timers : list timer;
  next_id : nat;
  loadingSchema : bool;
  loads : list string
}.

Definition init : page := Page 0 None [] 1 false [].

Definition clearTimeout (id : nat) (l : list timer) : list timer :=
  filter (fun t => t_id t ≠ id) l.

(** [loadSchemaAttributes(credDefId)] *)
Definition loadSchemaAttributes (credDefId : string) (p : page) : page :=
  if negb (Js.truthy credDefId) || loadingSchema p then p
  else
    let cleared :=
      match ref p with
      | Some id => if (id =? 0)%nat then timers p else clearTimeout id (timers p)
      | None => timers p
      end in
    Page (now p) (Some (next_id p))
         (cleared ++ [Timer (next_id p) (now p + 500) credDefId])
         (S (next_id p)) (loadingSchema p) (loads p).

(** The timer callback up to its first [await]: [setLoadingSchema(true)]
    and the request for the credential definition. *)
Definition callback (credDefId : string) (p : page) : page :=
  Page (now p) (ref p) (timers p) (next_id p) true (loads p ++ [credDefId]).

(** The platform runs the timers that are due, in the order they were
    armed; a timer runs once. *)
Fixpoint run_due (l : list timer) (p : page) : page :=
  match l with
  | [] => p
  | t :: l' =>
      if t_due t <=? now p then
        run_due l' (callback (t_credDefId t)
                      (Page (now p) (ref p) (clearTimeout (t_id t) (timers p))
                            (next_id p) (loadingSchema p) (loads p)))
      else run_due l' p
  end.

Inductive event : Type :=
| Input (credDefId : string)     (* the select or the text field changes *)
| Tick (dt : N)                   (* time passes *)
| Loaded.                         (* the callback reaches its [finally] *)

Definition step (e : event) (p : page) : page :=
  match e with
  | Input credDefId => loadSchemaAttributes credDefId p
  | Tick dt =>
      let p' := Page (now p + Z.of_N dt) (ref p) (timers p) (next_id p)
                     (loadingSchema p) (loads p) in
      run_due (timers p') p'
  | Loaded =>
      Page (now p) (ref p) (timers p) (next_id p) false (loads p)
  end.

Definition run (evs : list event) (p : page) : page :=
  fold_left (fun p e => step e p) evs p.

(** A burst of inputs: each value, then the pause before the next one. *)
Definition burst (inputs : list (string * N)) : list event :=
  flat_map (fun i => [Input (fst i); Tick (snd i)]) inputs.

(** Every value of the burst is non-empty and every pause shorter than the
    debounce time. *)
Definition rapid (inputs : list (string * N)) : bool :=
  forallb (fun i => Js.truthy (fst i) && (Z.of_N (snd i) <? 500)) inputs.

(** Nothing has been requested, and at most the timer [ref] names is
    armed, for later than now. *)
Definition quiet (p : page) : Prop :=
  loads p = [] ∧ loadingSchema p = false ∧ (0 < next_id p)%nat ∧
  (timers p = [] ∨
   ∃ t, timers p = [t] ∧ ref p = Some (t_id t) ∧ (0 < t_id t)%nat ∧ now p < t_due t).

End Debounce.

(** ** Acme's manual [verifyPresentation] beside the scanner *)

Module ManualVerify.

(** [verifying[presentationExchangeId]] *)
Definition flagged (i : string) (p : AutoVerify.page) : bool :=
  match AutoVerify.verifying p !! i with
  | Some b => b
  | None => false
  end.

(** [verifyPresentation] up to its [await]; the result tells whether a
    request went out. *)
Definition verifyPresentation_call (i : string) : Js.M AutoVerify.page bool :=
  (let* p := Js.get in
   if flagged i p then Js.ret false
   else
     AutoVerify.setVerifying (fun prev => <[i := true]> prev) >>
     Js.ret true)%js.

(** [verifyPresentation] from its [await] on. *)
Definition verifyPresentation_resume (i : string) (resp : Js.completion Json.value)
  : Js.M AutoVerify.page unit :=
  (Js.try_finally
     (Js.try_catch
        (let* _ := Js.await resp in
         AutoVerify.pushToast
           (Toast "Verification request sent" "Verifying Presentation..." "success") >>
         AutoVerify.schedule_reload)
        (fun error =>
           AutoVerify.pushToast (Toast "Verification failed" (Js.message error) "error")))
     (AutoVerify.setVerifying (fun prev => delete i prev)))%js.

(** The mounted [ProofsPage] with the scanner's suspended scans and the
    ids of the manual verifications that await their response. *)
Record sys := Sys {
  auto : AutoVerify.sys;
  manual : list string
}.

Definition start : sys := Sys AutoVerify.start [].

Inductive event : Type :=
| Auto (e : AutoVerify.event)                        (* a snapshot, or a scan's request settles *)
| Click (i : string)                                  (* the Verify button of exchange [i] *)
| Done (k : nat) (resp : Js.completion Json.value).   (* the [k]-th manual request settles *)

(** A click runs the handler of the current render. *)
Definition step (e : event) (s : sys) : sys :=
  match e with
  | Auto e' => Sys (AutoVerify.step e' (auto s)) (manual s)
  | Click i =>
      match verifyPresentation_call i (AutoVerify.pg (auto s)) with
      | (p, Js.Normal true) =>
          Sys (AutoVerify.Sys p (AutoVerify.scans (auto s))) (manual s ++ [i])
      | (p, _) => Sys (AutoVerify.Sys p (AutoVerify.scans (auto s))) (manual s)
      end
  | Done k resp =>
      match manual s !! k with
      | Some i =>
          Sys (AutoVerify.Sys (fst (verifyPresentation_resume i resp (AutoVerify.pg (auto s))))
                              (AutoVerify.scans (auto s)))
              (delete k (manual s))
      | None => s
      end
  end.

Definition run (evs : list event) (s : sys) : sys :=
  fold_left (fun s e => step e s) evs s.

(** The event is a click on the Verify button of [i]. *)
Definition clicks_on (i : string) (e : event) : bool :=
  match e with
  | Click j => String.eqb j i
  | _ => false
  end.

(** No manual verification of [i] is awaited, and a scan that awaits [i]
    has it flagged in [verifying]. *)
Definition flagged_inv (i : string) (s : sys) : Prop :=
  (i ∉ manual s) ∧
  ∀ a sa, AutoVerify.scans (auto s) !! a = Some sa -> AutoVerify.awaiting sa = i ->
          AutoVerify.verifying (AutoVerify.pg (auto s)) !! i = Some true.

End ManualVerify.

(* ===================================================================== *)
(** * Properties *)
(* ===================================================================== *)

(** ** Strings and truthiness *)

Lemma truthy_nonempty (s : string) : Js.truthy s = true <-> s <> EmptyString.
Proof.
  unfold Js.truthy. destruct (String.eqb_spec s EmptyString); simpl; split; congruence.
Qed.

Lemma or_else_truthy (a b : string) :
  Js.truthy b = true -> Js.truthy (Js.or_else a b) = true.
Proof.
  intros Hb. unfold Js.or_else. destruct (Js.truthy a) eqn:Ha; [exact Ha | exact Hb].
Qed.

(** ** [useApi.request] *)

Ltac run_js :=
  cbv [Js.bind Js.ret Js.throw Js.modify Js.get Js.await Js.try_catch Js.try_finally
       setPending setLastError fst snd pending lastError].

Lemma api_request_law parse fetched h :
  request_law parse fetched (Api.request parse fetched h).
Proof.
  unfold request_law, Api.request. destruct fetched as [r | e]; run_js.
  - destruct r as [o st stx tx]; simpl.
    destruct o; simpl.
    + destruct (st =? 204); [now split |].
      destruct tx as [body | e]; run_js; [| now split].
      destruct (Js.truthy body); [| now split].
      destruct (parse body); now split.
    + destruct tx as [msg | e]; run_js; split; eauto.
  - now split.
Qed.

Lemma api_json_errors_request_law parse to_string fetched h :
  request_law parse fetched (ApiJsonErrors.request parse to_string fetched h).
Proof.
  unfold request_law, ApiJsonErrors.request. destruct fetched as [r | e]; run_js.
  - destruct r as [o st stx tx]; simpl.
    destruct o; simpl.
    + destruct (st =? 204); [now split |].
      destruct tx as [body | e]; run_js; [| now split].
      destruct (Js.truthy body); [| now split].
      destruct (parse body); now split.
    + unfold ApiJsonErrors.errorMessage. run_js. simpl.
      destruct tx as [data | e]; [| split; eauto].
      destruct (Js.truthy data); [| split; eauto].
      destruct (parse data) as [parsed | e]; [| split; eauto].
      destruct (Json.prop "error" parsed); [| split; eauto].
      destruct (Json.prop "message" parsed); split; eauto.
  - now split.
Qed.

(** C10, as amended.  Every call of [useApi.request] (both versions of the
    hook) settles with [pending] reset to [false].  It resolves to [null]
    when the response is OK with status 204 or an empty body; for any other
    OK response it ends as [JSON.parse] of the body does: it resolves to the
    parsed value (which is [null] for the text [null]) and rejects with the
    parse error, recorded in [lastError], when the body is not JSON.  It
    rejects with an error recorded in [lastError] for every non-OK response,
    and with the failure itself when [fetch] or reading the body fails. *)
Theorem request_settles_by_response
  (parse : string -> Js.completion Json.value) (to_string : Json.value -> string)
  (fetched : Js.completion response) (h : hook) :
  request_law parse fetched (Api.request parse fetched h) ∧
  request_law parse fetched (ApiJsonErrors.request parse to_string fetched h).
Proof.
  split; [apply api_request_law | apply api_json_errors_request_law].
Qed.

(** C10 as stated fails: an OK response with status 200 whose body is not
    JSON makes [request] reject (with the parse error in [lastError])
    instead of resolving to a parsed body, and an OK response whose body is
    the text [null] resolves to [null] though the status is not 204 and the
    body is not empty. *)
Lemma request_ok_response_rejects :
  Api.request Json.parse (ok_response "<html>") idle
    = (Hook false (Some Json.SyntaxError), Js.Throw Json.SyntaxError) ∧
  Api.request Json.parse (ok_response "null") idle
    = (Hook false None, Js.Normal Json.JNull) ∧
  Js.truthy "null" = true.
Proof. vm_compute. auto. Qed.

(** ** State-tag spellings *)

Lemma canon_char_sep (c : ascii) :
  Ascii.eqb (canon_char c) "_" = Ascii.eqb c "-" || Ascii.eqb c "_".
Proof.
  unfold canon_char. destruct (Ascii.eqb c "-") eqn:E; [reflexivity | simpl; reflexivity].
Qed.

Lemma canon_char_other (c d : ascii) :
  Ascii.eqb d "-" = false -> Ascii.eqb d "_" = false ->
  Ascii.eqb (canon_char c) d = Ascii.eqb c d.
Proof.
  intros Hd1 Hd2. unfold canon_char. destruct (Ascii.eqb_spec c "-") as [-> | Hc].
  - destruct (Ascii.eqb_spec "_" d) as [<- | _]; [discriminate |].
    rewrite Ascii.eqb_sym. rewrite Hd1. reflexivity.
  - reflexivity.
Qed.

(** A literal without separators is matched by a tag exactly when it is
    matched by its canonical spelling. *)
Lemma canon_eqb_nosep (q s : string) :
  nosep q = true -> String.eqb (canon s) q = String.eqb s q.
Proof.
  revert s. induction q as [| d q IH]; intros [| c s] Hq; simpl; try reflexivity.
  simpl in Hq. apply andb_prop in Hq as [Hd Hq]. apply andb_prop in Hd as [Hd1 Hd2].
  apply negb_true_iff in Hd1, Hd2.
  rewrite canon_char_other by assumption. rewrite IH by assumption. reflexivity.
Qed.

(** A literal [p_q] is the canonical spelling of exactly [p-q] and [p_q]. *)
Lemma canon_eqb_one_sep (p q s : string) :
  nosep p = true -> nosep q = true ->
  String.eqb (canon s) (p ++ String "_" q)
  = String.eqb s (p ++ String "-" q) || String.eqb s (p ++ String "_" q).
Proof.
  revert s. induction p as [| d p IH]; intros s Hp Hq.
  - destruct s as [| c s]; simpl; [reflexivity |].
    rewrite canon_char_sep, canon_eqb_nosep by assumption.
    destruct (Ascii.eqb c "-"), (Ascii.eqb c "_"), (String.eqb s q); reflexivity.
  - simpl in Hp. apply andb_prop in Hp as [Hd Hp]. apply andb_prop in Hd as [Hd1 Hd2].
    apply negb_true_iff in Hd1, Hd2.
    destruct s as [| c s]; simpl; [reflexivity |].
    rewrite canon_char_other by assumption. rewrite IH by assumption.
    destruct (Ascii.eqb c d); reflexivity.
Qed.

(** No canonical spelling holds a hyphen. *)
Lemma canon_eqb_hyphen (p q s : string) :
  String.eqb (canon s) (p ++ String "-" q) = false.
Proof.
  revert s. induction p as [| d p IH]; intros [| c s]; simpl; try reflexivity.
  - unfold canon_char. destruct (Ascii.eqb c "-") eqn:E; simpl; [reflexivity |].
    rewrite E. reflexivity.
  - rewrite IH. apply andb_false_r.
Qed.

Lemma canon_idem (s : string) : canon (canon s) = canon s.
Proof.
  induction s as [| c s IH]; simpl; [reflexivity |]. rewrite IH. f_equal.
  unfold canon_char. destruct (Ascii.eqb c "-") eqn:E; [reflexivity | now rewrite E].
Qed.

(** Alice's credential row offers the same actions for a tag and for its
    canonical spelling. *)
Lemma alice_credential_actions_canon (s : string) :
  Alice.credential_actions (canon s) = Alice.credential_actions s.
Proof.
  unfold Alice.credential_actions.
  pose proof (canon_eqb_one_sep "offer" "received" s eq_refl eq_refl) as H1.
  pose proof (canon_eqb_one_sep "credential" "received" s eq_refl eq_refl) as H2.
  pose proof (canon_eqb_hyphen "offer" "received" s) as H3.
  pose proof (canon_eqb_hyphen "credential" "received" s) as H4.
  pose proof (canon_eqb_nosep "done" s eq_refl) as H5.
  cbv [append] in H1, H2, H3, H4. rewrite H1, H2, H3, H4, H5. reflexivity.
Qed.

(** So do the rows of Acme's proofs table. *)
Lemma acme_proof_actions_canon (s : string) :
  Acme.proof_actions (canon s) = Acme.proof_actions s.
Proof.
  unfold Acme.proof_actions.
  pose proof (canon_eqb_one_sep "presentation" "received" s eq_refl eq_refl) as H1.
  pose proof (canon_eqb_hyphen "presentation" "received" s) as H3.
  cbv [append] in H1, H3. rewrite H1, H3. simpl.
  destruct (String.eqb s "presentation-received"), (String.eqb s "presentation_received");
    reflexivity.
Qed.

(** The two tables that list both spellings treat synonyms alike. *)
Lemma synonyms_same_actions (s1 s2 : string) :
  synonyms s1 s2 ->
  Alice.credential_actions s1 = Alice.credential_actions s2 ∧
  Acme.proof_actions s1 = Acme.proof_actions s2.
Proof.
  unfold synonyms. intros H. split.
  - rewrite <- (alice_credential_actions_canon s1), <- (alice_credential_actions_canon s2).
    now rewrite H.
  - rewrite <- (acme_proof_actions_canon s1), <- (acme_proof_actions_canon s2).
    now rewrite H.
Qed.

(** C3 fails on Acme's credential table and on Alice's proofs table, which
    compare the tag with the underscore spelling only: the hyphenated
    synonym of a tag that offers an action offers none. *)
Theorem underscore_only_tables_split_synonyms :
  synonyms "offer_received" "offer-received" ∧
  Acme.credential_actions "offer_received" = [AcceptCredential] ∧
  Acme.credential_actions "offer-received" = [] ∧
  synonyms "credential_received" "credential-received" ∧
  Acme.credential_actions "credential_received" = [StoreCredential] ∧
  Acme.credential_actions "credential-received" = [] ∧
  synonyms "request_received" "request-received" ∧
  Alice.proof_actions "request_received" = [RespondToProof] ∧
  Alice.proof_actions "request-received" = [].
Proof. repeat split. Qed.

(** ** [storeCredential]: one request per unresolved call *)

Section StoreGuardProps.
Import StoreGuard.


















End StoreGuardProps.

(** ** Refresh races: the response that arrives last is the one shown *)

Section RefreshProps.
Import Refresh.

Ltac run_load :=
  cbv [load_call load_resume proofs_load_call proofs_load_resume setItems setLoading
       pushToast Js.bind Js.ret Js.throw Js.modify Js.get Js.await Js.try_catch
       Js.try_finally].

(** A response that arrives replaces the list, whatever its number. *)
Lemma arrival_overwrites (n : nat) (res : Json.value) (s : sys) :
  is_outstanding n s = true ->
  items (vw (step load_call load_resume (Arrive n (Js.Normal res)) s)) = results_or_empty res ∧
  items (vw (step proofs_load_call proofs_load_resume (Arrive n (Js.Normal res)) s))
    = results_or_empty res.
Proof. intros H. unfold step. rewrite H. run_load. now split. Qed.

(** A failed response and a new call leave the list alone. *)
Lemma failure_keeps_items (n : nat) (e : Js.error) (s : sys) :
  items (vw (step load_call load_resume (Arrive n (Js.Throw e)) s)) = items (vw s) ∧
  items (vw (step proofs_load_call proofs_load_resume (Arrive n (Js.Throw e)) s))
    = items (vw s) ∧
  items (vw (step load_call load_resume Issue s)) = items (vw s) ∧
  items (vw (step proofs_load_call proofs_load_resume Issue s)) = items (vw s).
Proof. unfold step. destruct (is_outstanding n s); run_load; auto. Qed.

(** C4, as amended.  [load] numbers nothing: of two refreshes issued in a
    row, the response that arrives last is the one the list shows, in
    either order of arrival, for [useConnections.load] and for
    [ProofsPage.load]; when the response of the second-issued refresh
    arrives first, the list ends on the first-issued refresh. *)
Theorem last_arrival_wins (first second : list Json.value) :
  items (vw (connections_run [Issue; Issue;
                              Arrive 1 (Js.Normal (payload second));
                              Arrive 0 (Js.Normal (payload first))] start))
    = Json.JArray first ∧
  items (vw (connections_run [Issue; Issue;
                              Arrive 0 (Js.Normal (payload first));
                              Arrive 1 (Js.Normal (payload second))] start))
    = Json.JArray second ∧
  items (vw (proofs_run [Issue; Issue;
                         Arrive 1 (Js.Normal (payload second));
                         Arrive 0 (Js.Normal (payload first))] start))
    = Json.JArray first ∧
  items (vw (proofs_run [Issue; Issue;
                         Arrive 0 (Js.Normal (payload first));
                         Arrive 1 (Js.Normal (payload second))] start))
    = Json.JArray second.
Proof. repeat split. Qed.

(** C4 as stated fails: two refreshes of the proofs list are issued, the
    second-issued one answers first with one record, the first-issued one
    answers afterwards with none; the list ends empty, not on the
    second-issued snapshot. *)
Lemma stale_response_overwrites :
  items (vw (proofs_run [Issue; Issue;
                         Arrive 1 (Js.Normal (payload [sample_record]));
                         Arrive 0 (Js.Normal (payload []))] start))
    = Json.JArray [] ∧
  results_or_empty (payload [sample_record]) = Json.JArray [sample_record] ∧
  Json.JArray [] ≠ Json.JArray [sample_record].
Proof. repeat split. discriminate. Qed.

End RefreshProps.

(** ** Faber's [CredentialsIssuedCard.load] *)

Section IssuedCardProps.
Import IssuedCard.

Ltac run_card :=
  cbv [load_call load_resume setExchanges setLoading setLoadError setFetchedOnce
       Js.bind Js.ret Js.throw Js.modify Js.get Js.await Js.try_catch Js.try_finally].

Lemma load_resume_success env resp l c :
  snapshot resp = Js.Normal l ->
  fst (load_resume env resp c) = Card l false (loadError c) true.
Proof. intros H. run_card. rewrite H. reflexivity. Qed.

Lemma load_resume_failure env resp e c :
  snapshot resp = Js.Throw e ->
  fst (load_resume env resp c)
  = Card (if c_fetchedOnce env then exchanges c else []) false
         (Some (Js.or_else (Js.message e) default_message)) (fetchedOnce c).
Proof. intros H. run_card. rewrite H. destruct (c_fetchedOnce env); reflexivity. Qed.

Lemma load_call_idle env c :
  c_loading env = false ->
  load_call env c = (Card (exchanges c) true None (fetchedOnce c), Js.Normal true).
Proof. intros H. run_card. rewrite H. reflexivity. Qed.

Lemma load_call_busy env c :
  c_loading env = true -> load_call env c = (c, Js.Normal false).
Proof. intros H. run_card. rewrite H. reflexivity. Qed.

End IssuedCardProps.

(** ** Faber's Credentials Issued card with its revocations *)

Section IssuedPageProps.
Import IssuedCard IssuedPage.

Lemma page_step_call (s : page) :
  step Call s
  = if loading (crd s) then s
    else Page (Card (exchanges (crd s)) true None (fetchedOnce (crd s))) (pnl s)
              (loads s ++ [render (crd s)]) (revokes s).
Proof.
  destruct s as [c p l r]. cbn [step crd pnl loads revokes IssuedCard.step cd inflight].
  pose proof (load_call_busy (render c) c) as Hbusy.
  pose proof (load_call_idle (render c) c) as Hidle.
  cbn [render c_loading] in Hbusy, Hidle.
  destruct (loading c) eqn:E.
  - now rewrite Hbusy.
  - now rewrite Hidle.
Qed.

Lemma page_step_settle (k : nat) (resp : Js.completion Json.value) (env : closure) (s : page) :
  loads s !! k = Some env ->
  step (Settle k resp) s
  = Page (fst (load_resume env resp (crd s))) (pnl s) (delete k (loads s)) (revokes s).
Proof.
  intros Hk. destruct s as [c p l r]. cbn [crd pnl loads revokes] in *.
  cbn [step crd pnl loads revokes IssuedCard.step cd inflight]. now rewrite Hk.
Qed.

Lemma page_step_settle_none (k : nat) (resp : Js.completion Json.value) (s : page) :
  loads s !! k = None -> step (Settle k resp) s = s.
Proof.
  intros Hk. destruct s as [c p l r]. cbn [crd pnl loads revokes] in *.
  cbn [step crd pnl loads revokes IssuedCard.step cd inflight]. now rewrite Hk.
Qed.

(** What the [load] called by [confirmRevoke] does, by the [loading] its
    render had. *)
Lemma page_revoked_ok (env : closure) (v : Json.value) (s : page) :
  confirmRevoke_resume env (Js.Normal v) s
  = if c_loading env
    then Page (crd s)
              (IssuedTable.Panel None
                 (IssuedTable.toasts (pnl s) ++
                  [Toast "Credential revoked" "Revocation has been published." "success"]))
              (loads s) (revokes s)
    else Page (Card (exchanges (crd s)) true None (fetchedOnce (crd s)))
              (IssuedTable.Panel None
                 (IssuedTable.toasts (pnl s) ++
                  [Toast "Credential revoked" "Revocation has been published." "success"]))
              (loads s ++ [env]) (revokes s).
Proof.
  unfold confirmRevoke_resume. destruct (c_loading env) eqn:E.
  - now rewrite (load_call_busy env (crd s) E).
  - now rewrite (load_call_idle env (crd s) E).
Qed.

(** The Completed table of an empty list has no row, so no Revoke button. *)
Lemma click_revoke_empty (k : nat) (s : page) :
  exchanges (crd s) = [] -> step (ClickRevoke k) s = s.
Proof. intros H. cbn [step]. rewrite H. reflexivity. Qed.

Lemma page_inv_start : page_inv start.
Proof. unfold page_inv. simpl. repeat split. now left. Qed.

Lemma page_inv_step (e : event) (s : page) : page_inv s -> page_inv (step e s).
Proof.
  intros Hinv. destruct e as [| k resp | k | | | k resp].
  - (* Call *)
    rewrite page_step_call. destruct (loading (crd s)) eqn:Hl; [exact Hinv |].
    unfold page_inv in *. cbn [crd pnl loads revokes fetchedOnce exchanges loading].
    destruct (fetchedOnce (crd s)) eqn:Hf.
    + destruct Hinv as [Hloads Hrev]. split; [| exact Hrev].
      apply Forall_app. split; [exact Hloads |].
      constructor; [exact Hf | constructor].
    + destruct Hinv as (Hex & Hm & Hr & [[Hlo _] | (env & _ & Hl')]); [| congruence].
      repeat split; try assumption. right. exists (render (crd s)). now rewrite Hlo.
  - (* Settle *)
    destruct (loads s !! k) as [env |] eqn:Hk; [| now rewrite page_step_settle_none].
    rewrite (page_step_settle k resp env s Hk). unfold page_inv in *.
    destruct (snapshot resp) as [l | err] eqn:Hs.
    + rewrite (load_resume_success env resp l) by exact Hs.
      cbn [crd pnl loads revokes fetchedOnce].
      destruct (fetchedOnce (crd s)) eqn:Hf.
      * destruct Hinv as [Hloads Hrev]. split; [| exact Hrev].
        apply Forall_delete, Hloads.
      * destruct Hinv as (_ & _ & Hr & [[Hlo _] | (env' & Hlo & _)]).
        -- rewrite Hlo in Hk. discriminate.
        -- rewrite Hlo in Hk |- *. rewrite Hr. destruct k; [| discriminate Hk].
           split; constructor.
    + rewrite (load_resume_failure env resp err) by exact Hs.
      cbn [crd pnl loads revokes fetchedOnce exchanges loading].
      destruct (fetchedOnce (crd s)) eqn:Hf.
      * destruct Hinv as [Hloads Hrev]. split; [| exact Hrev].
        apply Forall_delete, Hloads.
      * destruct Hinv as (Hex & Hm & Hr & [[Hlo _] | (env' & Hlo & _)]).
        -- rewrite Hlo in Hk. discriminate.
        -- rewrite Hlo in Hk |- *. rewrite Hex. destruct k; [| discriminate Hk].
           repeat split; try assumption; [now destruct (c_fetchedOnce env) |].
           left. now split.
  - (* ClickRevoke *)
    destruct (fetchedOnce (crd s)) eqn:Hf.
    + cbn [step]. destruct (IssuedTable.completed _) as [rows | err]; [| exact Hinv].
      destruct (rows !! k) as [ex |]; [| exact Hinv].
      destruct (IssuedTable.revoke_button true ex); [| exact Hinv].
      unfold page_inv in *. cbn [crd pnl loads revokes]. now rewrite Hf in *.
    + rewrite click_revoke_empty; [exact Hinv |].
      unfold page_inv in Hinv. rewrite Hf in Hinv. apply Hinv.
  - (* CloseModal *)
    unfold page_inv in *. cbn [step crd pnl loads revokes IssuedTable.revokeModal].
    destruct (fetchedOnce (crd s)); [exact Hinv |]. tauto.
  - (* Confirm *)
    cbn [step]. destruct (IssuedTable.revokeModal (pnl s)) eqn:Hm; [| exact Hinv].
    unfold page_inv in *. cbn [crd pnl loads revokes]. destruct (fetchedOnce (crd s)) eqn:Hf.
    + destruct Hinv as [Hloads Hrev]. split; [exact Hloads |].
      apply Forall_app. split; [exact Hrev |].
      constructor; [exact Hf | constructor].
    + destruct Hinv as (_ & Hm' & _). congruence.
  - (* Revoked *)
    cbn [step]. destruct (revokes s !! k) as [env |] eqn:Hk; [| exact Hinv].
    unfold page_inv in *.
    destruct (fetchedOnce (crd s)) eqn:Hf.
    + destruct Hinv as [Hloads Hrev].
      assert (c_fetchedOnce env = true) as Henv.
      { rewrite Forall_forall in Hrev. apply Hrev. now apply list_elem_of_lookup_2 in Hk. }
      destruct resp as [v | err].
      * rewrite page_revoked_ok. cbn [crd pnl loads revokes].
        destruct (c_loading env); cbn [crd pnl loads revokes fetchedOnce]; rewrite Hf.
        -- split; [exact Hloads | apply Forall_delete, Hrev].
        -- split; [| apply Forall_delete, Hrev].
           apply Forall_app. split; [exact Hloads |].
           constructor; [exact Henv | constructor].
      * cbn [confirmRevoke_resume crd pnl loads revokes]. rewrite Hf.
        split; [exact Hloads | apply Forall_delete, Hrev].
    + destruct Hinv as (_ & _ & Hr & _). rewrite Hr in Hk. discriminate.
Qed.

Lemma page_inv_run (evs : list event) (s : page) : page_inv s -> page_inv (run evs s).
Proof.
  revert s. induction evs as [| e evs IH]; intros s H; [exact H |].
  simpl. apply IH. now apply page_inv_step.
Qed.

(** Once set, [fetchedOnce] stays set. *)
Lemma page_fetchedOnce_step (e : event) (s : page) :
  fetchedOnce (crd s) = true -> fetchedOnce (crd (step e s)) = true.
Proof.
  intros H. destruct e as [| k resp | k | | | k resp].
  - rewrite page_step_call. destruct (loading (crd s)); exact H.
  - destruct (loads s !! k) as [env |] eqn:Hk; [| now rewrite page_step_settle_none].
    rewrite (page_step_settle k resp env s Hk).
    destruct (snapshot resp) as [l | err] eqn:Hs.
    + now rewrite (load_resume_success env resp l).
    + now rewrite (load_resume_failure env resp err).
  - cbn [step]. destruct (IssuedTable.completed _) as [rows | err]; [| exact H].
    destruct (rows !! k) as [ex |]; [| exact H].
    destruct (IssuedTable.revoke_button true ex); exact H.
  - exact H.
  - cbn [step]. destruct (IssuedTable.revokeModal (pnl s)); exact H.
  - cbn [step]. destruct (revokes s !! k) as [env |]; [| exact H].
    destruct resp as [v | err]; [| exact H].
    rewrite page_revoked_ok. destruct (c_loading env); exact H.
Qed.

Lemma page_fetchedOnce_run (evs : list event) (s : page) :
  fetchedOnce (crd s) = true -> fetchedOnce (crd (run evs s)) = true.
Proof.
  revert s. induction evs as [| e evs IH]; intros s H; [exact H |].
  simpl. apply IH. now apply page_fetchedOnce_step.
Qed.

Lemma page_run_cons (e : event) (evs : list event) (s : page) :
  run (e :: evs) s = run evs (step e s).
Proof. reflexivity. Qed.

Lemma page_run_app (evs1 evs2 : list event) (s : page) :
  run (evs1 ++ evs2) s = run evs2 (run evs1 s).
Proof. unfold run. apply fold_left_app. Qed.

(** C7, as amended.  On a mounted card, loads called by [confirmRevoke]
    among the others, let a fetch of the issued list succeed at some point
    (its response arrives while its [load] awaits it and yields a list), and
    let a later fetch fail by throwing: its request rejects, or an item of
    its payload makes the [try] block throw.  Then the held list is left as
    it was, the failure is put in [loadError] as a non-empty message (the
    error's own, or the default text when that is empty), and [loading] is
    reset. *)
Theorem failed_fetch_keeps_snapshot
  (evs1 evs2 : list event) (k1 k : nat) (env1 env : closure)
  (resp1 resp : Js.completion Json.value) (l : list Json.value) (e : Js.error) :
  loads (run evs1 start) !! k1 = Some env1 ->
  snapshot resp1 = Js.Normal l ->
  loads (run (evs1 ++ Settle k1 resp1 :: evs2) start) !! k = Some env ->
  snapshot resp = Js.Throw e ->
  let s := run (evs1 ++ Settle k1 resp1 :: evs2) start in
  let s' := step (Settle k resp) s in
  exchanges (crd s') = exchanges (crd s) ∧
  loadError (crd s') = Some (Js.or_else (Js.message e) default_message) ∧
  Js.truthy (Js.or_else (Js.message e) default_message) = true ∧
  loading (crd s') = false.
Proof.
  intros H1 Hok Hk Hfail. cbv zeta.
  set (s := run (evs1 ++ Settle k1 resp1 :: evs2) start) in *.
  assert (fetchedOnce (crd s) = true) as Honce.
  { unfold s. rewrite page_run_app, page_run_cons. apply page_fetchedOnce_run.
    rewrite (page_step_settle k1 resp1 env1 _ H1). cbn [crd].
    now rewrite (load_resume_success env1 resp1 l). }
  assert (page_inv s) as Hinv by apply page_inv_run, page_inv_start.
  assert (c_fetchedOnce env = true) as Henv.
  { unfold page_inv in Hinv. rewrite Honce in Hinv. destruct Hinv as [Hloads _].
    rewrite Forall_forall in Hloads. apply Hloads. now apply list_elem_of_lookup_2 in Hk. }
  rewrite (page_step_settle k resp env s Hk). cbn [crd].
  rewrite (load_resume_failure env resp e) by exact Hfail. rewrite Henv. simpl.
  repeat split. now apply or_else_truthy.
Qed.

Lemma failed_fetch_keeps_snapshot_witness :
  loads (run [Call] start) !! 0%nat = Some (Closure false false) ∧
  snapshot (Js.Normal (Refresh.payload [revocable_record])) = Js.Normal [revocable_record] ∧
  loads (run ([Call] ++ Settle 0 (Js.Normal (Refresh.payload [revocable_record]))
                :: [ClickRevoke 0; Confirm; Call; Revoked 0 (Js.Normal Json.JNull)])
             start) !! 1%nat = Some (Closure false true) ∧
  snapshot (Js.Throw (Js.new_Error "Bad Gateway")) = Js.Throw (Js.new_Error "Bad Gateway") ∧
  exchanges (crd (run [Call; Settle 0 (Js.Normal (Refresh.payload [revocable_record]));
                       ClickRevoke 0; Confirm; Call; Revoked 0 (Js.Normal Json.JNull);
                       Settle 1 (Js.Throw (Js.new_Error "Bad Gateway"))] start))
    = [revocable_record].
Proof.
  split; [reflexivity |]. split; [reflexivity |]. split; [reflexivity |].
  split; [reflexivity |].
  apply (failed_fetch_keeps_snapshot [Call]
           [ClickRevoke 0; Confirm; Call; Revoked 0 (Js.Normal Json.JNull)] 0 1
           (Closure false false) (Closure false true)
           (Js.Normal (Refresh.payload [revocable_record]))
           (Js.Throw (Js.new_Error "Bad Gateway")) [revocable_record]
           (Js.new_Error "Bad Gateway")); reflexivity.
Defined.

(** C7 as stated fails for a malformed payload: a reply that is OK but
    carries no [results] array is not treated as a failure.  After a fetch
    that listed a record, such a reply replaces the held list by the empty
    one and raises no error. *)
Lemma reply_without_results_clears_snapshot :
  exchanges (crd (run [Call; Settle 0 (Js.Normal (Refresh.payload [revocable_record]))]
                      start)) = [revocable_record] ∧
  crd (run [Call; Settle 0 (Js.Normal (Refresh.payload [revocable_record]));
            Call; Settle 0 (Js.Normal (Json.JObject [("error", Json.JString "busy")]))]
           start)
  = Card [] false None true.
Proof. vm_compute. auto. Qed.

(** With no [load] awaited the card is not [loading]. *)
Lemma idle_step (e : event) (s : page) :
  (loads s = [] -> loading (crd s) = false) ->
  loads (step e s) = [] -> loading (crd (step e s)) = false.
Proof.
  intros Hidle. destruct e as [| k resp | k | | | k resp].
  - rewrite page_step_call. destruct (loading (crd s)) eqn:Hl.
    + intros E. rewrite Hl. now apply Hidle.
    + cbn [loads]. intros E. now apply app_eq_nil in E as [_ E].
  - destruct (loads s !! k) as [env |] eqn:Hk; [| now rewrite page_step_settle_none].
    rewrite (page_step_settle k resp env s Hk). intros _. cbn [crd].
    destruct (snapshot resp) as [l | err] eqn:Hs.
    + now rewrite (load_resume_success env resp l).
    + now rewrite (load_resume_failure env resp err).
  - cbn [step]. destruct (IssuedTable.completed _) as [rows | err]; [| exact Hidle].
    destruct (rows !! k) as [ex |]; [| exact Hidle].
    destruct (IssuedTable.revoke_button true ex); exact Hidle.
  - exact Hidle.
  - cbn [step]. destruct (IssuedTable.revokeModal (pnl s)); exact Hidle.
  - cbn [step]. destruct (revokes s !! k) as [env |]; [| exact Hidle].
    destruct resp as [v | err]; [| exact Hidle].
    rewrite page_revoked_ok. destruct (c_loading env); cbn [crd pnl loads revokes].
    + exact Hidle.
    + intros E. now apply app_eq_nil in E as [_ E].
Qed.

Lemma idle_run (evs : list event) (s : page) :
  (loads s = [] -> loading (crd s) = false) ->
  loads (run evs s) = [] -> loading (crd (run evs s)) = false.
Proof.
  revert s. induction evs as [| e evs IH]; intros s H; [exact H |].
  simpl. apply IH. now apply idle_step.
Qed.

(** A [load] that runs alone stays alone until it settles. *)
Lemma alone_step (e : event) (s : page) :
  is_settle e = false -> alone_inv s -> alone_inv (step e s).
Proof.
  intros He ((env0 & Hlo) & Hl & Herr & Hrev).
  destruct e as [| k resp | k | | | k resp]; try discriminate.
  - rewrite page_step_call, Hl. repeat split; eauto.
  - cbn [step]. destruct (IssuedTable.completed _) as [rows | err];
      [| repeat split; eauto].
    destruct (rows !! k) as [ex |]; [| repeat split; eauto].
    destruct (IssuedTable.revoke_button true ex); repeat split; eauto.
  - repeat split; eauto.
  - cbn [step]. destruct (IssuedTable.revokeModal (pnl s)); [| repeat split; eauto].
    unfold alone_inv. cbn [crd pnl loads revokes]. repeat split; eauto.
    apply Forall_app. split; [exact Hrev |]. constructor; [exact Hl | constructor].
  - cbn [step]. destruct (revokes s !! k) as [env |] eqn:Hk; [| repeat split; eauto].
    assert (c_loading env = true) as Henv.
    { rewrite Forall_forall in Hrev. apply Hrev. now apply list_elem_of_lookup_2 in Hk. }
    destruct resp as [v | err].
    + rewrite page_revoked_ok, Henv. unfold alone_inv. cbn [crd pnl loads revokes].
      repeat split; eauto. apply Forall_delete, Hrev.
    + unfold alone_inv. cbn [confirmRevoke_resume crd pnl loads revokes].
      repeat split; eauto. apply Forall_delete, Hrev.
Qed.

Lemma alone_run (evs : list event) (s : page) :
  forallb (fun e => negb (is_settle e)) evs = true -> alone_inv s -> alone_inv (run evs s).
Proof.
  revert s. induction evs as [| e evs IH]; intros s Hevs H; [exact H |].
  simpl in Hevs. apply andb_prop in Hevs as [He Hevs]. apply negb_true_iff in He.
  simpl. apply IH; [exact Hevs | now apply alone_step].
Qed.

(** X22.  A fetch that runs alone and succeeds leaves no error behind: let
    [load] be called on a mounted card while no other [load] is awaited and
    no revocation is under way; whatever else happens until its response
    arrives, when the response yields a list the card holds that list, is
    no longer loading and shows no [loadError], whatever an earlier fetch
    had left there. *)
Theorem successful_fetch_clears_the_error
  (evs1 evs2 : list event) (resp : Js.completion Json.value) (l : list Json.value) :
  loads (run evs1 start) = [] -> revokes (run evs1 start) = [] ->
  forallb (fun e => negb (is_settle e)) evs2 = true ->
  snapshot resp = Js.Normal l ->
  crd (step (Settle 0 resp) (run (evs1 ++ Call :: evs2) start)) = Card l false None true.
Proof.
  intros Hlo Hrev Hevs Hok. rewrite page_run_app, page_run_cons.
  set (s0 := run evs1 start) in *.
  assert (loading (crd s0) = false) as Hidle.
  { apply idle_run; [reflexivity | exact Hlo]. }
  assert (alone_inv (step Call s0)) as Halone.
  { rewrite page_step_call, Hidle. unfold alone_inv. cbn [crd pnl loads revokes].
    rewrite Hlo, Hrev. repeat split; eauto. }
  destruct (alone_run evs2 _ Hevs Halone) as ((env & Hone) & _ & Herr & _).
  rewrite (page_step_settle 0 resp env) by now rewrite Hone.
  cbn [crd]. rewrite (load_resume_success env resp l) by exact Hok. now rewrite Herr.
Qed.

Lemma successful_fetch_clears_the_error_witness :
  loadError (crd (run [Call; Settle 0 (Js.Throw (Js.new_Error "Bad Gateway"))] start))
  = Some "Bad Gateway" ∧
  crd (step (Settle 0 (Js.Normal (Refresh.payload [sample_record])))
         (run ([Call; Settle 0 (Js.Throw (Js.new_Error "Bad Gateway"))] ++ Call :: [Call])
              start))
  = Card [sample_record] false None true.
Proof.
  split; [reflexivity |].
  apply (successful_fetch_clears_the_error
           [Call; Settle 0 (Js.Throw (Js.new_Error "Bad Gateway"))] [Call]
           (Js.Normal (Refresh.payload [sample_record])) [sample_record]); reflexivity.
Defined.

End IssuedPageProps.

(** ** Acme's auto-verification scanner *)

Section AutoVerifyProps.
Import AutoVerify.

Ltac run_scan :=
  cbv [mark settle_body resume setVerifying ref_add ref_delete pushToast post_verify
       schedule_reload ref_has Js.bind Js.ret Js.throw Js.modify Js.get Js.await
       Js.try_catch Js.try_finally].

Lemma settle_body_success (i : string) (v : Json.value) (p : page) :
  settle_body i (Js.Normal v) p
  = (Page (autoVerified p) (delete i (verifying p)) (toasts p ++ [success_toast i])
          (verify_calls p) (S (reloads p)), Js.Normal tt).
Proof. reflexivity. Qed.

Lemma settle_body_failure (i : string) (e : Js.error) (p : page) :
  settle_body i (Js.Throw e) p
  = (Page (autoVerified p ∖ {[i]}) (delete i (verifying p)) (toasts p ++ [failure_toast e])
          (verify_calls p) (reloads p), Js.Normal tt).
Proof. reflexivity. Qed.

Lemma mark_eq (i : string) (p : page) :
  mark i p
  = (Page ({[i]} ∪ autoVerified p) (<[i := true]> (verifying p)) (toasts p)
          (verify_calls p ++ [i])%list (reloads p), Js.Normal tt).
Proof. reflexivity. Qed.

(** What the loop does with the record at its head. *)
Lemma advance_cons (q : proof) (ps : list proof) (p : page) :
  advance (q :: ps) p =
    match exchangeId q with
    | Some i =>
        if qualifies q && negb (bool_decide (i ∈ autoVerified p))
        then (fst (mark i p), Js.Normal (Some (Scan i ps)))
        else advance ps p
    | None => advance ps p
    end.
Proof.
  simpl. run_scan. destruct (exchangeId q) as [i |].
  - destruct (qualifies q && negb (bool_decide (i ∈ autoVerified p))); reflexivity.
  - destruct (qualifies q && negb false); reflexivity.
Qed.

(** The loop never throws; when it stops at an [await] it has just put the
    awaited id, not held before, into the set and issued its request; when
    it runs to its end it changes nothing. *)
Lemma advance_result (ps : list proof) (p : page) :
  match advance ps p with
  | (p', Js.Normal (Some sc)) =>
      (awaiting sc ∉ autoVerified p) ∧ p' = fst (mark (awaiting sc) p)
  | (p', Js.Normal None) => p' = p
  | (_, Js.Throw _) => False
  end.
Proof.
  induction ps as [| q ps IH]; [reflexivity |].
  rewrite advance_cons. destruct (exchangeId q) as [i |]; [| exact IH].
  destruct (qualifies q && negb (bool_decide (i ∈ autoVerified p))) eqn:E; [| exact IH].
  simpl. split; [| reflexivity].
  apply andb_prop in E as [_ E]. apply negb_true_iff, bool_decide_eq_false in E. exact E.
Qed.

Lemma resume_eq (sc : scan) (resp : Js.completion Json.value) (p : page) :
  resume sc resp p = advance (rest sc) (fst (settle_body (awaiting sc) resp p)).
Proof. unfold resume, Js.bind. destruct resp; reflexivity. Qed.

Lemma settle_body_facts (j : string) (resp : Js.completion Json.value) (p : page) :
  verify_calls (fst (settle_body j resp p)) = verify_calls p ∧
  autoVerified (fst (settle_body j resp p)) ⊆ autoVerified p ∧
  autoVerified p ∖ {[j]} ⊆ autoVerified (fst (settle_body j resp p)) ∧
  snd (settle_body j resp p) = Js.Normal tt.
Proof.
  destruct resp as [v | e]; [rewrite settle_body_success | rewrite settle_body_failure];
    simpl; repeat split; set_solver.
Qed.

(** The shapes a step can take. *)
Lemma step_shape (e : event) (s : sys) :
  step e s = s ∨
  (∃ ps i r, e = Snapshot ps ∧ (i ∉ autoVerified (pg s)) ∧
             step e s = Sys (fst (mark i (pg s))) (scans s ++ [Scan i r])) ∨
  (∃ k resp sc, e = Settle k resp ∧ scans s !! k = Some sc ∧
     (step e s = Sys (fst (settle_body (awaiting sc) resp (pg s))) (delete k (scans s)) ∨
      ∃ i r, (i ∉ autoVerified (fst (settle_body (awaiting sc) resp (pg s)))) ∧
             step e s = Sys (fst (mark i (fst (settle_body (awaiting sc) resp (pg s)))))
                            (<[k := Scan i r]> (scans s)))).
Proof.
  destruct e as [ps | k resp]; simpl.
  - destruct ps as [| q ps]; [now left |].
    pose proof (advance_result (q :: ps) (pg s)) as H.
    destruct (advance (q :: ps) (pg s)) as [p' [[[i r] |] | err]]; [| | contradiction].
    + right. left. destruct H as [Hi ->]. exists (q :: ps), i, r. auto.
    + left. subst p'. now destruct s.
  - destruct (scans s !! k) as [sc |] eqn:Hk; [| now left].
    right. right. exists k, resp, sc. split; [reflexivity |]. split; [exact Hk |].
    rewrite resume_eq.
    pose proof (advance_result (rest sc) (fst (settle_body (awaiting sc) resp (pg s)))) as H.
    destruct (advance (rest sc) (fst (settle_body (awaiting sc) resp (pg s))))
      as [p' [[[i r] |] | err]]; [| | contradiction].
    + right. destruct H as [Hi ->]. exists i, r. auto.
    + left. now subst p'.
Qed.

Lemma scan_inv_step (e : event) (s : sys) : scan_inv s -> scan_inv (step e s).
Proof.
  intros [Huniq Hin].
  destruct (step_shape e s) as [-> | [(ps & i & r & _ & Hi & ->) |
    (k & resp & sc & _ & Hk & [-> | (i & r & Hi & ->)])]].
  - now split.
  - split; simpl.
    + intros a b sa sb Hab Ha Hb.
      apply lookup_app_Some in Ha as [Ha | [Hla Ha]];
        apply lookup_app_Some in Hb as [Hb | [Hlb Hb]].
      * eauto.
      * apply list_lookup_singleton_Some in Hb as [_ <-]. simpl.
        intros Heq. apply Hin in Ha. congruence.
      * apply list_lookup_singleton_Some in Ha as [_ <-]. simpl.
        intros Heq. apply Hin in Hb. congruence.
      * apply list_lookup_singleton_Some in Ha as [Ha _].
        apply list_lookup_singleton_Some in Hb as [Hb _]. lia.
    + intros a sa Ha. apply lookup_app_Some in Ha as [Ha | [_ Ha]].
      * apply Hin in Ha. set_solver.
      * apply list_lookup_singleton_Some in Ha as [_ <-]. simpl. set_solver.
  - destruct (settle_body_facts (awaiting sc) resp (pg s)) as (_ & _ & Hsub & _).
    split; simpl.
    + intros a b sa sb Hab Ha Hb. rewrite list_lookup_delete in Ha, Hb.
      eapply Huniq; [| exact Ha | exact Hb]. repeat case_decide; lia.
    + intros a sa Ha. rewrite list_lookup_delete in Ha.
      apply Hsub. apply elem_of_difference. split; [eauto |].
      apply not_elem_of_singleton. eapply Huniq; [| exact Ha | exact Hk].
      case_decide; lia.
  - destruct (settle_body_facts (awaiting sc) resp (pg s)) as (_ & Hsup & Hsub & _).
    assert (∀ a sa, a ≠ k -> scans s !! a = Some sa ->
                    awaiting sa ∈ autoVerified (fst (settle_body (awaiting sc) resp (pg s))))
      as Hothers.
    { intros a sa Hak Ha. apply Hsub. apply elem_of_difference. split; [eauto |].
      apply not_elem_of_singleton. eauto. }
    assert ((k < List.length (scans s))%nat) as Hlen by now apply lookup_lt_Some in Hk.
    split; simpl.
    + intros a b sa sb Hab Ha Hb.
      destruct (decide (k = a)) as [Eka | Hka]; destruct (decide (k = b)) as [Ekb | Hkb].
      * congruence.
      * subst a. rewrite list_lookup_insert_eq in Ha by exact Hlen.
        rewrite list_lookup_insert_ne in Hb by exact Hkb.
        injection Ha as <-. simpl. intros Heq.
        apply Hi. rewrite Heq. apply (Hothers b sb); [congruence | exact Hb].
      * subst b. rewrite list_lookup_insert_eq in Hb by exact Hlen.
        rewrite list_lookup_insert_ne in Ha by exact Hka.
        injection Hb as <-. simpl. intros Heq.
        apply Hi. rewrite <- Heq. apply (Hothers a sa); [congruence | exact Ha].
      * rewrite list_lookup_insert_ne in Ha by exact Hka.
        rewrite list_lookup_insert_ne in Hb by exact Hkb. eauto.
    + intros a sa Ha.
      destruct (decide (k = a)) as [Eka | Hka].
      * subst a. rewrite list_lookup_insert_eq in Ha by exact Hlen.
        injection Ha as <-. simpl. set_solver.
      * rewrite list_lookup_insert_ne in Ha by exact Hka.
        assert (a ≠ k) as Hak by congruence.
        specialize (Hothers a sa Hak Ha). set_solver.
Qed.

Lemma scan_inv_run (evs : list event) (s : sys) : scan_inv s -> scan_inv (run evs s).
Proof.
  revert s. induction evs as [| e evs IH]; intros s H; [exact H |].
  simpl. apply IH. now apply scan_inv_step.
Qed.

Lemma scan_inv_start : scan_inv start.
Proof. split; intros *; simpl; try rewrite lookup_nil; discriminate. Qed.

Lemma invoked_mark (i j : string) (p : page) :
  invoked i (fst (mark j p)) = (invoked i p + if decide (j = i) then 1 else 0)%nat.
Proof.
  unfold invoked. rewrite mark_eq. simpl.
  rewrite filter_app, length_app, filter_cons, filter_nil.
  destruct (decide (j = i)); reflexivity.
Qed.

Lemma autoVerified_mark (j : string) (p : page) :
  autoVerified (fst (mark j p)) = {[j]} ∪ autoVerified p.
Proof. reflexivity. Qed.

Lemma invoked_settle_body (i j : string) (resp : Js.completion Json.value) (p : page) :
  invoked i (fst (settle_body j resp p)) = invoked i p.
Proof.
  unfold invoked. now destruct (settle_body_facts j resp p) as (-> & _).
Qed.

Lemma is_awaited_lookup (i : string) (s : sys) :
  is_awaited i s = true <-> ∃ k sc, scans s !! k = Some sc ∧ awaiting sc = i.
Proof.
  unfold is_awaited, awaited. rewrite existsb_exists. split.
  - intros (j & Hj & Heq). apply String.eqb_eq in Heq. subst j.
    apply in_map_iff in Hj as (sc & Hsc & Hin).
    apply list_elem_of_In, list_elem_of_lookup in Hin as [k Hk]. eauto.
  - intros (k & sc & Hk & <-). exists (awaiting sc). split; [| apply String.eqb_refl].
    apply in_map_iff. exists sc. split; [reflexivity |].
    apply list_elem_of_In, list_elem_of_lookup. eauto.
Qed.

(** A step that issues a verify request for [i] leaves [i] in the set and
    the request awaited. *)
Lemma request_marks_first (i : string) (e : event) (s : sys) :
  invoked i (pg (step e s)) ≠ invoked i (pg s) ->
  i ∈ autoVerified (pg (step e s)) ∧ is_awaited i (step e s) = true.
Proof.
  intros Hne.
  destruct (step_shape e s) as [E | [(ps & j & r & _ & Hj & E) |
    (k & resp & sc & _ & Hk & [E | (j & r & Hj & E)])]]; rewrite E in *; cbn [pg scans] in *.
  - congruence.
  - rewrite invoked_mark in Hne. destruct (decide (j = i)) as [-> | _]; [| lia].
    split; [rewrite autoVerified_mark; set_solver |].
    apply is_awaited_lookup. exists (List.length (scans s)), (Scan i r). simpl.
    split; [| reflexivity]. apply lookup_app_Some. right.
    split; [lia |]. now rewrite Nat.sub_diag.
  - rewrite invoked_settle_body in Hne. congruence.
  - rewrite invoked_mark, invoked_settle_body in Hne.
    destruct (decide (j = i)) as [-> | _]; [| lia].
    split; [rewrite autoVerified_mark; set_solver |].
    apply is_awaited_lookup. exists k, (Scan i r). simpl. split; [| reflexivity].
    apply list_lookup_insert_eq. now apply lookup_lt_Some in Hk.
Qed.

(** Only the failure of the request for [i] takes [i] out of the set. *)
Lemma rollback_only_on_failure (i : string) (e : event) (s : sys) :
  i ∈ autoVerified (pg s) -> i ∉ autoVerified (pg (step e s)) ->
  ∃ k err sc, e = Settle k (Js.Throw err) ∧ scans s !! k = Some sc ∧ awaiting sc = i.
Proof.
  intros Hin Hout.
  destruct (step_shape e s) as [E | [(ps & j & r & _ & Hj & E) |
    (k & resp & sc & -> & Hk & Hcases)]].
  - rewrite E in Hout. contradiction.
  - rewrite E in Hout. cbn [pg] in Hout. rewrite autoVerified_mark in Hout. set_solver.
  - assert (i ∉ autoVerified (fst (settle_body (awaiting sc) resp (pg s)))) as Hgone.
    { destruct Hcases as [E | (j & r & Hj & E)]; rewrite E in Hout; cbn [pg] in Hout.
      - exact Hout.
      - rewrite autoVerified_mark in Hout. set_solver. }
    destruct resp as [v | err].
    + rewrite settle_body_success in Hgone. simpl in Hgone. contradiction.
    + exists k, err, sc. split; [reflexivity |]. split; [exact Hk |].
      rewrite settle_body_failure in Hgone. simpl in Hgone.
      destruct (decide (awaiting sc = i)); [assumption | set_solver].
Qed.

(** While the request for [i] is awaited and an event does not settle it,
    the event issues no request for [i] and leaves it awaited. *)
Lemma pending_step (i : string) (e : event) (s : sys) :
  scan_inv s -> is_awaited i s = true -> not_settling i e s = true ->
  is_awaited i (step e s) = true ∧ invoked i (pg (step e s)) = invoked i (pg s).
Proof.
  intros [Huniq Hin] Haw Hns.
  apply is_awaited_lookup in Haw as (a & sa & Ha & Hai).
  assert (i ∈ autoVerified (pg s)) as Hi by (rewrite <- Hai; eauto).
  destruct (step_shape e s) as [E | [(ps & j & r & _ & Hj & E) |
    (k & resp & sc & -> & Hk & Hcases)]].
  - rewrite E. split; [| reflexivity]. apply is_awaited_lookup; eauto.
  - rewrite E. cbn [pg scans]. split.
    + apply is_awaited_lookup. exists a, sa. cbn [scans]. split; [| assumption].
      apply lookup_app_Some. now left.
    + rewrite invoked_mark. destruct (decide (j = i)) as [-> | _]; [contradiction | lia].
  - simpl in Hns. rewrite Hk in Hns. apply negb_true_iff, String.eqb_neq in Hns.
    assert (a ≠ k) as Hak by (intros ->; congruence).
    destruct (settle_body_facts (awaiting sc) resp (pg s)) as (_ & _ & Hsub & _).
    assert (i ∈ autoVerified (fst (settle_body (awaiting sc) resp (pg s)))) as Hi1
      by (apply Hsub; set_solver).
    destruct Hcases as [E | (j & r & Hj & E)]; rewrite E; cbn [pg scans].
    + split; [| apply invoked_settle_body].
      apply is_awaited_lookup. cbn [scans].
      destruct (decide (a < k)%nat) as [Hlt | Hge].
      * exists a, sa. split; [| assumption]. rewrite list_lookup_delete_lt by lia. exact Ha.
      * exists (a - 1)%nat, sa. split; [| assumption].
        rewrite list_lookup_delete_ge by lia. replace (S (a - 1)) with a by lia. exact Ha.
    + split.
      * apply is_awaited_lookup. exists a, sa. cbn [scans]. split; [| assumption].
        rewrite list_lookup_insert_ne by congruence. exact Ha.
      * rewrite invoked_mark, invoked_settle_body.
        destruct (decide (j = i)) as [-> | _]; [contradiction | lia].
Qed.

Lemma pending_run (i : string) (evs : list event) (s : sys) :
  scan_inv s -> is_awaited i s = true -> leaves_pending i evs s = true ->
  is_awaited i (run evs s) = true ∧ invoked i (pg (run evs s)) = invoked i (pg s).
Proof.
  revert s. induction evs as [| e evs IH]; intros s Hinv Haw Hlp; [now split |].
  simpl in Hlp. apply andb_prop in Hlp as [Hns Hlp].
  destruct (pending_step i e s Hinv Haw Hns) as [Haw' Hc].
  destruct (IH (step e s)) as [H1 H2]; auto using scan_inv_step.
  simpl. split; [assumption | congruence].
Qed.

(** C9, as amended.  Take any state a mounted [ProofsPage] can reach in
    which the verification of [i] is in flight.  Then [i] is in the handled set (it
    was put there before the request went out: every step that issues a
    verify request for an id leaves the id in the set and the request
    awaited).  As long as that request is not settled, no further event,
    a scan of any new snapshot among them, issues a verify request for [i],
    and [i] stays in the set.  An id leaves the set only through the
    failure of the request in flight for it. *)
Theorem inflight_id_not_reinvoked (evs0 evs : list event) (i : string) :
  is_awaited i (run evs0 start) = true ->
  leaves_pending i evs (run evs0 start) = true ->
  i ∈ autoVerified (pg (run evs0 start)) ∧
  invoked i (pg (run evs (run evs0 start))) = invoked i (pg (run evs0 start)) ∧
  i ∈ autoVerified (pg (run evs (run evs0 start))) ∧
  (∀ j e s, invoked j (pg (step e s)) ≠ invoked j (pg s) ->
            j ∈ autoVerified (pg (step e s)) ∧ is_awaited j (step e s) = true) ∧
  (∀ j e s, j ∈ autoVerified (pg s) -> j ∉ autoVerified (pg (step e s)) ->
            ∃ k err sc, e = Settle k (Js.Throw err) ∧ scans s !! k = Some sc ∧
                        awaiting sc = j).
Proof.
  intros Haw Hlp.
  assert (scan_inv (run evs0 start)) as Hinv by apply scan_inv_run, scan_inv_start.
  destruct (pending_run i evs _ Hinv Haw Hlp) as [Haw' Hc].
  assert (scan_inv (run evs (run evs0 start))) as Hinv' by now apply scan_inv_run.
  split.
  { apply is_awaited_lookup in Haw as (a & sa & Ha & <-). now apply Hinv in Ha. }
  split; [exact Hc |]. split.
  { apply is_awaited_lookup in Haw' as (a & sa & Ha & <-). now apply Hinv' in Ha. }
  split; [apply request_marks_first | apply rollback_only_on_failure].
Qed.

Lemma inflight_id_not_reinvoked_witness :
  is_awaited "px-1" (run [Snapshot [received "px-1"]] start) = true ∧
  leaves_pending "px-1" [Snapshot [received "px-1"; received "px-2"]]
                 (run [Snapshot [received "px-1"]] start) = true ∧
  invoked "px-1" (pg (run [Snapshot [received "px-1"];
                           Snapshot [received "px-1"; received "px-2"]] start)) = 1%nat.
Proof.
  split; [reflexivity | split; [reflexivity |]].
  apply (inflight_id_not_reinvoked [Snapshot [received "px-1"]]
           [Snapshot [received "px-1"; received "px-2"]] "px-1"); reflexivity.
Defined.

(** C9 as stated fails for a scan of another mount: the handled set is a ref
    of the page instance.  A snapshot shows [px-1] received and the scanner
    asks to verify it; while that request is in flight the user leaves the
    page and comes back, and the scan of the new instance, whose set is
    empty, asks to verify [px-1] again. *)
Lemma remount_reinvokes_inflight :
  map (fun s => (is_awaited "px-1" s, elements (autoVerified (pg s))))
      (prun [Mount; Refresh [received "px-1"]; Mount; Refresh [received "px-1"]] [])
    = [(true, ["px-1"]); (true, ["px-1"])] ∧
  pinvoked "px-1" (prun [Mount; Refresh [received "px-1"]] []) = 1%nat ∧
  pinvoked "px-1" (prun [Mount; Refresh [received "px-1"]; Refresh [received "px-1"]] [])
    = 1%nat ∧
  pinvoked "px-1" (prun [Mount; Refresh [received "px-1"];
                         Mount; Refresh [received "px-1"]] []) = 2%nat.
Proof. vm_compute. auto. Qed.

(** An id in the set that no scan waits for stays there, and no event
    issues a request for it. *)
Lemma handled_step (i : string) (e : event) (s : sys) :
  i ∈ autoVerified (pg s) -> is_awaited i s = false ->
  i ∈ autoVerified (pg (step e s)) ∧ is_awaited i (step e s) = false ∧
  invoked i (pg (step e s)) = invoked i (pg s).
Proof.
  intros Hi Hna.
  assert (∀ k sc, scans s !! k = Some sc -> awaiting sc ≠ i) as Hfree.
  { intros k sc Hk Heq. assert (is_awaited i s = true) as Ht by (apply is_awaited_lookup; eauto).
    congruence. }
  assert (∀ s', (∀ k sc, scans s' !! k = Some sc -> awaiting sc ≠ i) -> is_awaited i s' = false)
    as Hback.
  { intros s' H. destruct (is_awaited i s') eqn:E; [| reflexivity].
    apply is_awaited_lookup in E as (k & sc & Hk & Heq). now apply H in Hk. }
  destruct (step_shape e s) as [E | [(ps & j & r & _ & Hj & E) |
    (k & resp & sc & -> & Hk & Hcases)]].
  - rewrite E. auto.
  - rewrite E. cbn [pg scans]. assert (j ≠ i) as Hji by (intros ->; contradiction).
    split; [rewrite autoVerified_mark; set_solver |]. split.
    + apply Hback. cbn [scans]. intros k sc Hk.
      apply lookup_app_Some in Hk as [Hk | [_ Hk]]; [eauto |].
      apply list_lookup_singleton_Some in Hk as [_ <-]. exact Hji.
    + rewrite invoked_mark. destruct (decide (j = i)); [contradiction | lia].
  - destruct (settle_body_facts (awaiting sc) resp (pg s)) as (_ & _ & Hsub & _).
    assert (i ∈ autoVerified (fst (settle_body (awaiting sc) resp (pg s)))) as Hi1.
    { apply Hsub. apply elem_of_difference. split; [assumption |].
      apply not_elem_of_singleton. intros Heq. symmetry in Heq. now apply Hfree in Hk. }
    destruct Hcases as [E | (j & r & Hj & E)]; rewrite E; cbn [pg scans].
    + split; [assumption |]. split; [| apply invoked_settle_body].
      apply Hback. cbn [scans]. intros a sa Ha. rewrite list_lookup_delete in Ha. eauto.
    + assert (j ≠ i) as Hji by (intros ->; contradiction).
      split; [rewrite autoVerified_mark; set_solver |]. split.
      * apply Hback. cbn [scans]. intros a sa Ha.
        rewrite list_lookup_insert in Ha. case_decide; [| eauto].
        injection Ha as <-. exact Hji.
      * rewrite invoked_mark, invoked_settle_body.
        destruct (decide (j = i)); [contradiction | lia].
Qed.

Lemma handled_run (i : string) (evs : list event) (s : sys) :
  i ∈ autoVerified (pg s) -> is_awaited i s = false ->
  i ∈ autoVerified (pg (run evs s)) ∧ invoked i (pg (run evs s)) = invoked i (pg s).
Proof.
  revert s. induction evs as [| e evs IH]; intros s Hi Hna; [now split |].
  destruct (handled_step i e s Hi Hna) as (Hi' & Hna' & Hc).
  destruct (IH (step e s) Hi' Hna') as [H1 H2].
  simpl. split; [assumption | congruence].
Qed.

(** When the request a scan waits for succeeds, its id stays in the set,
    is awaited by no scan any more, and no request was issued for it. *)
Lemma success_step (k : nat) (sc : scan) (v : Json.value) (s : sys) :
  scan_inv s -> scans s !! k = Some sc ->
  awaiting sc ∈ autoVerified (pg (step (Settle k (Js.Normal v)) s)) ∧
  is_awaited (awaiting sc) (step (Settle k (Js.Normal v)) s) = false ∧
  invoked (awaiting sc) (pg (step (Settle k (Js.Normal v)) s)) = invoked (awaiting sc) (pg s).
Proof.
  intros [Huniq Hin] Hk. set (i := awaiting sc).
  assert (i ∈ autoVerified (pg s)) as Hi by (apply (Hin k sc Hk)).
  assert (∀ s', (∀ a sa, scans s' !! a = Some sa -> awaiting sa ≠ i) -> is_awaited i s' = false)
    as Hback.
  { intros s' H. destruct (is_awaited i s') eqn:E; [| reflexivity].
    apply is_awaited_lookup in E as (a & sa & Ha & Heq). now apply H in Ha. }
  unfold step. rewrite Hk, resume_eq, settle_body_success. cbn [fst].
  set (p1 := Page (autoVerified (pg s)) (delete (awaiting sc) (verifying (pg s)))
                  (toasts (pg s) ++ [success_toast (awaiting sc)]) (verify_calls (pg s))
                  (S (reloads (pg s)))).
  pose proof (advance_result (rest sc) p1) as H.
  destruct (advance (rest sc) p1) as [p' [[[j r] |] | err]]; [| | contradiction].
  - destruct H as [Hj ->]. cbn [pg scans awaiting] in *.
    assert (j ≠ i) as Hji by (intros ->; contradiction).
    split; [rewrite autoVerified_mark; set_solver |]. split.
    + apply Hback. cbn [scans]. intros a sa Ha.
      destruct (decide (k = a)) as [<- | Hka].
      * rewrite list_lookup_insert_eq in Ha by now apply lookup_lt_Some in Hk.
        injection Ha as <-. exact Hji.
      * rewrite list_lookup_insert_ne in Ha by exact Hka.
        eapply Huniq; [| exact Ha | exact Hk]. congruence.
    + rewrite invoked_mark. destruct (decide (j = i)); [contradiction |].
      unfold invoked. simpl. lia.
  - subst p'. cbn [pg scans]. split; [exact Hi |]. split; [| reflexivity].
    apply Hback. cbn [scans]. intros a sa Ha. rewrite list_lookup_delete in Ha.
    eapply Huniq; [| exact Ha | exact Hk]. case_decide; lia.
Qed.

(** One turn of the loop, when nothing runs in between. *)
Lemma loop_cons oracle (q : proof) (ps : list proof) (p : page) :
  autoVerifyPresentations oracle (q :: ps) p =
    autoVerifyPresentations oracle ps
      match exchangeId q with
      | Some i =>
          if qualifies q && negb (bool_decide (i ∈ autoVerified p))
          then fst (settle_body i (oracle (verify_calls p ++ [i])%list) (fst (mark i p)))
          else p
      | None => p
      end.
Proof.
  cbn [autoVerifyPresentations]. unfold Js.bind at 1. unfold ref_has at 1.
  destruct (exchangeId q) as [i |].
  - destruct (qualifies q && negb (bool_decide (i ∈ autoVerified p))); [| reflexivity].
    unfold Js.bind at 1. unfold Js.bind at 1. rewrite mark_eq.
    unfold Js.bind at 1. unfold Js.get at 1. cbn [verify_calls fst].
    destruct (oracle (verify_calls p ++ [i])%list); reflexivity.
  - destruct (qualifies q && negb false); reflexivity.
Qed.

(** The whole loop is the suspended scan driven to its end: up to the first
    [await] it is [advance], and from there it goes on with the records
    left once the request has settled. *)
Lemma loop_is_driven oracle (ps : list proof) (p : page) :
  autoVerifyPresentations oracle ps p =
    match advance ps p with
    | (p1, Js.Normal (Some sc)) =>
        autoVerifyPresentations oracle (rest sc)
          (fst (settle_body (awaiting sc) (oracle (verify_calls p1)) p1))
    | (p1, _) => (p1, Js.Normal tt)
    end.
Proof.
  induction ps as [| q ps IH]; [reflexivity |].
  rewrite loop_cons, advance_cons.
  destruct (exchangeId q) as [i |]; [| exact IH].
  destruct (qualifies q && negb (bool_decide (i ∈ autoVerified p))); [| exact IH].
  reflexivity.
Qed.

(** No exception leaves the loop. *)
Lemma loop_normal oracle (ps : list proof) (p : page) :
  snd (autoVerifyPresentations oracle ps p) = Js.Normal tt.
Proof.
  revert p. induction ps as [| q ps IH]; intros p; [reflexivity |].
  rewrite loop_cons. apply IH.
Qed.

Lemma loop_mono oracle (i : string) (ps : list proof) (p : page) :
  (invoked i p <= invoked i (fst (autoVerifyPresentations oracle ps p)))%nat.
Proof.
  revert p. induction ps as [| q ps IH]; intros p; [reflexivity |].
  rewrite loop_cons. etransitivity; [| apply IH].
  destruct (exchangeId q) as [j |]; [| reflexivity].
  destruct (qualifies q && negb (bool_decide (j ∈ autoVerified p))); [| reflexivity].
  rewrite invoked_settle_body, invoked_mark. lia.
Qed.

(** Every record of the snapshot that qualifies is reached: its id was in
    the set when the scan began, or the scan issues a request for it,
    however the requests of the scan end. *)
Lemma loop_reaches oracle (i : string) (q : proof) (n : nat) (ps : list proof) (p : page) :
  ps !! n = Some q -> qualifies q = true -> exchangeId q = Some i ->
  i ∈ autoVerified p ∨
  (invoked i p < invoked i (fst (autoVerifyPresentations oracle ps p)))%nat.
Proof.
  intros Hn Hq Hid. revert n p Hn.
  induction ps as [| q' ps IH]; intros n p Hn; [discriminate |].
  destruct (decide (i ∈ autoVerified p)) as [Hin | Hout]; [now left | right].
  rewrite loop_cons. destruct n as [| n]; simpl in Hn.
  - injection Hn as ->. rewrite Hid, Hq. rewrite bool_decide_eq_false_2 by exact Hout.
    cbn [andb negb]. eapply Nat.lt_le_trans; [| apply loop_mono].
    rewrite invoked_settle_body, invoked_mark.
    destruct (decide (i = i)); [lia | congruence].
  - destruct (exchangeId q') as [j |]; [| destruct (IH n p Hn); [contradiction | assumption]].
    destruct (qualifies q' && negb (bool_decide (j ∈ autoVerified p)));
      [| destruct (IH n p Hn); [contradiction | assumption]].
    set (p1 := fst (settle_body j (oracle (verify_calls p ++ [j])%list) (fst (mark j p)))).
    assert (invoked i p1 = (invoked i p + if decide (j = i) then 1 else 0)%nat) as Hc
      by (unfold p1; now rewrite invoked_settle_body, invoked_mark).
    destruct (decide (j = i)) as [-> | Hji].
    + eapply Nat.lt_le_trans; [| apply loop_mono]. lia.
    + destruct (IH n p1 Hn) as [Hin1 | Hlt]; [| lia].
      exfalso. unfold p1 in Hin1.
      destruct (settle_body_facts j (oracle (verify_calls p ++ [j])%list) (fst (mark j p)))
        as (_ & Hsup & _).
      apply Hsup in Hin1. rewrite autoVerified_mark in Hin1. set_solver.
Qed.

(** C8.  Within one scan a failed verification is caught and reported: the
    [catch] block pushes the error toast, takes the id out of the handled
    set and falls through to [finally], so the loop goes on with the
    records left ([resume] continues with [advance] on them) and no
    exception leaves the loop.  Whatever way the requests of the scan end,
    each record of the snapshot that qualifies is reached: its id was
    handled when the scan began or the scan asks to verify it.  And since
    the failed id is out of the set, the next scan of a snapshot in which
    it qualifies asks to verify it again. *)
Theorem failed_verify_does_not_stop_scan
  (oracle : list string -> Js.completion Json.value) (ps : list proof) (n : nat)
  (q : proof) (i : string) (p : page) (e : Js.error) (sc : scan) :
  ps !! n = Some q -> qualifies q = true -> exchangeId q = Some i ->
  settle_body i (Js.Throw e) p
    = (Page (autoVerified p ∖ {[i]}) (delete i (verifying p))
            (toasts p ++ [failure_toast e]) (verify_calls p) (reloads p), Js.Normal tt) ∧
  resume sc (Js.Throw e) p = advance (rest sc) (fst (settle_body (awaiting sc) (Js.Throw e) p)) ∧
  (∀ err, snd (resume sc (Js.Throw e) p) ≠ Js.Throw err) ∧
  snd (autoVerifyPresentations oracle ps p) = Js.Normal tt ∧
  (i ∈ autoVerified p ∨
   (invoked i p < invoked i (fst (autoVerifyPresentations oracle ps p)))%nat) ∧
  (invoked i (fst (settle_body i (Js.Throw e) p))
   < invoked i (fst (autoVerifyPresentations oracle ps (fst (settle_body i (Js.Throw e) p)))))%nat.
Proof.
  intros Hn Hq Hid.
  split; [apply settle_body_failure |]. split; [apply resume_eq |]. split.
  { intros err. rewrite resume_eq.
    pose proof (advance_result (rest sc) (fst (settle_body (awaiting sc) (Js.Throw e) p))) as H.
    destruct (advance (rest sc) (fst (settle_body (awaiting sc) (Js.Throw e) p)))
      as [p' [[sc' |] | err']]; [discriminate | discriminate | contradiction]. }
  split; [apply loop_normal |]. split; [now apply (loop_reaches oracle i q n) |].
  destruct (loop_reaches oracle i q n ps (fst (settle_body i (Js.Throw e) p)) Hn Hq Hid)
    as [Hin | Hlt]; [| exact Hlt].
  rewrite settle_body_failure in Hin. simpl in Hin. set_solver.
Qed.

Lemma failed_verify_does_not_stop_scan_witness :
  [received "px-1"; received "px-2"] !! 1%nat = Some (received "px-2") ∧
  qualifies (received "px-2") = true ∧
  exchangeId (received "px-2") = Some "px-2" ∧
  (invoked "px-2" init
   < invoked "px-2" (fst (autoVerifyPresentations
                            (fun _ => Js.Throw (Js.new_Error "verify failed"))
                            [received "px-1"; received "px-2"] init)))%nat.
Proof.
  split; [reflexivity | split; [reflexivity | split; [reflexivity |]]].
  destruct (failed_verify_does_not_stop_scan
              (fun _ => Js.Throw (Js.new_Error "verify failed"))
              [received "px-1"; received "px-2"] 1 (received "px-2") "px-2" init
              (Js.new_Error "verify failed") (Scan "px-1" [received "px-2"])
              eq_refl eq_refl eq_refl) as (_ & _ & _ & _ & [Hin | Hlt] & _).
  - apply not_elem_of_empty in Hin. destruct Hin.
  - exact Hlt.
Defined.

(** C2, as amended.  On a mounted [ProofsPage], once the verification of an
    id has succeeded, the id stays in the handled set and the scanner never
    asks to verify it again, whatever snapshots arrive and whatever else
    settles afterwards, the record re-qualifying among it.  After a failed
    verification the id is out of the set, and the next scan of a snapshot
    in which it qualifies asks to verify it again.  The set is the ref of the
    mounted page: it lasts as long as that page instance does. *)
Theorem verified_once_while_mounted
  (evs0 evs : list event) (k : nat) (sc : scan) (v : Json.value) (e : Js.error)
  (oracle : list string -> Js.completion Json.value) (ps : list proof) (n : nat) (q : proof) :
  scans (run evs0 start) !! k = Some sc ->
  ps !! n = Some q -> qualifies q = true -> exchangeId q = Some (awaiting sc) ->
  invoked (awaiting sc) (pg (run evs (step (Settle k (Js.Normal v)) (run evs0 start))))
    = invoked (awaiting sc) (pg (run evs0 start)) ∧
  (awaiting sc ∈ autoVerified (pg (run evs (step (Settle k (Js.Normal v)) (run evs0 start))))) ∧
  (awaiting sc ∉ autoVerified (fst (settle_body (awaiting sc) (Js.Throw e) (pg (run evs0 start))))) ∧
  (invoked (awaiting sc) (fst (settle_body (awaiting sc) (Js.Throw e) (pg (run evs0 start))))
   < invoked (awaiting sc)
       (fst (autoVerifyPresentations oracle ps
               (fst (settle_body (awaiting sc) (Js.Throw e) (pg (run evs0 start)))))))%nat.
Proof.
  intros Hk Hn Hq Hid.
  assert (scan_inv (run evs0 start)) as Hinv by apply scan_inv_run, scan_inv_start.
  destruct (success_step k sc v _ Hinv Hk) as (Hi & Hna & Hc).
  destruct (handled_run (awaiting sc) evs _ Hi Hna) as [Hi' Hc'].
  split; [congruence |]. split; [exact Hi' |].
  assert (awaiting sc ∉ autoVerified (fst (settle_body (awaiting sc) (Js.Throw e)
                                             (pg (run evs0 start))))) as Hout
    by (rewrite settle_body_failure; simpl; set_solver).
  split; [exact Hout |].
  destruct (loop_reaches oracle (awaiting sc) q n ps
              (fst (settle_body (awaiting sc) (Js.Throw e) (pg (run evs0 start)))) Hn Hq Hid)
    as [Hin | Hlt]; [contradiction | exact Hlt].
Qed.

Lemma verified_once_while_mounted_witness :
  scans (run [Snapshot [received "px-1"]] start) !! 0%nat = Some (Scan "px-1" []) ∧
  [received "px-1"] !! 0%nat = Some (received "px-1") ∧
  qualifies (received "px-1") = true ∧
  exchangeId (received "px-1") = Some "px-1" ∧
  invoked "px-1" (pg (run [Snapshot [received "px-1"]; Settle 0 (Js.Normal Json.JNull);
                           Snapshot [received "px-1"]; Snapshot [received "px-1"]] start))
    = 1%nat.
Proof.
  split; [reflexivity | split; [reflexivity | split; [reflexivity | split; [reflexivity |]]]].
  apply (verified_once_while_mounted [Snapshot [received "px-1"]]
           [Snapshot [received "px-1"]; Snapshot [received "px-1"]] 0 (Scan "px-1" [])
           Json.JNull (Js.new_Error "verify failed") (fun _ => Js.Normal Json.JNull)
           [received "px-1"] 0 (received "px-1")); reflexivity.
Defined.

(** C2 as stated fails: the handled set does not last for the life of the
    process.  The proofs page is mounted, a snapshot shows [px-1] received,
    the scanner verifies it and the verification succeeds; the user leaves
    the page and comes back (a new mount), and the next snapshot still shows
    [px-1] received: the scanner asks to verify it a second time. *)
Lemma remount_verifies_again :
  pinvoked "px-1" (prun [Mount; Refresh [received "px-1"];
                         Settled 0 0 (Js.Normal Json.JNull)] []) = 1%nat ∧
  map (fun s => (elements (autoVerified (pg s)), toasts (pg s), scans s))
      (prun [Mount; Refresh [received "px-1"]; Settled 0 0 (Js.Normal Json.JNull)] [])
    = [(["px-1"], [success_toast "px-1"], [])] ∧
  pinvoked "px-1" (prun [Mount; Refresh [received "px-1"];
                         Settled 0 0 (Js.Normal Json.JNull);
                         Mount; Refresh [received "px-1"]] []) = 2%nat.
Proof. vm_compute. auto. Qed.

End AutoVerifyProps.

(** ** Faber's background send: timeout and terminal states *)

Section BackgroundSendProps.
Import BackgroundSend.

Ltac run_send :=
  cbv [on_settled on_result on_error clearTimeout mark_settled setPendingCredentials
       setSending pushToast setTask Js.bind Js.ret Js.throw Js.modify Js.get Js.await
       Js.try_catch Js.try_finally].

Lemma on_settled_fields (pid : string) (t0 : Z) (r : settled Json.value) (w : world) :
  now (fst (on_settled pid t0 r w)) = now w ∧
  pendingCredentials (fst (on_settled pid t0 r w))
    = map (settled_item pid (now w - t0) r) (pendingCredentials w) ∧
  sendingFlag (fst (on_settled pid t0 r w)) = false ∧
  tk (fst (on_settled pid t0 r w))
    = option_map (fun t => Task (pendingId t) (t_start t) None (aborted t) (request_settled t))
                 (tk w).
Proof. destruct r; repeat split. Qed.

Lemma settled_item_status (pid : string) (d : Z) (r : settled Json.value) (item : PendingItem) :
  id (settled_item pid d r item) = id item ∧
  (id item = pid -> status (settled_item pid d r item) ≠ sending) ∧
  (id item ≠ pid -> settled_item pid d r item = item).
Proof.
  unfold settled_item. destruct (String.eqb_spec (id item) pid) as [E | E].
  - destruct r; simpl; repeat split; try discriminate; intros; congruence.
  - repeat split; intros; congruence.
Qed.

Lemma sendCredential_starts (fm : form) (rand : string) (w : world) :
  starts fm rand w = true ->
  ∃ item,
    id item = "cred-" ++ show (now w) ++ "-" ++ rand ∧ status item = sending ∧
    startTime item = now w ∧
    fst (sendCredential fm rand w)
    = World (now w) (pendingCredentials w ++ [item]) true (toasts w)
            (Some (Task ("cred-" ++ show (now w) ++ "-" ++ rand) (now w)
                        (Some (now w + SEND_TIMEOUT_MS)) false false)).
Proof.
  unfold starts. intros H.
  apply andb_prop in H as [H _]. apply andb_prop in H as [H Hattrs].
  apply andb_prop in H as [H Hmeta]. apply andb_prop in H as [H Hdef].
  apply andb_prop in H as [Hflag Hconn]. apply negb_true_iff in Hflag.
  unfold sendCredential. run_send. rewrite Hflag, Hconn, Hdef. simpl.
  destruct (schemaMeta fm) as [issuer |]; [| discriminate].
  destruct (attributeValues fm) as [| a l]; [discriminate |].
  exists (PendingItem_ ("cred-" ++ show (now w) ++ "-" ++ rand) (f_credDefId fm)
            (f_connectionId fm) (Js.or_else (f_comment fm) ("Credential from " ++ issuer))
            (map (fun a => (fst a, default EmptyString (snd a))) (a :: l))
            (now w) sending None None false None).
  repeat split.
Qed.

Lemma send_inv_started (fm : form) (rand : string) (w : world) :
  starts fm rand w = true ->
  send_inv ("cred-" ++ show (now w) ++ "-" ++ rand) (now w) (fst (sendCredential fm rand w)).
Proof.
  intros H. destruct (sendCredential_starts fm rand w H) as (item & Hid & Hst & _ & ->).
  eexists. split; [reflexivity |]. repeat split. simpl.
  apply Forall_app. split.
  - unfold starts in H. apply andb_prop in H as [_ H].
    rewrite forallb_forall in H. apply Forall_forall. intros x Hx Hidx.
    apply list_elem_of_In, H in Hx. rewrite Hidx, String.eqb_refl in Hx. discriminate.
  - constructor; [auto | constructor].
Qed.

Lemma Forall_filter_keep {A} (P Q : A -> Prop) `{∀ x, Decision (Q x)} (l : list A) :
  Forall P l -> Forall P (filter Q l).
Proof.
  rewrite !Forall_forall. intros HP x Hx. apply list_elem_of_filter in Hx as [_ Hx]. auto.
Qed.

Lemma step_timer_due (t : task) (due : Z) (w : world) :
  tk w = Some t -> timer t = Some due -> due <= now w -> request_settled t = false ->
  tk (step TimerFires w) = Some (Task (pendingId t) (t_start t) None true true) ∧
  now (step TimerFires w) = now w ∧
  pendingCredentials (step TimerFires w)
    = map (settled_item (pendingId t) (now w - t_start t) (Rejected AbortError))
          (pendingCredentials w).
Proof.
  intros Htk Htimer Hdue Hset. unfold step. rewrite Htk, Htimer, Hset.
  apply Z.leb_le in Hdue. rewrite Hdue.
  run_send. rewrite Htk. repeat split.
Qed.

Lemma step_timer_idle (w : world) :
  (∀ t, tk w = Some t -> timer t = None ∨ ∃ due, timer t = Some due ∧ now w < due) ->
  step TimerFires w = w.
Proof.
  intros H. unfold step. destruct (tk w) as [t |]; [| reflexivity].
  destruct (H t eq_refl) as [-> | (due & -> & Hlt)]; [reflexivity |].
  apply Z.leb_gt in Hlt. now rewrite Hlt.
Qed.

Lemma step_reply_open (t : task) (r : settled Json.value) (w : world) :
  tk w = Some t -> request_settled t = false -> aborted t = false ->
  tk (step (Replies r) w) = Some (Task (pendingId t) (t_start t) None false true) ∧
  now (step (Replies r) w) = now w ∧
  pendingCredentials (step (Replies r) w)
    = map (settled_item (pendingId t) (now w - t_start t) r) (pendingCredentials w).
Proof.
  intros Htk Hset Hab. unfold step. rewrite Htk, Hset, Hab. simpl.
  run_send. rewrite Htk. destruct r; repeat split.
Qed.

Lemma step_reply_closed (t : task) (r : settled Json.value) (w : world) :
  tk w = Some t -> request_settled t || aborted t = true -> step (Replies r) w = w.
Proof. intros Htk H. unfold step. now rewrite Htk, H. Qed.

Lemma send_inv_step (pid : string) (t0 : Z) (e : event) (w : world) :
  send_inv pid t0 w -> send_inv pid t0 (step e w).
Proof.
  intros (t & Htk & Hpid & Ht0 & Hinv). destruct e as [dt | | r | i |].
  - exists t. split; [exact Htk |]. split; [exact Hpid |]. split; [exact Ht0 |].
    destruct (request_settled t); [| exact Hinv].
    destruct Hinv as (Htm & Hdue & Hall). repeat split; try assumption.
    simpl. intros Hab. specialize (Hdue Hab). lia.
  - destruct (request_settled t) eqn:Hset.
    + rewrite step_timer_idle.
      * exists t. rewrite Hset. tauto.
      * intros t' Ht'. rewrite Htk in Ht'. injection Ht' as <-. left. apply Hinv.
    + destruct Hinv as (Htm & Hab & Hall).
      destruct (Z_le_gt_dec (t0 + SEND_TIMEOUT_MS) (now w)) as [Hdue | Hearly].
      * destruct (step_timer_due t _ w Htk Htm Hdue Hset) as (Htk' & Hnow & Hitems).
        eexists. split; [exact Htk' |]. split; [exact Hpid |]. split; [exact Ht0 |].
        cbn [pendingId t_start timer aborted request_settled].
        split; [reflexivity |]. split; [rewrite Hnow; auto |].
        rewrite Hitems. apply Forall_fmap. eapply Forall_impl; [exact Hall |].
        intros item _ Hid. cbn beta in Hid.
        destruct (settled_item_status (pendingId t) (now w - t_start t)
                    (Rejected AbortError) item) as (Hid' & Hterm & _).
        rewrite Hid', <- Hpid in Hid. split; [now apply Hterm |]. intros _.
        unfold settled_item. rewrite Hid, String.eqb_refl. now split.
      * rewrite step_timer_idle.
        -- exists t. rewrite Hset. tauto.
        -- intros t' Ht'. rewrite Htk in Ht'. injection Ht' as <-. right.
           exists (t0 + SEND_TIMEOUT_MS). split; [exact Htm | lia].
  - destruct (request_settled t) eqn:Hset.
    + rewrite (step_reply_closed t) by (rewrite ?Hset; auto).
      exists t. rewrite Hset. tauto.
    + destruct Hinv as (Htm & Hab & Hall).
      destruct (step_reply_open t r w Htk Hset Hab) as (Htk' & Hnow & Hitems).
      eexists. split; [exact Htk' |]. split; [exact Hpid |]. split; [exact Ht0 |].
        cbn [pendingId t_start timer aborted request_settled].
      split; [reflexivity |]. split; [discriminate |].
      rewrite Hitems. apply Forall_fmap. eapply Forall_impl; [exact Hall |].
      intros item _ Hid. cbn beta in Hid.
      destruct (settled_item_status (pendingId t) (now w - t_start t) r item)
        as (Hid' & Hterm & _).
      rewrite Hid', <- Hpid in Hid. split; [now apply Hterm | discriminate].
  - exists t. split; [exact Htk |]. split; [exact Hpid |]. split; [exact Ht0 |].
    destruct (request_settled t).
    + destruct Hinv as (Htm & Hdue & Hall). repeat split; try assumption.
      now apply Forall_filter_keep.
    + destruct Hinv as (Htm & Hab & Hall). repeat split; try assumption.
      now apply Forall_filter_keep.
  - exists t. split; [exact Htk |]. split; [exact Hpid |]. split; [exact Ht0 |].
    destruct (request_settled t).
    + destruct Hinv as (Htm & Hdue & Hall). repeat split; try assumption.
      now apply Forall_filter_keep.
    + destruct Hinv as (Htm & Hab & Hall). repeat split; try assumption.
      now apply Forall_filter_keep.
Qed.

Lemma send_inv_run (pid : string) (t0 : Z) (evs : list event) (w : world) :
  send_inv pid t0 w -> send_inv pid t0 (run evs w).
Proof.
  revert w. induction evs as [| e evs IH]; intros w H; [exact H |].
  simpl. apply IH. now apply send_inv_step.
Qed.

Lemma find_fmap_id (pid : string) (f : PendingItem -> PendingItem) (l : list PendingItem) :
  (∀ x, id (f x) = id x) ->
  find (fun item => String.eqb (id item) pid) (map f l)
  = option_map f (find (fun item => String.eqb (id item) pid) l).
Proof.
  intros Hf. induction l as [| x l IH]; [reflexivity |].
  simpl. rewrite Hf. destruct (String.eqb (id x) pid); [reflexivity | exact IH].
Qed.



Lemma entry_listed (pid : string) (t0 : Z) (w : world) (item : PendingItem) :
  send_inv pid t0 w -> entry w = Some item ->
  id item = pid ∧ item ∈ pendingCredentials w.
Proof.
  intros (t & Htk & Hpid & _) He. unfold entry in He. rewrite Htk in He.
  apply find_some in He as [Hin Heq]. apply String.eqb_eq in Heq.
  split; [congruence | now apply list_elem_of_In].
Qed.


Lemma sending_is_open (pid : string) (t0 : Z) (w : world) (item : PendingItem) :
  send_inv pid t0 w -> entry w = Some item -> status item = sending ->
  ∃ t, tk w = Some t ∧ pendingId t = pid ∧ t_start t = t0 ∧ request_settled t = false ∧
       timer t = Some (t0 + SEND_TIMEOUT_MS) ∧ aborted t = false.
Proof.
  intros Hinv He Hst. destruct (entry_listed pid t0 w item Hinv He) as [Hid Hin].
  destruct Hinv as (t & Htk & Hpid & Ht0 & Hinv). exists t.
  destruct (request_settled t).
  - destruct Hinv as (_ & _ & Hall). rewrite Forall_forall in Hall.
    destruct (Hall item Hin Hid) as [Hterm _]. contradiction.
  - tauto.
Qed.

Lemma entry_after_settle (pid : string) (d : Z) (r : settled Json.value) (t' : task)
  (w w' : world) (item : PendingItem) :
  (∃ t, tk w = Some t ∧ pendingId t = pid) -> entry w = Some item ->
  tk w' = Some t' -> pendingId t' = pid ->
  pendingCredentials w' = map (settled_item pid d r) (pendingCredentials w) ->
  entry w' = Some (settled_item pid d r item).
Proof.
  intros (t & Htk & Hpid) He Htk' Hpid' Hitems. unfold entry in *.
  rewrite Htk in He. rewrite Htk', Hitems, Hpid'. rewrite Hpid in He.
  rewrite find_fmap_id by (intros x; apply settled_item_status).
  now rewrite He.
Qed.






End BackgroundSendProps.


(** ** [truncateMiddle] *)

Section TruncateProps.
Import Truncate.

Lemma length_chars (s : string) : List.length (chars s) = String.length s.
Proof. induction s as [| c s IH]; simpl; [reflexivity | now rewrite IH]. Qed.

Lemma length_text_of (l : list ascii) : String.length (text_of l) = List.length l.
Proof. induction l as [| c l IH]; simpl; [reflexivity | now rewrite IH]. Qed.

Lemma chars_text_of (l : list ascii) : chars (text_of l) = l.
Proof. apply list_ascii_of_string_of_list_ascii. Qed.

Lemma text_of_chars (s : string) : text_of (chars s) = s.
Proof. apply string_of_list_ascii_of_string. Qed.

Lemma chars_append (s1 s2 : string) : chars (s1 ++ s2) = (chars s1 ++ chars s2)%list.
Proof. induction s1 as [| c s1 IH]; simpl; [reflexivity | now rewrite IH]. Qed.

Lemma length_append (s1 s2 : string) :
  String.length (s1 ++ s2) = (String.length s1 + String.length s2)%nat.
Proof. induction s1 as [| c s1 IH]; simpl; [reflexivity | now rewrite IH]. Qed.

Lemma truncateMiddle_long (str : string) (front back : nat) :
  Js.truthy str = true -> (front + back + 3 < String.length str)%nat ->
  truncateMiddle (Some str) front back
  = slice_front front str ++ "..." ++ slice_back back str.
Proof.
  intros Ht Hlen. unfold truncateMiddle. rewrite Ht.
  apply Nat.leb_gt in Hlen. now rewrite Hlen.
Qed.

(** X1.  With a positive [back], a value longer than [front + back + 3] is cut
    to exactly [front + back + 3] characters: its first [front], three dots,
    and its last [back]. *)
Theorem truncateMiddle_cuts (str : string) (front back : nat) :
  (0 < back)%nat -> (front + back + 3 < String.length str)%nat ->
  String.length (truncateMiddle (Some str) front back) = (front + back + 3)%nat ∧
  chars (truncateMiddle (Some str) front back)
  = (take front (chars str) ++ chars "..." ++
     drop (String.length str - back) (chars str))%list.
Proof.
  intros Hback Hlen.
  assert (Js.truthy str = true) as Ht by (destruct str; [simpl in Hlen; lia | reflexivity]).
  rewrite truncateMiddle_long by assumption.
  unfold slice_front, slice_back. destruct back as [| b]; [lia |].
  split.
  - rewrite !length_append, !length_text_of, length_take, length_drop, length_chars.
    simpl. lia.
  - now rewrite !chars_append, !chars_text_of.
Qed.

Lemma truncateMiddle_cuts_witness :
  (0 < 6)%nat ∧ (10 + 6 + 3 < String.length "3fa85f64-5717-4562-b3fc-2c963f66afa6")%nat ∧
  truncateMiddle (Some "3fa85f64-5717-4562-b3fc-2c963f66afa6") 10 6 = "3fa85f64-5...66afa6".
Proof.
  split; [lia |]. split; [simpl; lia |].
  destruct (truncateMiddle_cuts "3fa85f64-5717-4562-b3fc-2c963f66afa6" 10 6) as [_ H];
    [lia | simpl; lia |].
  rewrite <- (text_of_chars (truncateMiddle _ _ _)). rewrite H. reflexivity.
Defined.

(** X2.  With [back = 0] nothing is cut: [slice(-0)] is the whole string, so a
    value longer than [front + 3] comes back as its first [front]
    characters, three dots and then the whole value again, [front + 3]
    characters longer than it was. *)
Theorem truncateMiddle_back_zero_grows (str : string) (front : nat) :
  (front + 3 < String.length str)%nat ->
  truncateMiddle (Some str) front 0 = slice_front front str ++ "..." ++ str ∧
  String.length (truncateMiddle (Some str) front 0) = (front + 3 + String.length str)%nat.
Proof.
  intros Hlen.
  assert (Js.truthy str = true) as Ht by (destruct str; [simpl in Hlen; lia | reflexivity]).
  rewrite truncateMiddle_long by (try assumption; lia).
  split; [reflexivity |].
  unfold slice_front, slice_back.
  rewrite !length_append, length_text_of, length_take, length_chars. simpl. lia.
Qed.

Lemma truncateMiddle_back_zero_grows_witness :
  (3 + 3 < String.length "Bad Gateway")%nat ∧
  truncateMiddle (Some "Bad Gateway") 3 0 = "Bad...Bad Gateway".
Proof.
  split; [simpl; lia |].
  destruct (truncateMiddle_back_zero_grows "Bad Gateway" 3) as [H _]; [simpl; lia |].
  rewrite H. reflexivity.
Defined.

(** X3.  Whatever the value, the cell is never empty: a missing or empty value
    shows as a dash, a short one whole, a long one cut around three dots. *)
Theorem truncateMiddle_never_empty (value : option string) (front back : nat) :
  truncateMiddle value front back ≠ EmptyString.
Proof.
  unfold truncateMiddle. destruct value as [str |]; [| discriminate].
  destruct (Js.truthy str) eqn:Ht; [| discriminate].
  destruct (String.length str <=? front + back + 3)%nat.
  - now apply truthy_nonempty.
  - intros H. apply (f_equal String.length) in H.
    rewrite !length_append in H. simpl in H. lia.
Qed.

End TruncateProps.


(** ** [useToasts] *)

Section ToastsProps.
Import Toasts.

Lemma existsb_eqb_elem_of (x : string) (l : list string) :
  existsb (String.eqb x) l = true <-> x ∈ l.
Proof.
  rewrite existsb_exists. split.
  - intros (y & Hy & Heq). apply String.eqb_eq in Heq. subst. now apply list_elem_of_In.
  - intros H. exists x. split; [now apply list_elem_of_In | apply String.eqb_refl].
Qed.

Lemma remove_disarm (id : string) (t0 : Z) (l : list entry) (ts : list (string * Z)) :
  map e_id l = map fst ts -> NoDup (map e_id l) ->
  existsb (fun t => String.eqb (fst t) id && (snd t <=? t0)) ts = true ->
  map e_id (remove id l) = map fst (disarm id t0 ts) ∧
  NoDup (map e_id (remove id l)) ∧
  (∀ j, j ∈ map e_id (remove id l) <-> j ∈ map e_id l ∧ j ≠ id).
Proof.
  revert ts. induction l as [| e l IH]; intros [| t ts] Hmap Hnd Hdue; try discriminate.
  simpl in Hmap. injection Hmap as Hhd Htl. simpl in Hnd. apply NoDup_cons in Hnd as [Hnotin Hnd].
  unfold remove in *. rewrite filter_cons. simpl in Hdue |- *.
  destruct (String.eqb_spec (fst t) id) as [Heq | Hne]; simpl in *.
  - (* the head carries the id: one timer per id, so this is the one *)
    assert (e_id e = id) as He by congruence.
    assert (filter (fun e0 => e_id e0 ≠ id) l = l) as Hsame.
    { clear -Hnotin He. induction l as [| x l IH]; [reflexivity |].
      rewrite filter_cons. simpl in Hnotin. apply not_elem_of_cons in Hnotin as [Hx Hl].
      destruct (decide (e_id x ≠ id)) as [_ | Hc];
        [now rewrite IH | exfalso; apply Hc; congruence]. }
    destruct (decide (e_id e ≠ id)) as [Hc | _]; [congruence |].
    rewrite Hsame.
    destruct (snd t <=? t0) eqn:Hle.
    + split; [exact Htl |]. split; [exact Hnd |].
      intros j. split.
      * intros Hj. split; [simpl; now right | intros ->; congruence].
      * intros [Hj Hjid]. simpl in Hj. apply elem_of_cons in Hj as [-> | Hj]; congruence.
    + (* not due: a later timer of the same id would repeat the id *)
      exfalso. apply existsb_exists in Hdue as (t' & Hin & Ht').
      apply andb_prop in Ht' as [Ht' _]. apply String.eqb_eq in Ht'.
      apply Hnotin. rewrite He, Htl, <- Ht'. apply list_elem_of_In, in_map, Hin.
  - destruct (decide (e_id e ≠ id)) as [_ | Hc]; [| exfalso; apply Hc; congruence].
    destruct (IH ts Htl Hnd Hdue) as (H1 & H2 & H3). simpl.
    split; [congruence |]. split.
    + apply NoDup_cons. split; [| exact H2]. rewrite H3. tauto.
    + intros j. rewrite !elem_of_cons, H3. split.
      * intros [-> | [Hj Hjid]]; split; auto. congruence.
      * intros [[-> | Hj] Hjid]; auto.
Qed.

Lemma paired_step (e : event) (s : stack) :
  paired s -> fresh_pushes [e] s = true -> paired (step e s).
Proof.
  intros [Hids Hnd] Hfresh. destruct e as [dt | id t ttl | id]; simpl.
  - now split.
  - simpl in Hfresh. rewrite andb_true_r in Hfresh. apply andb_prop in Hfresh as [Hf _].
    apply negb_true_iff in Hf.
    assert (id ∉ ids s) as Hnot.
    { intros Hin. apply existsb_eqb_elem_of in Hin. congruence. }
    unfold paired, ids, push in *. simpl. rewrite !map_app. simpl. split; [now rewrite Hids |].
    apply NoDup_app. split; [exact Hnd |]. split; [| apply NoDup_singleton].
    intros x Hx Hx'. apply list_elem_of_singleton in Hx'. now subst.
  - destruct (due id s) eqn:Hdue; [| now split].
    destruct (remove_disarm id (now s) (items s) (timers s) Hids Hnd Hdue) as (H1 & H2 & _).
    now split.
Qed.

Lemma paired_run (evs : list event) (s : stack) :
  paired s -> fresh_pushes evs s = true -> paired (run evs s).
Proof.
  revert s. induction evs as [| e evs IH]; intros s Hp Hf; [exact Hp |].
  simpl in Hf. apply andb_prop in Hf as [He Hf]. simpl. apply IH; [| exact Hf].
  apply paired_step; [exact Hp |]. simpl. now rewrite He.
Qed.

(** X4.  No toast is left behind and no timer fires into the void: as long as
    the generated ids are fresh, the toasts on screen and the armed
    removal timers carry the same ids, in the same order, each once. *)
Theorem toasts_paired_with_timers (evs : list event) :
  fresh_pushes evs empty = true ->
  ids (run evs empty) = map fst (timers (run evs empty)) ∧ NoDup (ids (run evs empty)).
Proof.
  intros Hf. apply (paired_run evs empty); [| exact Hf]. split; [reflexivity | constructor].
Qed.

Lemma toasts_paired_with_timers_witness :
  fresh_pushes [Push "a" (Toast "Saved" "ok" "success") None; Tick 4500;
                Push "b" (Toast "Failed" "no" "error") (Some 1000); Fire "a"] empty = true ∧
  ids (run [Push "a" (Toast "Saved" "ok" "success") None; Tick 4500;
            Push "b" (Toast "Failed" "no" "error") (Some 1000); Fire "a"] empty)
  = map fst (timers (run [Push "a" (Toast "Saved" "ok" "success") None; Tick 4500;
                          Push "b" (Toast "Failed" "no" "error") (Some 1000); Fire "a"] empty)).
Proof.
  split; [reflexivity |].
  apply (toasts_paired_with_timers
           [Push "a" (Toast "Saved" "ok" "success") None; Tick 4500;
            Push "b" (Toast "Failed" "no" "error") (Some 1000); Fire "a"]).
  reflexivity.
Defined.

Lemma run_app_toasts (evs1 evs2 : list event) (s : stack) :
  run (evs1 ++ evs2) s = run evs2 (run evs1 s).
Proof. unfold run. apply fold_left_app. Qed.

Lemma fresh_pushes_app (evs1 evs2 : list event) (s : stack) :
  fresh_pushes (evs1 ++ evs2) s = fresh_pushes evs1 s && fresh_pushes evs2 (run evs1 s).
Proof.
  revert s. induction evs1 as [| e evs1 IH]; intros s; [reflexivity |].
  simpl. rewrite IH. now rewrite andb_assoc.
Qed.

Lemma now_mono (evs : list event) (s : stack) : now s <= now (run evs s).
Proof.
  revert s. induction evs as [| e evs IH]; intros s; [simpl; lia |].
  simpl. etransitivity; [| apply IH].
  destruct e as [dt | id t ttl | id]; simpl; [lia | lia |].
  destruct (due id s); simpl; lia.
Qed.

(** With one timer per id, a due timer of [id] is the timer of [id]. *)
Lemma due_is_own (id : string) (d t0 : Z) (ts : list (string * Z)) :
  NoDup (map fst ts) -> (id, d) ∈ ts ->
  existsb (fun t => String.eqb (fst t) id && (snd t <=? t0)) ts = true -> d <= t0.
Proof.
  intros Hnd Hin Hdue. apply existsb_exists in Hdue as ([j d'] & Hin' & Ht).
  apply andb_prop in Ht as [Hj Hd]. apply String.eqb_eq in Hj. apply Z.leb_le in Hd.
  simpl in Hj, Hd. subst j. apply list_elem_of_In in Hin'.
  enough (d = d') by lia.
  clear -Hnd Hin Hin'. induction ts as [| [k x] ts IH]; [inversion Hin |].
  simpl in Hnd. apply NoDup_cons in Hnd as [Hk Hnd].
  apply elem_of_cons in Hin as [Hin | Hin]; apply elem_of_cons in Hin' as [Hin' | Hin'].
  - congruence.
  - injection Hin as -> ->. exfalso. apply Hk.
    apply list_elem_of_fmap. exists (k, d'). split; [reflexivity | exact Hin'].
  - injection Hin' as -> ->. exfalso. apply Hk.
    apply list_elem_of_fmap. exists (k, d). split; [reflexivity | exact Hin].
  - now apply IH.
Qed.

Lemma disarm_keeps (id j : string) (d t0 : Z) (ts : list (string * Z)) :
  j ≠ id -> (id, d) ∈ ts -> (id, d) ∈ disarm j t0 ts.
Proof.
  intros Hne. induction ts as [| [k x] ts IH]; intros Hin; [inversion Hin |].
  simpl. destruct (String.eqb_spec k j) as [-> | Hk]; simpl.
  - apply elem_of_cons in Hin as [Hin | Hin]; [congruence |].
    destruct (x <=? t0); [exact Hin | apply elem_of_cons; right; now apply IH].
  - apply elem_of_cons in Hin as [Hin | Hin]; apply elem_of_cons; [now left | right].
    now apply IH.
Qed.

Lemma shown_until_due (id : string) (d : Z) (evs : list event) (s : stack) :
  paired s -> (id, d) ∈ timers s -> fresh_pushes evs s = true ->
  now (run evs s) < d -> shown id (run evs s) = true.
Proof.
  revert s. induction evs as [| e evs IH]; intros s Hp Hin Hf Hnow.
  - simpl. apply existsb_eqb_elem_of. destruct Hp as [-> _].
    apply list_elem_of_fmap. exists (id, d). split; [reflexivity | exact Hin].
  - simpl in Hf. apply andb_prop in Hf as [He Hf]. simpl in Hnow |- *.
    assert (paired (step e s)) as Hp'
      by (apply paired_step; [exact Hp | simpl; now rewrite He]).
    apply IH; try assumption.
    pose proof (now_mono evs (step e s)) as Hmono.
    destruct e as [dt | j t ttl | j]; simpl in *.
    + exact Hin.
    + apply elem_of_app. now left.
    + destruct (due j s) eqn:Hdue; [| exact Hin]. simpl in *.
      destruct (String.eqb_spec j id) as [-> | Hne].
      * exfalso. destruct Hp as [Hids Hnd]. rewrite Hids in Hnd.
        pose proof (due_is_own id d (now s) (timers s) Hnd Hin Hdue). lia.
      * now apply disarm_keeps.
Qed.

(** X5.  A toast stays on screen for at least its [ttl] (4500 ms when it has
    none): in every state in which the clock has not yet reached the time of
    the push plus the [ttl], the toast is still listed, whatever other
    toasts were pushed and removed meanwhile. *)
Theorem toast_shown_for_ttl
  (evs0 evs : list event) (id : string) (t : toast) (ttl : option Z) :
  fresh_pushes (evs0 ++ Push id t ttl :: evs) empty = true ->
  now (run (evs0 ++ Push id t ttl :: evs) empty) < now (run evs0 empty) + default 4500 ttl ->
  shown id (run (evs0 ++ Push id t ttl :: evs) empty) = true.
Proof.
  intros Hf Hnow. rewrite run_app_toasts in *. simpl in *.
  rewrite fresh_pushes_app in Hf. apply andb_prop in Hf as [Hf0 Hf].
  simpl in Hf. apply andb_prop in Hf as [Hpush Hf].
  assert (paired (run evs0 empty)) as Hp0
    by (apply paired_run; [split; [reflexivity | constructor] | exact Hf0]).
  apply (shown_until_due id (now (run evs0 empty) + default 4500 ttl) evs); try assumption.
  - apply (paired_step (Push id t ttl)); [exact Hp0 | simpl; now rewrite Hpush].
  - simpl. apply elem_of_app. right. now apply list_elem_of_singleton.
Qed.

Lemma toast_shown_for_ttl_witness :
  fresh_pushes ([Push "a" (Toast "Saved" "ok" "success") (Some 1000)] ++
                Push "b" (Toast "Copied!" "done" "success") None ::
                [Tick 1000; Fire "a"; Tick 3499; Fire "b"]) empty = true ∧
  shown "b" (run ([Push "a" (Toast "Saved" "ok" "success") (Some 1000)] ++
                  Push "b" (Toast "Copied!" "done" "success") None ::
                  [Tick 1000; Fire "a"; Tick 3499; Fire "b"]) empty) = true.
Proof.
  split; [reflexivity |].
  apply (toast_shown_for_ttl [Push "a" (Toast "Saved" "ok" "success") (Some 1000)]
           [Tick 1000; Fire "a"; Tick 3499; Fire "b"] "b"
           (Toast "Copied!" "done" "success") None); [reflexivity | simpl; lia].
Defined.

(** X6.  A removal timer that comes due takes exactly one toast off the screen,
    its own: the toast was shown, is gone afterwards, and every other
    toast stays. *)
Theorem toast_timer_removes_its_own (evs : list event) (id : string) :
  fresh_pushes evs empty = true ->
  due id (run evs empty) = true ->
  shown id (run evs empty) = true ∧
  shown id (step (Fire id) (run evs empty)) = false ∧
  S (List.length (items (step (Fire id) (run evs empty))))
  = List.length (items (run evs empty)) ∧
  ids (step (Fire id) (run evs empty)) = filter (fun j => j ≠ id) (ids (run evs empty)).
Proof.
  intros Hf Hdue. set (s := run evs empty) in *.
  assert (paired s) as [Hids Hnd]
    by (apply paired_run; [split; [reflexivity | constructor] | exact Hf]).
  assert (id ∈ ids s) as Hin.
  { rewrite Hids. unfold due in Hdue. apply existsb_exists in Hdue as (t & Ht & Hc).
    apply andb_prop in Hc as [Hc _]. apply String.eqb_eq in Hc. subst id.
    apply list_elem_of_In, in_map, Ht. }
  simpl. rewrite Hdue.
  destruct (remove_disarm id (now s) (items s) (timers s) Hids Hnd Hdue) as (_ & _ & Hchar).
  assert (ids (Stack (now s) (remove id (items s)) (disarm id (now s) (timers s)))
          = filter (fun j => j ≠ id) (ids s)) as Hfilter.
  { unfold ids, remove. simpl. clear. induction (items s) as [| e l IH]; [reflexivity |].
    simpl. rewrite !filter_cons. destruct (decide (e_id e ≠ id)); simpl; now rewrite IH. }
  split; [now apply existsb_eqb_elem_of |]. split.
  - destruct (shown id _) eqn:E; [| reflexivity].
    apply existsb_eqb_elem_of in E. unfold ids in E. simpl in E. apply Hchar in E. tauto.
  - split; [| exact Hfilter].
    apply (f_equal (@List.length string)) in Hfilter. unfold ids in Hfilter.
    rewrite !length_map in Hfilter. simpl in Hfilter.
    cbn [items]. rewrite Hfilter, <- (length_map e_id (items s)).
    unfold ids in Hin, Hnd. clear -Hin Hnd.
    induction (map e_id (items s)) as [| x l IH]; [inversion Hin |].
    apply NoDup_cons in Hnd as [Hx Hnd]. rewrite filter_cons.
    destruct (decide (x ≠ id)) as [Hne | Heq].
    + simpl. f_equal. apply IH; [exact Hnd |].
      apply elem_of_cons in Hin as [-> | Hin]; [congruence | exact Hin].
    + assert (x = id) as -> by (destruct (decide (x = id)); [assumption | contradiction]).
      f_equal. clear -Hx. induction l as [| y l IH]; [reflexivity |].
      apply not_elem_of_cons in Hx as [Hy Hl]. rewrite filter_cons.
      destruct (decide (y ≠ id)) as [_ | Hn]; [simpl; now rewrite IH |].
      exfalso. apply Hn. congruence.
Qed.

Lemma toast_timer_removes_its_own_witness :
  fresh_pushes [Push "a" (Toast "Saved" "ok" "success") None; Tick 4500] empty = true ∧
  due "a" (run [Push "a" (Toast "Saved" "ok" "success") None; Tick 4500] empty) = true ∧
  shown "a" (step (Fire "a")
               (run [Push "a" (Toast "Saved" "ok" "success") None; Tick 4500] empty)) = false.
Proof.
  split; [reflexivity |]. split; [reflexivity |].
  apply (toast_timer_removes_its_own [Push "a" (Toast "Saved" "ok" "success") None; Tick 4500]
           "a"); reflexivity.
Defined.

End ToastsProps.

(** ** [useAgentStatus] *)

Section AgentStatusProps.
Import AgentStatus.
Variable parse : string -> Js.completion Json.value.
Variable interval : Z.

Ltac run_poll :=
  cbv [poll_resume Js.bind Js.ret Js.throw Js.modify Js.get Js.await Js.try_catch
       Js.try_finally if_active setStatus setTimeout_poll fst snd].

(** What a resumed poll leaves, by whether the effect is still active. *)
Lemma poll_resume_active (fetched : Js.completion response) (s : loop) :
  active s = true ->
  ∃ v, fst (poll_resume parse interval fetched s)
       = Loop v true (Some (next_id s)) (in_flight s)
              (timers s ++ [(next_id s, now s + interval)])
              (S (next_id s)) (now s) (started s).
Proof.
  intros Ha. destruct s as [st a tm n ts k t0 l]. simpl in Ha. subst a. run_poll.
  destruct fetched as [res | e]; simpl; [| eauto].
  destruct (ok res); simpl; [| eauto].
  destruct (json parse res) as [body | e]; simpl; [| eauto].
  destruct (status_of body) as [v | e]; simpl; eauto.
Qed.

Lemma poll_resume_inactive (fetched : Js.completion response) (s : loop) :
  active s = false -> fst (poll_resume parse interval fetched s) = s.
Proof.
  intros Ha. destruct s as [st a tm n ts k t0 l]. simpl in Ha. subst a. run_poll.
  destruct fetched as [res | e]; simpl; [| reflexivity].
  destruct (ok res); simpl; [| reflexivity].
  destruct (json parse res) as [body | e]; reflexivity.
Qed.

Lemma poll_inv_start : poll_inv interval (start).
Proof.
  unfold poll_inv, start, poll_call. simpl. repeat split; try lia; try discriminate.
  left. now split.
Qed.

Lemma due_singleton (id : nat) (s : loop) :
  due id s = true -> ∃ d, (id, d) ∈ timers s ∧ d <= now s.
Proof.
  unfold due. intros H. apply existsb_exists in H as ([j d] & Hin & Hc).
  apply andb_prop in Hc as [Hj Hd]. apply Nat.eqb_eq in Hj. apply Z.leb_le in Hd.
  simpl in *. subst j. exists d. split; [now apply list_elem_of_In | exact Hd].
Qed.

Lemma poll_inv_step (e : event) (s : loop) :
  poll_inv interval s -> poll_inv interval (step parse interval e s).
Proof.
  intros Hinv. pose proof Hinv as (Hid & Hoff & Hone & Hnow & Hsp).
  destruct e as [dt | fetched | k |]; cbn [step].
  - (* Tick *)
    unfold poll_inv. simpl.
    split; [exact Hid |]. split; [exact Hoff |]. split; [exact Hone |]. split; [| exact Hsp].
    destruct (started s); [exact I | lia].
  - (* Settle *)
    destruct (in_flight s) as [| n] eqn:Hn; [exact Hinv |].
    destruct Hone as [[Hone Hts] | [Hone _]]; [| discriminate].
    injection Hone as ->.
    pose proof (poll_resume_active fetched
                  (Loop (status s) (active s) (timeout s) 0 (timers s)
                        (next_id s) (now s) (started s))) as Hon.
    pose proof (poll_resume_inactive fetched
                  (Loop (status s) (active s) (timeout s) 0 (timers s)
                        (next_id s) (now s) (started s))) as Hoff'.
    cbn [active status timeout in_flight timers next_id now started] in Hon, Hoff'.
    destruct (active s) eqn:Ha.
    + destruct (Hon eq_refl) as [v ->].
      unfold poll_inv. simpl. rewrite Hts. simpl.
      split; [lia |]. split; [discriminate |]. split; [| now split].
      right. split; [reflexivity |]. right.
      exists (next_id s), (now s + interval). repeat split; try lia.
      destruct (started s); [exact I | lia].
    + rewrite (Hoff' eq_refl).
      unfold poll_inv. simpl.
      split; [exact Hid |]. split; [intros _; exact Hts |].
      split; [right; split; [reflexivity | now left] |]. now split.
  - (* Fire *)
    destruct (due k s) eqn:Hdue; [| exact Hinv].
    apply due_singleton in Hdue as (d & Hin & Hd).
    destruct Hone as [[_ Hts] | [Hfl [Hts | (id' & d' & Hts & Htm & Hlt & Hgap)]]];
      try (rewrite Hts in Hin; inversion Hin; fail).
    rewrite Hts in Hin. apply list_elem_of_singleton in Hin. injection Hin as Hk Hd'. subst id' d'.
    assert (active s = true) as Ha.
    { destruct (active s); [reflexivity |]. rewrite Hoff in Hts by reflexivity. discriminate. }
    unfold poll_inv, poll_call. simpl. rewrite Hts. unfold clearTimeout.
    rewrite filter_cons, filter_nil. simpl.
    destruct (decide (k ≠ k)) as [Hne | _]; [congruence |].
    split; [exact Hid |]. split; [reflexivity |]. split; [left; split; [now rewrite Hfl | reflexivity] |].
    split; [lia |]. split; [| exact Hsp].
    destruct (started s); [exact I | lia].
  - (* Cleanup *)
    unfold poll_inv, cleanup. simpl.
    assert (match timeout s with
            | Some id => if (id =? 0)%nat then timers s else clearTimeout id (timers s)
            | None => timers s
            end = []) as ->.
    { destruct Hone as [[_ Hts] | [_ [Hts | (id & d & Hts & Htm & Hlt & _)]]].
      - rewrite Hts. destruct (timeout s) as [id |]; [destruct (id =? 0)%nat |]; reflexivity.
      - rewrite Hts. destruct (timeout s) as [id |]; [destruct (id =? 0)%nat |]; reflexivity.
      - rewrite Htm, Hts. destruct (Nat.eqb_spec id 0) as [-> | _]; [lia |].
        unfold clearTimeout. rewrite filter_cons, filter_nil. simpl.
        destruct (decide (id ≠ id)); [congruence | reflexivity]. }
    split; [exact Hid |]. split; [reflexivity |]. split; [| now split].
    destruct Hone as [[Hfl _] | [Hfl _]]; [left | right]; split; auto.
Qed.

Lemma poll_inv_run (evs : list event) (s : loop) :
  poll_inv interval s -> poll_inv interval (run parse interval evs s).
Proof.
  revert s. induction evs as [| e evs IH]; intros s Hs; [exact Hs |].
  simpl. apply IH, poll_inv_step, Hs.
Qed.

Lemma run_app_poll (evs1 evs2 : list event) (s : loop) :
  run parse interval (evs1 ++ evs2) s = run parse interval evs2 (run parse interval evs1 s).
Proof. unfold run. apply fold_left_app. Qed.

(** X7.  Polls never overlap: from the mount on, at any time either one request
    is awaited or one timer for the next poll is armed, never both and never
    two of either. *)
Theorem polls_never_overlap (evs : list event) :
  (in_flight (run parse interval evs start)
   + List.length (timers (run parse interval evs start)) <= 1)%nat.
Proof.
  destruct (poll_inv_run evs start poll_inv_start) as (_ & _ & Hone & _).
  destruct Hone as [[-> ->] | [-> [-> | (id & d & -> & _)]]]; simpl; lia.
Qed.

(** X8.  Two polls are never started less than [pollInterval] apart, however
    long the responses take and whenever the timers run. *)
Theorem polls_spaced_by_interval (evs : list event) :
  spaced interval (started (run parse interval evs start)).
Proof.
  pose proof (poll_inv_run evs start poll_inv_start) as Hinv.
  destruct Hinv as (_ & _ & _ & _ & Hsp). exact Hsp.
Qed.

Lemma stopped_step (e : event) (s : loop) :
  active s = false -> timers s = [] ->
  let s' := step parse interval e s in
  active s' = false ∧ timers s' = [] ∧ status s' = status s ∧ started s' = started s.
Proof.
  intros Ha Hts. destruct e as [dt | fetched | id |]; simpl.
  - now repeat split.
  - destruct (in_flight s); [now repeat split |].
    rewrite poll_resume_inactive by exact Ha. now repeat split.
  - unfold due. rewrite Hts. simpl. now repeat split.
  - rewrite Hts. repeat split.
    destruct (timeout s) as [id |]; [destruct (id =? 0)%nat |]; reflexivity.
Qed.

Lemma stopped_run (evs : list event) (s : loop) :
  active s = false -> timers s = [] ->
  let s' := run parse interval evs s in
  active s' = false ∧ timers s' = [] ∧ status s' = status s ∧ started s' = started s.
Proof.
  revert s. induction evs as [| e evs IH]; intros s Ha Hts; [now repeat split |].
  simpl. destruct (stopped_step e s Ha Hts) as (Ha' & Hts' & Hst & Hsd).
  destruct (IH _ Ha' Hts') as (? & ? & Hst' & Hsd').
  repeat split; try assumption; [now rewrite <- Hst | now rewrite <- Hsd].
Qed.

(** X9.  After the effect's cleanup the hook is quiet: no timer stays armed, no
    further request is started, and a response that arrives late no longer
    changes [status]. *)
Theorem cleanup_stops_polling (evs1 evs2 : list event) :
  let before := run parse interval evs1 start in
  let after := run parse interval (evs1 ++ Cleanup :: evs2) start in
  timers after = [] ∧ started after = started before ∧ status after = status before.
Proof.
  simpl. rewrite run_app_poll. simpl.
  set (s := run parse interval evs1 start).
  assert (poll_inv interval (cleanup s)) as (_ & Hoff & _)
    by (apply (poll_inv_step Cleanup), poll_inv_run, poll_inv_start).
  destruct (stopped_run evs2 (cleanup s) eq_refl (Hoff eq_refl)) as (_ & Hts & Hst & Hsd).
  repeat split; assumption.
Qed.

(** X10.  A poll that fails (the fetch rejects, the response is not OK or its
    body is not JSON) shows [down] and still arms the timer of the next
    poll, [pollInterval] from now. *)
Theorem failed_poll_shows_down_and_rearms
  (evs : list event) (fetched : Js.completion response) :
  let s := run parse interval evs start in
  active s = true -> in_flight s = 1%nat ->
  (∀ res, fetched = Js.Normal res -> ok res = true -> ∃ e, json parse res = Js.Throw e) ->
  let s' := step parse interval (Settle fetched) s in
  status s' = Json.JString "down" ∧
  in_flight s' = 0%nat ∧
  timers s' = [(next_id s, now s + interval)].
Proof.
  simpl. set (s := run parse interval evs start). intros Ha Hfl Hfail.
  assert (timers s = []) as Hts.
  { destruct (poll_inv_run evs start poll_inv_start) as (_ & _ & Hone & _). fold s in Hone.
    destruct Hone as [[_ H] | [H _]]; [exact H | congruence]. }
  rewrite Hfl. destruct s as [st a tm n ts k t0 l]. simpl in *. subst a ts. run_poll.
  destruct fetched as [res | e]; simpl; [| now repeat split].
  destruct (ok res) eqn:Hok; simpl; [| now repeat split].
  destruct (Hfail res eq_refl Hok) as [e ->]. simpl. now repeat split.
Qed.

End AgentStatusProps.

Lemma failed_poll_shows_down_and_rearms_witness :
  AgentStatus.status
    (AgentStatus.step Json.parse 10000 (AgentStatus.Settle (ok_response "<html>"))
       (AgentStatus.run Json.parse 10000 [AgentStatus.Tick 120] AgentStatus.start))
  = Json.JString "down" ∧
  AgentStatus.timers
    (AgentStatus.step Json.parse 10000 (AgentStatus.Settle (ok_response "<html>"))
       (AgentStatus.run Json.parse 10000 [AgentStatus.Tick 120] AgentStatus.start))
  = [(1%nat, 10120)].
Proof.
  destruct (failed_poll_shows_down_and_rearms Json.parse 10000 [AgentStatus.Tick 120]
              (ok_response "<html>") eq_refl eq_refl) as (H1 & _ & H2).
  - intros res Hres _. injection Hres as <-. exists Json.SyntaxError. reflexivity.
  - split; [exact H1 | exact H2].
Defined.

(** ** [useApi.request]: the error paths *)

Section ApiErrorProps.
Variable parse : string -> Js.completion Json.value.
Variable to_string : Json.value -> string.

(** X12.  The two versions of the hook differ on non-OK responses only: on a
    failed fetch and on every OK response they leave the same hook state and
    the same result. *)
Theorem hooks_agree_unless_not_ok (fetched : Js.completion response) (h : hook) :
  (∀ r, fetched = Js.Normal r -> ok r = true) ->
  ApiJsonErrors.request parse to_string fetched h = Api.request parse fetched h.
Proof.
  intros Hok. unfold ApiJsonErrors.request, Api.request.
  destruct fetched as [r | e]; run_js; [| reflexivity].
  rewrite (Hok r eq_refl). reflexivity.
Qed.

(** X13.  A non-OK response whose body is not JSON: the plain hook rejects with
    the body as the message, the hook that looks for a JSON error body
    rejects with a [ReferenceError] instead, and the server's text is
    lost. *)
Theorem non_json_error_body_is_lost
  (r : response) (body : string) (e : Js.error) (h : hook) :
  ok r = false -> text r = Js.Normal body -> Js.truthy body = true ->
  parse body = Js.Throw e ->
  Api.request parse (Js.Normal r) h
  = (Hook false (Some (Js.new_Error body)), Js.Throw (Js.new_Error body)) ∧
  ApiJsonErrors.request parse to_string (Js.Normal r) h
  = (Hook false (Some ApiJsonErrors.ReferenceError), Js.Throw ApiJsonErrors.ReferenceError).
Proof.
  intros Hok Htext Hbody Hparse. split.
  - unfold Api.request. run_js. rewrite Hok, Htext. simpl.
    unfold Js.or_else. rewrite Hbody. reflexivity.
  - unfold ApiJsonErrors.request, ApiJsonErrors.errorMessage. run_js.
    rewrite Hok, Htext. simpl. rewrite Hbody, Hparse. reflexivity.
Qed.

(** X14.  A non-OK response with a JSON object body: its [error] string, when not
    empty, is the message of the rejection, whatever [message] and the
    status text say. *)
Theorem json_error_field_is_the_message
  (r : response) (body msg : string) (members : list (string * Json.value)) (h : hook) :
  ok r = false -> text r = Js.Normal body -> Js.truthy body = true ->
  parse body = Js.Normal (Json.JObject members) ->
  Json.member "error" members = Some (Json.JString msg) -> Js.truthy msg = true ->
  ApiJsonErrors.request parse to_string (Js.Normal r) h
  = (Hook false (Some (Js.new_Error msg)), Js.Throw (Js.new_Error msg)).
Proof.
  intros Hok Htext Hbody Hparse Hmem Hmsg.
  unfold ApiJsonErrors.request, ApiJsonErrors.errorMessage. run_js.
  rewrite Hok, Htext. simpl. rewrite Hbody, Hparse. simpl. rewrite Hmem. simpl.
  rewrite Hmsg. reflexivity.
Qed.

End ApiErrorProps.

Lemma hooks_agree_unless_not_ok_witness :
  ApiJsonErrors.request Json.parse (fun _ => EmptyString) (ok_response "{}") idle
  = Api.request Json.parse (ok_response "{}") idle.
Proof.
  apply (hooks_agree_unless_not_ok Json.parse (fun _ => EmptyString) (ok_response "{}") idle).
  intros r Hr. injection Hr as <-. reflexivity.
Defined.

Lemma non_json_error_body_is_lost_witness :
  ApiJsonErrors.request Json.parse (fun _ => EmptyString)
    (Js.Normal (Response false 500 "Internal Server Error" (Js.Normal "<html>"))) idle
  = (Hook false (Some ApiJsonErrors.ReferenceError), Js.Throw ApiJsonErrors.ReferenceError).
Proof.
  apply (non_json_error_body_is_lost Json.parse (fun _ => EmptyString)
           (Response false 500 "Internal Server Error" (Js.Normal "<html>"))
           "<html>" Json.SyntaxError idle); reflexivity.
Defined.

Lemma json_error_field_is_the_message_witness :
  ApiJsonErrors.request Json.parse (fun _ => EmptyString)
    (Js.Normal (Response false 400 "Bad Request"
                  (Js.Normal sample_error_body))) idle
  = (Hook false (Some (Js.new_Error "no such connection")),
     Js.Throw (Js.new_Error "no such connection")).
Proof.
  apply (json_error_field_is_the_message Json.parse (fun _ => EmptyString)
           (Response false 400 "Bad Request"
              (Js.Normal sample_error_body))
           sample_error_body "no such connection"
           [("error", Json.JString "no such connection")] idle); reflexivity.
Defined.

(** ** Overlapping calls of [request] *)

Section ApiCallsProps.
Import ApiCalls.
Variable parse : string -> Js.completion Json.value.
Variable to_string : Json.value -> string.

(** Cutting [request] at its [await] loses nothing: a call that runs with
    nothing in between is [request] itself. *)
Lemma request_call_resume (v : version) (fetched : Js.completion response) (h : hook) :
  request parse to_string v fetched h
  = request_resume parse to_string v fetched (fst (request_call h)).
Proof. destruct v; reflexivity. Qed.

(** What the settling of a call writes, whatever the hook holds then. *)
Lemma request_resume_writes (v : version) (fetched : Js.completion response) (h : hook) :
  request_resume parse to_string v fetched h
  = match outcome parse to_string v fetched with
    | Js.Normal x => (Hook false (lastError h), Js.Normal x)
    | Js.Throw e => (Hook false (Some e), Js.Throw e)
    end.
Proof.
  unfold outcome, request_resume. destruct fetched as [r | e]; run_js; [| reflexivity].
  destruct r as [o st stx tx]; simpl. destruct o; simpl.
  - destruct (st =? 204); [reflexivity |].
    destruct tx as [body | e]; run_js; [| reflexivity].
    destruct (Js.truthy body); [| reflexivity].
    destruct (parse body); reflexivity.
  - destruct v.
    + destruct tx as [msg | e]; reflexivity.
    + unfold ApiJsonErrors.errorMessage. run_js. simpl.
      destruct tx as [data | e]; [| reflexivity].
      destruct (Js.truthy data); [| reflexivity].
      destruct (parse data) as [parsed | e]; [| reflexivity].
      destruct (Json.prop "error" parsed); [| reflexivity].
      destruct (Json.prop "message" parsed); reflexivity.
Qed.

Lemma run_app_calls (v : version) (evs1 evs2 : list event) (s : sys) :
  run parse to_string v (evs1 ++ evs2) s
  = run parse to_string v evs2 (run parse to_string v evs1 s).
Proof. unfold run. apply fold_left_app. Qed.

Lemma resolving_keeps_lastError (v : version) (evs : list event) (s : sys) :
  forallb (resolves parse to_string v) evs = true ->
  lastError (hk (run parse to_string v evs s)) = lastError (hk s).
Proof.
  revert s. induction evs as [| e evs IH]; intros s Hevs; [reflexivity |].
  simpl in Hevs. apply andb_prop in Hevs as [He Hevs].
  change (run parse to_string v (e :: evs) s)
    with (run parse to_string v evs (step parse to_string v e s)).
  rewrite IH by exact Hevs.
  destruct e as [| fetched]; [discriminate |].
  cbn [step]. destruct (awaited s); [reflexivity |]. cbn [hk].
  rewrite request_resume_writes. unfold resolves in He.
  destruct (outcome parse to_string v fetched); [reflexivity | discriminate].
Qed.

(** X11.  [lastError] under overlapping calls on one hook, for both
    versions: from the moment a call begins it is [null] for as long as the
    calls that settle resolve, however many do and whatever an earlier call
    had left there; and when an awaited call rejects, [lastError] is the
    very error it rejects with and [pending] is reset, whatever other calls
    are still awaited. *)
Theorem lastError_is_the_rejection (v : version) (evs1 evs2 : list event) :
  forallb (resolves parse to_string v) evs2 = true ->
  lastError (hk (run parse to_string v (evs1 ++ Begin :: evs2) start)) = None ∧
  (∀ fetched e,
     (0 < awaited (run parse to_string v (evs1 ++ Begin :: evs2) start))%nat ->
     outcome parse to_string v fetched = Js.Throw e ->
     hk (step parse to_string v (End fetched)
           (run parse to_string v (evs1 ++ Begin :: evs2) start))
     = Hook false (Some e)).
Proof.
  intros Hevs. split.
  - rewrite run_app_calls.
    change (run parse to_string v (Begin :: evs2) ?s)
      with (run parse to_string v evs2 (step parse to_string v Begin s)).
    now rewrite resolving_keeps_lastError.
  - intros fetched e Haw Hout. cbn [step].
    destruct (awaited _) as [| n]; [lia |]. cbn [hk].
    now rewrite request_resume_writes, Hout.
Qed.

End ApiCallsProps.

Lemma lastError_is_the_rejection_witness :
  lastError (ApiCalls.hk
    (ApiCalls.run Json.parse (fun _ => EmptyString) ApiCalls.JsonErrors
       [ApiCalls.Begin; ApiCalls.Begin;
        ApiCalls.End (Js.Throw (Js.new_Error "Failed to fetch"))]
       ApiCalls.start))
  = Some (Js.new_Error "Failed to fetch") ∧
  lastError (ApiCalls.hk
    (ApiCalls.run Json.parse (fun _ => EmptyString) ApiCalls.JsonErrors
       ([ApiCalls.Begin; ApiCalls.Begin;
         ApiCalls.End (Js.Throw (Js.new_Error "Failed to fetch"))] ++
        ApiCalls.Begin :: [ApiCalls.End (ok_response "[]")])
       ApiCalls.start))
  = None.
Proof.
  split; [reflexivity |].
  apply (lastError_is_the_rejection Json.parse (fun _ => EmptyString) ApiCalls.JsonErrors
           [ApiCalls.Begin; ApiCalls.Begin;
            ApiCalls.End (Js.Throw (Js.new_Error "Failed to fetch"))]
           [ApiCalls.End (ok_response "[]")]).
  reflexivity.
Defined.

(** ** Faber's background send: the form lock, replies and dismissal *)

Section BackgroundSendMore.
Import BackgroundSend.

Ltac run_send' :=
  cbv [on_settled on_result on_error clearTimeout mark_settled setPendingCredentials
       setSending pushToast setTask Js.bind Js.ret Js.throw Js.modify Js.get Js.await
       Js.try_catch Js.try_finally].

(** [sending] is set exactly while the request is outstanding. *)
Lemma flag_step (e : event) (w : world) :
  (∃ t, tk w = Some t ∧ sendingFlag w = negb (request_settled t)) ->
  ∃ t, tk (step e w) = Some t ∧ sendingFlag (step e w) = negb (request_settled t).
Proof.
  intros (t & Htk & Hflag). destruct e as [dt | | r | i |]; simpl.
  - exists t. now split.
  - rewrite Htk. destruct (timer t) as [due |]; [| exists t; now split].
    destruct (due <=? now w); [| exists t; now split].
    destruct (request_settled t) eqn:Hset.
    + run_send'. simpl. eexists. split; [reflexivity |]. simpl.
      now rewrite Hflag.
    + run_send'. simpl. eexists. split; reflexivity.
  - rewrite Htk. destruct (request_settled t || aborted t) eqn:Hc; [exists t; now split |].
    destruct r; run_send'; simpl; rewrite Htk; simpl; eexists; split; reflexivity.
  - exists t. now split.
  - exists t. now split.
Qed.

Lemma flag_run (evs : list event) (w : world) :
  (∃ t, tk w = Some t ∧ sendingFlag w = negb (request_settled t)) ->
  ∃ t, tk (run evs w) = Some t ∧ sendingFlag (run evs w) = negb (request_settled t).
Proof.
  revert w. induction evs as [| e evs IH]; intros w H; [exact H |].
  simpl. apply IH, flag_step, H.
Qed.

Lemma flag_started (fm : form) (rand : string) (w : world) :
  starts fm rand w = true ->
  ∃ t, tk (fst (sendCredential fm rand w)) = Some t ∧
       sendingFlag (fst (sendCredential fm rand w)) = negb (request_settled t).
Proof.
  intros H. destruct (sendCredential_starts fm rand w H) as (item & _ & _ & _ & ->).
  eexists. split; reflexivity.
Qed.

(** X15.  While the Credential Definitions card stays on screen, the form
    is locked exactly while the send is under way: as long as the entry of
    the send shows [sending], a further call of [sendCredential], with
    whatever form, changes nothing; once the entry is terminal, [sending]
    is [false] again.  ([sending] is state of that card: a card mounted
    anew starts unlocked.) *)
Theorem form_locked_while_sending
  (fm : form) (rand : string) (w0 : world) (evs : list event) (item : PendingItem) :
  starts fm rand w0 = true ->
  forallb on_card evs = true ->
  entry (run evs (fst (sendCredential fm rand w0))) = Some item ->
  (status item = sending ->
   ∀ fm' rand', sendCredential fm' rand' (run evs (fst (sendCredential fm rand w0)))
                = (run evs (fst (sendCredential fm rand w0)), Js.Normal tt)) ∧
  (status item ≠ sending -> sendingFlag (run evs (fst (sendCredential fm rand w0))) = false).
Proof.
  intros Hstart _ He.
  set (pid := "cred-" ++ show (now w0) ++ "-" ++ rand).
  set (w := run evs (fst (sendCredential fm rand w0))) in *.
  assert (send_inv pid (now w0) w) as Hinv by now apply send_inv_run, send_inv_started.
  destruct (flag_run evs _ (flag_started fm rand w0 Hstart)) as (t & Htk & Hflag).
  fold w in Htk, Hflag. split.
  - intros Hst fm' rand'.
    destruct (sending_is_open pid (now w0) w item Hinv He Hst) as (t' & Htk' & _ & _ & Hset & _).
    rewrite Htk in Htk'. injection Htk' as <-. rewrite Hset in Hflag. simpl in Hflag.
    unfold sendCredential. cbv [Js.bind Js.get Js.ret]. now rewrite Hflag.
  - intros Hst. destruct (entry_listed pid (now w0) w item Hinv He) as [Hid Hin].
    destruct Hinv as (t' & Htk' & _ & _ & Hinv). rewrite Htk in Htk'. injection Htk' as <-.
    destruct (request_settled t); [exact Hflag |].
    destruct Hinv as (_ & _ & Hall). rewrite Forall_forall in Hall.
    specialize (Hall item Hin Hid). contradiction.
Qed.

Lemma form_locked_while_sending_witness :
  starts sample_form "abc" idle_world = true ∧
  forallb on_card [Tick 5000] = true ∧
  sendCredential sample_form "xyz" (run [Tick 5000] (fst (sendCredential sample_form "abc" idle_world)))
  = (run [Tick 5000] (fst (sendCredential sample_form "abc" idle_world)), Js.Normal tt).
Proof.
  split; [reflexivity |]. split; [reflexivity |].
  eapply (form_locked_while_sending sample_form "abc" idle_world [Tick 5000]);
    [reflexivity | reflexivity | vm_compute; reflexivity | reflexivity].
Defined.

(** X16.  A response that arrives while the entry is [sending] completes it: the
    entry becomes [completed] with the id of the new exchange and the
    elapsed time rounded to seconds, the timeout is disarmed, the form is
    released and the two toasts are shown. *)
Theorem reply_in_time_completes
  (fm : form) (rand : string) (w0 : world) (evs : list event) (item : PendingItem)
  (result : Json.value) :
  starts fm rand w0 = true ->
  entry (run evs (fst (sendCredential fm rand w0))) = Some item ->
  status item = sending ->
  ∃ item',
    entry (step (Replies (Resolved result)) (run evs (fst (sendCredential fm rand w0))))
      = Some item' ∧
    status item' = completed ∧ badge item' = "Completed" ∧
    credExId item' = result_id result ∧
    durationSec item'
      = Some (round_seconds (now (run evs (fst (sendCredential fm rand w0))) - now w0)) ∧
    option_map timer
      (tk (step (Replies (Resolved result)) (run evs (fst (sendCredential fm rand w0)))))
      = Some None ∧
    sendingFlag (step (Replies (Resolved result)) (run evs (fst (sendCredential fm rand w0))))
      = false ∧
    List.length (toasts (step (Replies (Resolved result))
                           (run evs (fst (sendCredential fm rand w0)))))
      = (List.length (toasts (run evs (fst (sendCredential fm rand w0)))) + 2)%nat.
Proof.
  intros Hstart He Hst.
  set (pid := "cred-" ++ show (now w0) ++ "-" ++ rand).
  set (w := run evs (fst (sendCredential fm rand w0))) in *.
  assert (send_inv pid (now w0) w) as Hinv by now apply send_inv_run, send_inv_started.
  destruct (entry_listed pid (now w0) w item Hinv He) as [Hid Hin].
  destruct (sending_is_open pid (now w0) w item Hinv He Hst)
    as (t & Htk & Hpid & Ht0 & Hset & Htm & Hab).
  destruct (step_reply_open t (Resolved result) w Htk Hset Hab) as (Htk' & _ & Hitems).
  rewrite Hpid in Hitems, Htk'.
  exists (settled_item pid (now w - t_start t) (Resolved result) item).
  split; [eapply (entry_after_settle pid _ _ _ w _ item);
          [exists t; auto | exact He | exact Htk' | reflexivity | exact Hitems] |].
  rewrite Htk'. unfold settled_item, badge. rewrite Hid, String.eqb_refl. simpl.
  rewrite Ht0. repeat split.
  - unfold step. rewrite Htk, Hset, Hab. simpl. reflexivity.
  - unfold step. rewrite Htk, Hset, Hab. simpl. run_send'. simpl.
    rewrite !length_app. simpl. lia.
Qed.

Lemma reply_in_time_completes_witness :
  starts sample_form "abc" idle_world = true ∧
  ∃ item',
    entry (step (Replies (Resolved Json.JNull))
             (run [Tick 1499] (fst (sendCredential sample_form "abc" idle_world))))
      = Some item' ∧
    durationSec item' = Some 1.
Proof.
  split; [reflexivity |].
  destruct (reply_in_time_completes sample_form "abc" idle_world [Tick 1499]
              (PendingItem_ "cred-1000-abc" "cred-def-1" "conn-1"
                 "Credential from did:sov:faber" [("name", "Alice")] 1000 sending
                 None None false None)
              Json.JNull eq_refl)
    as (item' & He & _ & _ & _ & Hd & _); [vm_compute; reflexivity | reflexivity |].
  exists item'. split; [exact He | exact Hd].
Defined.

Lemma ids_step (pid : string) (e : event) (w : world) :
  Forall (fun x => id x ≠ pid) (pendingCredentials w) ->
  Forall (fun x => id x ≠ pid) (pendingCredentials (step e w)).
Proof.
  intros Hall.
  assert (∀ p d r, Forall (fun x => id x ≠ pid)
                     (map (settled_item p d r) (pendingCredentials w))) as Hmap.
  { intros p d r. apply Forall_fmap. eapply Forall_impl; [exact Hall |].
    intros x Hx. cbn. now destruct (settled_item_status p d r x) as (-> & _). }
  destruct e as [dt | | r | i |]; simpl.
  - exact Hall.
  - destruct (tk w) as [t |] eqn:Htk; [| exact Hall].
    destruct (timer t) as [due |]; [| exact Hall].
    destruct (due <=? now w); [| exact Hall].
    destruct (request_settled t); [exact Hall |].
    exact (Hmap (pendingId t) (now w - t_start t) (Rejected AbortError)).
  - destruct (tk w) as [t |] eqn:Htk; [| exact Hall].
    destruct (request_settled t || aborted t); [exact Hall |].
    destruct r as [result | err].
    + exact (Hmap (pendingId t) (now w - t_start t) (Resolved result)).
    + exact (Hmap (pendingId t) (now w - t_start t) (Rejected err)).
  - now apply Forall_filter_keep.
  - now apply Forall_filter_keep.
Qed.

Lemma ids_run (pid : string) (evs : list event) (w : world) :
  Forall (fun x => id x ≠ pid) (pendingCredentials w) ->
  Forall (fun x => id x ≠ pid) (pendingCredentials (run evs w)).
Proof.
  revert w. induction evs as [| e evs IH]; intros w H; [exact H |].
  simpl. apply IH, ids_step, H.
Qed.

(** X17.  A dismissed send stays dismissed: once the row of the send has been
    removed, neither its response nor its timeout brings it back. *)
Theorem dismissed_send_stays_dismissed
  (fm : form) (rand : string) (w0 : world) (evs1 evs2 : list event) :
  starts fm rand w0 = true ->
  entry (run (evs1 ++ Dismiss ("cred-" ++ show (now w0) ++ "-" ++ rand) :: evs2)
             (fst (sendCredential fm rand w0))) = None.
Proof.
  intros Hstart.
  set (pid := "cred-" ++ show (now w0) ++ "-" ++ rand).
  set (w1 := fst (sendCredential fm rand w0)).
  set (w := run (evs1 ++ Dismiss pid :: evs2) w1).
  assert (send_inv pid (now w0) w) as (t & Htk & Hpid & _)
    by now apply send_inv_run, send_inv_started.
  assert (Forall (fun x => id x ≠ pid) (pendingCredentials w)) as Hall.
  { unfold w, run. rewrite fold_left_app. simpl. apply ids_run. simpl.
    apply Forall_forall. intros x Hx. now apply list_elem_of_filter in Hx as [Hx _]. }
  unfold entry. rewrite Htk, Hpid.
  destruct (find _ _) as [x |] eqn:Hf; [| reflexivity].
  apply find_some in Hf as [Hin Heq]. apply String.eqb_eq in Heq.
  rewrite Forall_forall in Hall. apply list_elem_of_In, Hall in Hin. contradiction.
Qed.

Lemma dismissed_send_stays_dismissed_witness :
  starts sample_form "abc" idle_world = true ∧
  entry (run ([Tick 10] ++ Dismiss ("cred-" ++ show (now idle_world) ++ "-" ++ "abc")
                :: [Replies (Resolved Json.JNull)])
             (fst (sendCredential sample_form "abc" idle_world))) = None.
Proof.
  split; [reflexivity |].
  apply (dismissed_send_stays_dismissed sample_form "abc" idle_world [Tick 10]
           [Replies (Resolved Json.JNull)]). reflexivity.
Defined.

End BackgroundSendMore.

(** ** Faber's Credentials Issued tables *)

Section IssuedTableProps.
Import IssuedCard IssuedTable.

Lemma flatten_not_null (x y : Json.value) :
  flatten x = Js.Normal y -> y ≠ Json.JNull.
Proof.
  unfold flatten. intros H Hy. subst y.
  destruct x; try discriminate;
    destruct (get "cred_ex_record" _) as [r |];
    try (destruct (Json.truthy r && is_object r)); discriminate.
Qed.

Lemma map_flatten_not_null (l ys : list Json.value) :
  map_flatten l = Js.Normal ys -> Forall (fun y => y ≠ Json.JNull) ys.
Proof.
  revert ys. induction l as [| x l IH]; intros ys H; simpl in H.
  - injection H as <-. constructor.
  - destruct (flatten x) as [y | e] eqn:Hx; [| discriminate].
    destruct (map_flatten l) as [ys' | e]; [| discriminate].
    injection H as <-. constructor; [now apply (flatten_not_null x) | now apply IH].
Qed.

(** The held list never holds [null]. *)
Lemma no_null_step (e : event) (s : sys) :
  Forall (fun y => y ≠ Json.JNull) (exchanges (cd s)) ->
  Forall (fun y => y ≠ Json.JNull) (exchanges (cd (step e s))).
Proof.
  intros H. destruct e as [| k resp]; simpl.
  - pose proof (load_call_busy (render (cd s)) (cd s)) as Hbusy.
    pose proof (load_call_idle (render (cd s)) (cd s)) as Hidle.
    simpl in Hbusy, Hidle.
    destruct (loading (cd s)) eqn:E.
    + rewrite Hbusy by reflexivity. exact H.
    + rewrite Hidle by reflexivity. exact H.
  - destruct (inflight s !! k) as [env |]; [| exact H]. simpl.
    destruct (snapshot resp) as [l | err] eqn:E.
    + rewrite (load_resume_success env resp l) by exact E. simpl.
      destruct resp as [res | e']; [| discriminate]. now apply (map_flatten_not_null _ _ E).
    + rewrite (load_resume_failure env resp err) by exact E. simpl.
      destruct (c_fetchedOnce env); [exact H | constructor].
Qed.

Lemma no_null_run (evs : list event) (s : sys) :
  Forall (fun y => y ≠ Json.JNull) (exchanges (cd s)) ->
  Forall (fun y => y ≠ Json.JNull) (exchanges (cd (run evs s))).
Proof.
  revert s. induction evs as [| e evs IH]; intros s H; [exact H |].
  simpl. apply IH, no_null_step, H.
Qed.

Lemma prop_or_not_null (k : string) (d x : Json.value) :
  x ≠ Json.JNull -> ∃ v, prop_or k d x = Js.Normal v.
Proof.
  intros Hx. unfold prop_or. destruct x; try contradiction; simpl; eauto.
  destruct (Json.member k members); eauto.
Qed.

Lemma tables_split (l : list Json.value) :
  Forall (fun y => y ≠ Json.JNull) l ->
  ∃ a b, inProgress l = Js.Normal a ∧ completed l = Js.Normal b ∧ a ++ b ≡ₚ l.
Proof.
  unfold inProgress, completed.
  induction 1 as [| x l Hx Hl (a & b & Ha & Hb & Hperm)]; simpl.
  - exists [], []. now repeat split.
  - destruct (prop_or_not_null "state" (Json.JString EmptyString) x Hx) as [s ->].
    rewrite Ha, Hb. destruct (issued_state s); simpl.
    + exists a, (x :: b). repeat split.
      rewrite <- Hperm. symmetry. apply Permutation_middle.
    + exists (x :: a), b. repeat split. simpl. now rewrite Hperm.
Qed.

(** X18.  Whatever responses the card has seen, rendering its two tables does not
    throw and every held exchange is a row of exactly one of them: In
    Progress and Completed together are the held list. *)
Theorem issued_tables_split_exchanges (evs : list event) :
  ∃ a b,
    inProgress (exchanges (cd (run evs start))) = Js.Normal a ∧
    completed (exchanges (cd (run evs start))) = Js.Normal b ∧
    a ++ b ≡ₚ exchanges (cd (run evs start)).
Proof. apply tables_split, no_null_run. constructor. Qed.

Lemma member_last (k : string) (v : Json.value) (ms : list (string * Json.value)) :
  Json.member k (ms ++ [(k, v)]) = Some v.
Proof.
  induction ms as [| [k' v'] ms IH]; simpl.
  - now rewrite String.eqb_refl.
  - now rewrite IH.
Qed.

(** X19.  View shows the record as the agent sent it, lifted or not: for a listed
    item that has no [_raw] member of its own, the detail of its row is the
    item itself. *)
Theorem view_shows_the_fetched_record (item ex : Json.value) :
  flatten item = Js.Normal ex -> get "_raw" item = None -> detailData ex = item.
Proof.
  unfold flatten, detailData. intros H Hraw.
  destruct item; try discriminate; simpl in H;
    try (injection H as <-; reflexivity).
  destruct (Json.member "cred_ex_record" members) as [r |] eqn:Hr.
  - destruct (Json.truthy r && is_object r).
    + injection H as <-. cbn [get].
      change (?a ++ ?b ++ ?c ++ ?d ++ ?e ++ ?f ++ ?g ++ [?x; ?y; ?z])%list
        with (a ++ b ++ c ++ d ++ e ++ f ++ g ++ [x; y] ++ [z])%list.
      rewrite !app_assoc, member_last. reflexivity.
    + injection H as <-. simpl in Hraw |- *. now rewrite Hraw.
  - injection H as <-. simpl in Hraw |- *. now rewrite Hraw.
Qed.

Lemma view_shows_the_fetched_record_witness :
  ∃ ex, flatten nested_record = Js.Normal ex ∧ ex ≠ nested_record ∧
        detailData ex = nested_record.
Proof.
  eexists. split; [reflexivity |]. split; [discriminate |].
  apply (view_shows_the_fetched_record nested_record); reflexivity.
Defined.

(** X20.  The Revoke button of a row always leads to the confirmation dialog:
    where the button is rendered the badge Revoked is not, and a click
    opens [revokeModal] with the row's registry id and shows no toast. *)
Theorem revoke_button_opens_the_dialog (showActions : bool) (ex : Json.value) (p : panel) :
  revoke_button showActions ex = true ->
  revoked_badge showActions ex = false ∧
  ∃ reg, get "rev_reg_id" ex = Some reg ∧ Json.truthy reg = true ∧
         handleRevoke ex p
         = (Panel (Some (Modal (either (get "cred_ex_id" ex) (get "credential_exchange_id" ex))
                               (Some reg) (get "cred_rev_id" ex)))
                  (toasts p),
            Js.Normal tt).
Proof.
  unfold revoke_button, revoked_badge, supportsRevocation. intros H.
  apply andb_prop in H as [H Hnot]. apply andb_prop in H as [-> Hreg].
  apply negb_true_iff in Hnot. split; [now rewrite Hnot |].
  unfold handleRevoke. cbv [Js.modify]. rewrite Hreg. simpl.
  unfold has in Hreg. destruct (get "rev_reg_id" ex) as [reg |]; [| discriminate].
  exists reg. now repeat split.
Qed.

Lemma revoke_button_opens_the_dialog_witness :
  revoke_button true (Json.JObject [("state", Json.JString "credential-issued");
                                    ("rev_reg_id", Json.JString "reg-1")]) = true ∧
  revoked_badge true (Json.JObject [("state", Json.JString "credential-issued");
                                    ("rev_reg_id", Json.JString "reg-1")]) = false.
Proof.
  split; [reflexivity |].
  apply (revoke_button_opens_the_dialog true
           (Json.JObject [("state", Json.JString "credential-issued");
                          ("rev_reg_id", Json.JString "reg-1")]) (Panel None [])).
  reflexivity.
Defined.

(** X21.  A row in state [done] that carries a revocation registry id and a
    revocation id is shown as Revoked and offers no Revoke button, whatever
    else the record says: the badge is read off these three members
    alone. *)
Theorem done_row_with_ids_shows_revoked (ex reg rev : Json.value) :
  get "rev_reg_id" ex = Some reg -> Json.truthy reg = true ->
  get "cred_rev_id" ex = Some rev -> Json.truthy rev = true ->
  get "state" ex = Some (Json.JString "done") ->
  revoked_badge true ex = true ∧ revoke_button true ex = false.
Proof.
  intros Hreg Htreg Hrev Htrev Hst.
  unfold revoked_badge, revoke_button, supportsRevocation, isRevoked, has, row_state.
  rewrite Hreg, Hrev, Hst, Htreg, Htrev. split; reflexivity.
Qed.

Lemma done_row_with_ids_shows_revoked_witness :
  ∃ ex, flatten nested_record = Js.Normal ex ∧ revoked_badge true ex = true.
Proof.
  eexists. split; [reflexivity |].
  apply (done_row_with_ids_shows_revoked _ (Json.JString "reg-1") (Json.JString "1"));
    reflexivity.
Defined.

End IssuedTableProps.

(** ** Acme's [sendProofRequest] *)

Section ProofRequestProps.
Import ProofRequest.
Variable number : Type.
Variable parseInt : string -> number.

Lemma numeral_uint (d : Decimal.uint) :
  numeral (DecimalString.NilEmpty.string_of_uint d) = true.
Proof. induction d; simpl; try exact IHd; reflexivity. Qed.

Lemma numeral_show (n : nat) : numeral (BackgroundSend.show (Z.of_nat n)) = true.
Proof.
  unfold BackgroundSend.show. destruct (Z.of_nat n) as [| p | p] eqn:E; simpl.
  - reflexivity.
  - pose proof (numeral_uint (Pos.to_uint p)) as Hd.
    unfold DecimalString.NilZero.string_of_uint. destruct (Pos.to_uint p); exact Hd.
  - lia.
Qed.

Lemma show_inj (a b : Z) : BackgroundSend.show a = BackgroundSend.show b -> a = b.
Proof.
  unfold BackgroundSend.show. intros H. apply DecimalZ.to_int_inj.
  assert (∀ z, Z.to_int z ≠ Decimal.Pos Decimal.Nil ∧ Z.to_int z ≠ Decimal.Neg Decimal.Nil) as Hnz.
  { intros [| p | p]; simpl; split; try discriminate;
      intros E; injection E as E; now apply DecimalPos.Unsigned.to_uint_nonnil in E. }
  pose proof (DecimalString.NilZero.isi (Z.to_int a) (proj1 (Hnz a)) (proj2 (Hnz a))) as Ha.
  pose proof (DecimalString.NilZero.isi (Z.to_int b) (proj1 (Hnz b)) (proj2 (Hnz b))) as Hb.
  rewrite H in Ha. congruence.
Qed.

(** Two numerals followed by an underscore: equal texts have equal numerals. *)
Lemma numeral_prefix (a b x y : string) :
  numeral a = true -> numeral b = true -> a ++ "_" ++ x = b ++ "_" ++ y -> a = b.
Proof.
  revert b. induction a as [| c a IH]; intros [| c' b] Ha Hb H; cbv [append] in H;
    fold append in H.
  - reflexivity.
  - injection H as Hc _. subst c'. discriminate.
  - injection H as Hc _. subst c. discriminate.
  - injection H as -> H. simpl in Ha, Hb.
    apply andb_prop in Ha as [_ Ha]. apply andb_prop in Hb as [_ Hb].
    f_equal. now apply IH.
Qed.

Lemma key_inj (prefix : string) (i j : nat) (x y : string) :
  key prefix i x = key prefix j y -> i = j ∧ x = y.
Proof.
  unfold key. intros H.
  assert (∀ p a b : string, p ++ a = p ++ b -> a = b) as Hcancel.
  { induction p as [| c p IH]; intros a b E; [exact E |].
    cbv [append] in E. fold append in E. injection E as E. now apply IH. }
  apply Hcancel, Hcancel in H.
  pose proof (numeral_prefix _ _ _ _ (numeral_show i) (numeral_show j) H) as Hs.
  rewrite Hs in H. apply Hcancel, Hcancel in H.
  apply show_inj in Hs. split; [lia | exact H].
Qed.

Section AssignEach.
Context {A B : Type} (key_of : nat -> A -> string) (value_of : A -> option B).
Hypothesis key_of_inj : ∀ i j x y, key_of i x = key_of j y -> i = j.

Lemma assign_each_other (rows : list A) (i : nat) (object : gmap string B) (k : string) :
  (∀ j x, (i <= j)%nat -> k ≠ key_of j x) ->
  assign_each key_of value_of i rows object !! k = object !! k.
Proof.
  revert i object. induction rows as [| row rows IH]; intros i object Hk; [reflexivity |].
  simpl. rewrite IH by (intros j x Hj; apply Hk; lia).
  destruct (value_of row); [| reflexivity].
  apply lookup_insert_ne. intros E. now apply (Hk i row (Nat.le_refl i)).
Qed.

Lemma assign_each_lookup (rows : list A) (i n : nat) (object : gmap string B) (x : A) (v : B) :
  rows !! n = Some x -> value_of x = Some v ->
  assign_each key_of value_of i rows object !! key_of (i + n) x = Some v.
Proof.
  revert i n object. induction rows as [| row rows IH]; intros i n object Hn Hv; [discriminate |].
  destruct n as [| n]; simpl in Hn |- *.
  - injection Hn as ->. rewrite Hv, Nat.add_0_r.
    rewrite assign_each_other; [apply lookup_insert_eq |].
    intros j y Hj E. apply key_of_inj in E. lia.
  - replace (i + S n)%nat with (S i + n)%nat by lia. now apply IH.
Qed.

Lemma assign_each_size (rows : list A) (i : nat) (object : gmap string B) :
  (∀ j x, (i <= j)%nat -> object !! key_of j x = None) ->
  size (assign_each key_of value_of i rows object)
  = (size object + List.length (List.filter (fun x => bool_decide (is_Some (value_of x))) rows))%nat.
Proof.
  revert i object. induction rows as [| row rows IH]; intros i object Hfresh; simpl; [lia |].
  destruct (value_of row) as [v |] eqn:Hv.
  - rewrite IH.
    + rewrite map_size_insert_None by (apply Hfresh; lia).
      rewrite bool_decide_eq_true_2 by eauto. simpl. lia.
    + intros j x Hj. rewrite lookup_insert_ne; [apply Hfresh; lia |].
      intros E. apply key_of_inj in E. lia.
  - rewrite IH by (intros j x Hj; apply Hfresh; lia).
    rewrite bool_decide_eq_false_2 by (intros [? ?]; discriminate). reflexivity.
Qed.

End AssignEach.

Lemma filter_all {X} (f g : X -> bool) (l : list X) :
  (∀ x, f x = g x) -> List.filter f l = List.filter g l.
Proof. intros H. induction l as [| x l IH]; simpl; [reflexivity |]. now rewrite H, IH. Qed.

(** X23.  No selected row is lost in the request: every included attribute and
    every filled predicate row is a member of its own of the request,
    under the key of its position, restricted to the chosen credential
    definition; the request holds nothing else. *)
Theorem request_lists_each_selected_row (fm : form) :
  size (requested_attributes number (build number parseInt fm))
    = List.length (selectedAttrs fm) ∧
  (∀ n a, selectedAttrs fm !! n = Some a ->
          requested_attributes number (build number parseInt fm) !! key "attr" n (a_name a)
          = Some (AttrSpec (a_name a) (credDefId fm))) ∧
  size (requested_predicates number (build number parseInt fm))
    = List.length (List.filter filled (requestedPredicates fm)) ∧
  (∀ n p, requestedPredicates fm !! n = Some p -> filled p = true ->
          requested_predicates number (build number parseInt fm) !! key "pred" n (p_name p)
          = Some (PredSpec number (p_name p) (p_type p) (parseInt (p_value p)) (credDefId fm))).
Proof.
  unfold build. cbn [requested_attributes requested_predicates].
  assert (∀ prefix {X} (f : X -> string) i j x y,
            key prefix i (f x) = key prefix j (f y) -> i = j) as Hinj
    by (intros prefix X f i j x y E; now apply key_inj in E).
  split; [| split; [| split]].
  - rewrite assign_each_size.
    + rewrite map_size_empty. simpl. f_equal.
      induction (selectedAttrs fm) as [| a l IH]; simpl; [reflexivity | now rewrite IH].
    + intros i j x y. apply (Hinj "attr" attr a_name).
    + intros j x _. apply lookup_empty.
  - intros n a Hn.
    apply (assign_each_lookup (fun i a => key "attr" i (a_name a)) _
             (Hinj "attr" attr a_name) (selectedAttrs fm) 0 n ∅ a); [exact Hn | reflexivity].
  - rewrite assign_each_size.
    + rewrite map_size_empty. simpl. f_equal. apply filter_all. intros p.
      destruct (filled p).
      * apply bool_decide_eq_true_2. eauto.
      * apply bool_decide_eq_false_2. intros [? ?]. discriminate.
    + intros i j x y. apply (Hinj "pred" pred p_name).
    + intros j x _. apply lookup_empty.
  - intros n p Hn Hp.
    apply (assign_each_lookup (fun i p => key "pred" i (p_name p)) _
             (Hinj "pred" pred p_name) (requestedPredicates fm) 0 n ∅ p); [exact Hn |].
    now rewrite Hp.
Qed.

Lemma assign_each_none {X Y} (key_of : nat -> X -> string) (value_of : X -> option Y)
  (rows : list X) (i : nat) (object : gmap string Y) :
  Forall (fun x => value_of x = None) rows ->
  assign_each key_of value_of i rows object = object.
Proof.
  intros H. revert i. induction H as [| x l Hx _ IH]; intros i; [reflexivity |].
  simpl. now rewrite Hx, IH.
Qed.

(** X24.  A form with no attribute included and with predicate rows of which none
    is filled in passes the checks: the request goes out, asking for
    nothing. *)
Theorem unfilled_predicates_send_an_empty_request (fm : form) (s : page number) :
  sending number s = false ->
  Js.truthy (connectionId fm) = true -> Js.truthy (credDefId fm) = true ->
  selectedAttrs fm = [] ->
  requestedPredicates fm ≠ [] ->
  Forall (fun p => filled p = false) (requestedPredicates fm) ->
  ∃ p, sendProofRequest_call number parseInt fm s
       = (Page number true (requestModal number s) (toasts number s)
               (requests number s ++ [p]) (reloads number s),
          Js.Normal true) ∧
       requested_attributes number p = ∅ ∧ requested_predicates number p = ∅.
Proof.
  intros Hs Hconn Hcred Hsel Hne Hunfilled.
  exists (build number parseInt fm). split.
  - unfold sendProofRequest_call.
    cbv [Js.bind Js.get Js.ret Js.modify setSending post pushToast].
    rewrite Hs, Hconn, Hcred, Hsel. simpl.
    destruct (requestedPredicates fm); [contradiction | reflexivity].
  - unfold build. cbn [requested_attributes requested_predicates]. rewrite Hsel. split.
    + reflexivity.
    + apply assign_each_none. eapply Forall_impl; [exact Hunfilled |].
      intros p Hp. cbn. now rewrite Hp.
Qed.

End ProofRequestProps.

Lemma unfilled_predicates_send_an_empty_request_witness :
  ∃ p, ProofRequest.requests Z
         (fst (ProofRequest.sendProofRequest_call Z (fun _ => 0)
                 (ProofRequest.Form "conn-1" "cred-def-1" "Proof Request"
                    [ProofRequest.Attr "name" false]
                    [ProofRequest.Pred EmptyString ">=" EmptyString])
                 (ProofRequest.Page Z false true [] [] 0))) = [p] ∧
       ProofRequest.requested_attributes Z p = ∅ ∧
       ProofRequest.requested_predicates Z p = ∅.
Proof.
  destruct (unfilled_predicates_send_an_empty_request Z (fun _ => 0)
              (ProofRequest.Form "conn-1" "cred-def-1" "Proof Request"
                 [ProofRequest.Attr "name" false]
                 [ProofRequest.Pred EmptyString ">=" EmptyString])
              (ProofRequest.Page Z false true [] [] 0))
    as (p & Hcall & Ha & Hp); try reflexivity; try discriminate.
  - repeat constructor.
  - exists p. rewrite Hcall. now repeat split.
Defined.

(** ** Ledger identifiers *)

Section IdsProps.
Import Ids.

Lemma split_nonempty (sep : ascii) (s : string) : split sep s ≠ [].
Proof.
  destruct s as [| c s]; simpl; [discriminate |].
  destruct (Ascii.eqb c sep); [discriminate |]. destruct (split sep s); discriminate.
Qed.

Lemma split_free (sep : ascii) (s : string) : count sep s = 0%nat -> split sep s = [s].
Proof.
  induction s as [| c s IH]; simpl; [reflexivity |].
  destruct (Ascii.eqb c sep); [discriminate |]. intros H. now rewrite (IH H).
Qed.

Lemma split_sep (sep : ascii) (a b : string) :
  count sep a = 0%nat -> split sep (a ++ String sep b) = a :: split sep b.
Proof.
  induction a as [| c a IH]; cbv [append]; fold append; simpl.
  - now rewrite Ascii.eqb_refl.
  - destruct (Ascii.eqb c sep); [discriminate |]. intros H. now rewrite (IH H).
Qed.

(** X25.  A well-formed pair of ids is read back part by part: for a schema id
    [did:kind:name:version] and a credential definition id [issuer:rest],
    with colon-free parts, [schemaMeta] holds the schema's DID, name and
    version and the issuer's DID. *)
Theorem schema_meta_reads_the_ids (did kind name ver issuer_did rest : string) :
  count ":" did = 0%nat -> count ":" kind = 0%nat -> count ":" name = 0%nat ->
  count ":" ver = 0%nat -> count ":" issuer_did = 0%nat ->
  schema_meta (did ++ ":" ++ kind ++ ":" ++ name ++ ":" ++ ver) (issuer_did ++ ":" ++ rest)
  = Js.Normal (SchemaMeta (did ++ ":" ++ kind ++ ":" ++ name ++ ":" ++ ver)
                          did ver name issuer_did).
Proof.
  intros Hd Hk Hn Hv Hi. unfold schema_meta.
  change (?a ++ ":" ++ ?b) with (a ++ String ":" b).
  rewrite (split_sep ":" did) by exact Hd.
  change (kind ++ ":" ++ ?b) with (kind ++ String ":" b).
  rewrite (split_sep ":" kind) by exact Hk.
  change (name ++ ":" ++ ?b) with (name ++ String ":" b).
  rewrite (split_sep ":" name) by exact Hn.
  rewrite (split_free ":" ver) by exact Hv.
  rewrite (split_sep ":" issuer_did) by exact Hi. simpl.
  pose proof (split_nonempty ":" rest). destruct (split ":" rest); [contradiction |]. reflexivity.
Qed.

Lemma schema_meta_reads_the_ids_witness :
  schema_meta "WgWxqztrNooG92RXvxSTWv:2:degree schema:1.0"
              "WgWxqztrNooG92RXvxSTWv:3:CL:20:tag"
  = Js.Normal (SchemaMeta "WgWxqztrNooG92RXvxSTWv:2:degree schema:1.0"
                          "WgWxqztrNooG92RXvxSTWv" "1.0" "degree schema"
                          "WgWxqztrNooG92RXvxSTWv").
Proof.
  apply (schema_meta_reads_the_ids "WgWxqztrNooG92RXvxSTWv" "2" "degree schema" "1.0"
           "WgWxqztrNooG92RXvxSTWv" "3:CL:20:tag"); reflexivity.
Defined.

(** X27.  The Issuer cell of a stored credential shows the DID its credential
    definition id starts with, whatever [schema_id] and
    [schema_issuer_did] say. *)
Theorem issuer_is_the_did_of_the_cred_def
  (c : Json.value) (did rest : string) :
  IssuedCard.get "cred_def_id" c = Some (Json.JString (did ++ ":" ++ rest)) ->
  count ":" did = 0%nat ->
  issuer c = Js.Normal (Json.JString did).
Proof.
  intros Hc Hd. unfold issuer, truthy_member. rewrite Hc.
  assert (Json.truthy (Json.JString (did ++ ":" ++ rest)) = true) as ->.
  { simpl. apply truthy_nonempty. destruct did; discriminate. }
  unfold first_part. change (did ++ ":" ++ rest) with (did ++ String ":" rest).
  now rewrite (split_sep ":" did) by exact Hd.
Qed.

Lemma issuer_is_the_did_of_the_cred_def_witness :
  issuer (Json.JObject [("schema_id", Json.JString "other:2:name:1.0");
                        ("cred_def_id", Json.JString "WgWxqztrNooG92RXvxSTWv:3:CL:20:tag")])
  = Js.Normal (Json.JString "WgWxqztrNooG92RXvxSTWv").
Proof.
  apply (issuer_is_the_did_of_the_cred_def _ "WgWxqztrNooG92RXvxSTWv" "3:CL:20:tag");
    reflexivity.
Defined.

End IdsProps.

(** ** [Layout]: the theme switch *)

Section ThemeProps.
Import Theme.

Lemma toggleTheme_shape (b : browser) :
  toggleTheme b = Browser (Some "dark") (Some "dark") ∨
  toggleTheme b = Browser (Some "light") (Some "light").
Proof. unfold toggleTheme. destruct (String.eqb _ _); auto. Qed.

(** X28.  The theme survives a reload and alternates: whatever the browser had
    stored, mounting the layout again after any number of clicks leaves the
    page as it is, and from the first click on the theme is [dark] or
    [light], the stored item agrees with the page, and each click changes
    it to the other of the two. *)
Theorem theme_persists_and_alternates (b : browser) (n : nat) :
  mount (clicks n (mount b)) = clicks n (mount b) ∧
  stored (clicks (S n) (mount b)) = data_theme (clicks (S n) (mount b)) ∧
  (data_theme (clicks (S n) (mount b)) = Some "dark" ∨
   data_theme (clicks (S n) (mount b)) = Some "light") ∧
  clicks (S (S n)) (mount b) ≠ clicks (S n) (mount b) ∧
  clicks (S (S (S n))) (mount b) = clicks (S n) (mount b).
Proof.
  split; [| split; [| split; [| split]]].
  - destruct n as [| n]; [reflexivity |]. cbn [clicks].
    destruct (toggleTheme_shape (clicks n (mount b))) as [-> | ->]; reflexivity.
  - cbn [clicks]. destruct (toggleTheme_shape (clicks n (mount b))) as [-> | ->]; reflexivity.
  - cbn [clicks]. destruct (toggleTheme_shape (clicks n (mount b))) as [-> | ->]; auto.
  - cbn [clicks]. destruct (toggleTheme_shape (clicks n (mount b))) as [-> | ->]; discriminate.
  - cbn [clicks]. destruct (toggleTheme_shape (clicks n (mount b))) as [-> | ->]; reflexivity.
Qed.

End ThemeProps.

(** ** Acme's [loadSchemaAttributes] *)

Section DebounceProps.
Import Debounce.

Lemma clearTimeout_own (t : timer) : clearTimeout (t_id t) [t] = [].
Proof.
  unfold clearTimeout. rewrite filter_cons, filter_nil.
  destruct (decide (t_id t ≠ t_id t)); [congruence | reflexivity].
Qed.

(** An accepted input leaves exactly its own timer armed. *)
Lemma input_rearms (credDefId : string) (p : page) :
  quiet p -> Js.truthy credDefId = true ->
  step (Input credDefId) p
  = Page (now p) (Some (next_id p)) [Timer (next_id p) (now p + 500) credDefId]
         (S (next_id p)) false [].
Proof.
  intros (Hloads & Hloading & Hid & Hts) Hid'. simpl. unfold loadSchemaAttributes.
  rewrite Hid', Hloading, Hloads. simpl.
  destruct Hts as [-> | (t & -> & -> & Hpos & _)].
  - destruct (ref p) as [i |]; [destruct (i =? 0)%nat |]; reflexivity.
  - destruct (Nat.eqb_spec (t_id t) 0) as [E | _]; [lia |].
    now rewrite clearTimeout_own.
Qed.

Lemma quiet_pair (credDefId : string) (gap : N) (p : page) :
  quiet p -> Js.truthy credDefId = true -> Z.of_N gap < 500 ->
  quiet (run [Input credDefId; Tick gap] p).
Proof.
  intros Hq Hid Hgap. cbn [run fold_left]. rewrite (input_rearms credDefId p Hq Hid).
  destruct Hq as (_ & _ & Hpos & _).
  simpl. destruct (Z.leb_spec (now p + 500) (now p + Z.of_N gap)) as [Hle | Hlt]; [lia |].
  unfold quiet. simpl. repeat split; try lia.
  right. eexists. repeat split; simpl; lia.
Qed.

Lemma quiet_burst (inputs : list (string * N)) (p : page) :
  quiet p -> rapid inputs = true -> quiet (run (burst inputs) p).
Proof.
  revert p. induction inputs as [| [credDefId gap] inputs IH]; intros p Hq Hr; [exact Hq |].
  simpl in Hr. apply andb_prop in Hr as [Hi Hr]. apply andb_prop in Hi as [Hid Hgap].
  apply Z.ltb_lt in Hgap.
  change (burst ((credDefId, gap) :: inputs))
    with ([Input credDefId; Tick gap] ++ burst inputs)%list.
  unfold run. rewrite fold_left_app. apply IH; [| exact Hr].
  now apply (quiet_pair credDefId gap p).
Qed.

(** X29.  Typing is debounced: of a burst of inputs that follow each other by
    less than 500 ms, nothing is requested while the burst lasts, and once
    500 ms have passed after the last input exactly one load starts, for
    the last value. *)
Theorem debounce_loads_only_the_last_input
  (inputs : list (string * N)) (credDefId : string) (pause : N) :
  rapid inputs = true -> Js.truthy credDefId = true -> 500 <= Z.of_N pause ->
  loads (run (burst inputs ++ [Input credDefId]) init) = [] ∧
  loads (run (burst inputs ++ [Input credDefId; Tick pause]) init) = [credDefId] ∧
  timers (run (burst inputs ++ [Input credDefId; Tick pause]) init) = [].
Proof.
  intros Hr Hid Hpause.
  assert (quiet (run (burst inputs) init)) as Hq.
  { apply quiet_burst; [| exact Hr]. unfold quiet, init. simpl.
    repeat split; try lia. now left. }
  unfold run in *. rewrite !fold_left_app.
  set (p := fold_left (fun p e => step e p) (burst inputs) init) in *.
  cbn [fold_left]. rewrite (input_rearms credDefId p Hq Hid).
  split; [reflexivity |]. simpl.
  destruct (Z.leb_spec (now p + 500) (now p + Z.of_N pause)) as [_ | Hlt]; [| lia].
  simpl. unfold clearTimeout. rewrite filter_cons, filter_nil. simpl.
  destruct (decide (next_id p ≠ next_id p)); [congruence |]. now split.
Qed.

Lemma debounce_loads_only_the_last_input_witness :
  loads (run (burst [("W", 120%N); ("Wg", 80%N)] ++ [Input "WgW"; Tick 500]) init) = ["WgW"].
Proof.
  apply (debounce_loads_only_the_last_input [("W", 120%N); ("Wg", 80%N)] "WgW" 500);
    [reflexivity | reflexivity | lia].
Defined.

End DebounceProps.

(** ** Acme's manual [verifyPresentation] *)

Section ManualVerifyProps.
Import AutoVerify ManualVerify.

Lemma verifying_mark (i : string) (p : page) :
  verifying (fst (mark i p)) = <[i := true]> (verifying p).
Proof. reflexivity. Qed.

Lemma verifying_settle_body (i : string) (resp : Js.completion Json.value) (p : page) :
  verifying (fst (settle_body i resp p)) = delete i (verifying p).
Proof. destruct resp; reflexivity. Qed.

(** A manual verification touches [verifying], the toasts and the reloads,
    not the scanner's set. *)
Lemma manual_call_eq (j : string) (p : page) :
  verifyPresentation_call j p
  = if flagged j p then (p, Js.Normal false)
    else (Page (autoVerified p) (<[j := true]> (verifying p)) (toasts p) (verify_calls p)
               (reloads p), Js.Normal true).
Proof.
  unfold verifyPresentation_call. cbv [Js.bind Js.get Js.ret Js.modify setVerifying].
  destruct (flagged j p); reflexivity.
Qed.

Lemma manual_resume_fields (j : string) (resp : Js.completion Json.value) (p : page) :
  autoVerified (fst (verifyPresentation_resume j resp p)) = autoVerified p ∧
  verifying (fst (verifyPresentation_resume j resp p)) = delete j (verifying p) ∧
  verify_calls (fst (verifyPresentation_resume j resp p)) = verify_calls p.
Proof. destruct resp; repeat split. Qed.

Lemma scan_inv_same_set (p : page) (s : AutoVerify.sys) :
  autoVerified p = autoVerified (pg s) -> scan_inv s -> scan_inv (AutoVerify.Sys p (scans s)).
Proof. intros E [Huniq Hin]. split; cbn [scans pg]; [exact Huniq |]. rewrite E. exact Hin. Qed.

(** The scanner's invariant holds beside the manual verifications. *)
Lemma scan_inv_manual_step (e : event) (s : sys) :
  scan_inv (auto s) -> scan_inv (auto (step e s)).
Proof.
  intros Hinv. destruct e as [e' | j | k resp]; cbn [step].
  - now apply scan_inv_step.
  - rewrite manual_call_eq. destruct (flagged j (pg (auto s)));
      cbn [auto]; now apply scan_inv_same_set.
  - destruct (manual s !! k) as [j |]; [| exact Hinv]. cbn [auto].
    apply scan_inv_same_set; [| exact Hinv].
    apply (manual_resume_fields j resp (pg (auto s))).
Qed.

Lemma flagged_inv_auto_step (i : string) (e : AutoVerify.event) (s : AutoVerify.sys) :
  scan_inv s ->
  (∀ a sa, scans s !! a = Some sa -> awaiting sa = i -> verifying (pg s) !! i = Some true) ->
  ∀ a sa, scans (AutoVerify.step e s) !! a = Some sa -> awaiting sa = i ->
          verifying (pg (AutoVerify.step e s)) !! i = Some true.
Proof.
  intros [Huniq _] Hflag.
  destruct (step_shape e s) as [-> | [(ps & j & r & _ & Hj & ->) |
    (k & resp & sc & _ & Hk & [-> | (j & r & Hj & ->)])]]; cbn [pg scans].
  - exact Hflag.
  - intros a sa Ha Hi. rewrite verifying_mark.
    apply lookup_app_Some in Ha as [Ha | [_ Ha]].
    + destruct (decide (j = i)) as [-> | Hne]; [apply lookup_insert_eq |].
      rewrite lookup_insert_ne by exact Hne. eauto.
    + apply list_lookup_singleton_Some in Ha as [_ <-]. cbn [awaiting] in Hi. subst j.
      apply lookup_insert_eq.
  - intros a sa Ha Hi. rewrite verifying_settle_body. rewrite list_lookup_delete in Ha.
    rewrite lookup_delete_ne; [eauto |].
    intros Heq. subst i. symmetry in Heq. revert Heq.
    eapply Huniq; [| exact Ha | exact Hk]. case_decide; lia.
  - intros a sa Ha Hi. rewrite verifying_mark, verifying_settle_body.
    assert ((k < List.length (scans s))%nat) as Hlen by now apply lookup_lt_Some in Hk.
    destruct (decide (k = a)) as [<- | Hka].
    + rewrite list_lookup_insert_eq in Ha by exact Hlen. injection Ha as <-.
      cbn [awaiting] in Hi. subst j. apply lookup_insert_eq.
    + rewrite list_lookup_insert_ne in Ha by exact Hka.
      destruct (decide (j = i)) as [-> | Hne]; [apply lookup_insert_eq |].
      rewrite lookup_insert_ne by exact Hne.
      rewrite lookup_delete_ne; [eauto |].
      intros Heq. subst i. symmetry in Heq. revert Heq. apply (Huniq a k sa sc); auto.
Qed.

Lemma flagged_inv_step (i : string) (e : event) (s : sys) :
  clicks_on i e = false -> scan_inv (auto s) -> flagged_inv i s -> flagged_inv i (step e s).
Proof.
  intros He Hinv [Hfree Hflag]. destruct e as [e' | j | k resp]; cbn [step].
  - split; [exact Hfree |]. cbn [auto]. now apply flagged_inv_auto_step.
  - apply String.eqb_neq in He. rewrite manual_call_eq.
    destruct (flagged j (pg (auto s))); split; cbn [auto manual pg scans verifying];
      try assumption.
    + apply not_elem_of_app. split; [exact Hfree |]. now apply not_elem_of_cons.
    + intros a sa Ha Hi. rewrite lookup_insert_ne by exact He. eauto.
  - destruct (manual s !! k) as [j |] eqn:Hk; [| now split].
    assert (j ≠ i) as Hne.
    { intros ->. apply Hfree. now apply list_elem_of_lookup_2 in Hk. }
    split; cbn [auto manual pg scans].
    + intros Hin. apply Hfree. now apply list_elem_of_delete_inv in Hin.
    + intros a sa Ha Hi.
      destruct (manual_resume_fields j resp (pg (auto s))) as (_ & -> & _).
      rewrite lookup_delete_ne by exact Hne. eauto.
Qed.

Lemma flagged_inv_run (i : string) (evs : list event) (s : sys) :
  forallb (fun e => negb (clicks_on i e)) evs = true ->
  scan_inv (auto s) -> flagged_inv i s ->
  scan_inv (auto (run evs s)) ∧ flagged_inv i (run evs s).
Proof.
  revert s. induction evs as [| e evs IH]; intros s Hevs Hs Hf; [now split |].
  simpl in Hevs. apply andb_prop in Hevs as [He Hevs]. apply negb_true_iff in He.
  simpl. apply IH; [exact Hevs | now apply scan_inv_manual_step | now apply flagged_inv_step].
Qed.

(** X30.  For an exchange whose Verify button has not been used, the
    button does nothing while the scanner awaits the verification of that
    exchange, whatever manual verifications of other exchanges run and
    settle meanwhile: [verifyPresentation] returns at its guard, sends no
    request and leaves the page as it is. *)
Theorem manual_verify_waits_for_auto_verify (evs : list event) (i : string) :
  forallb (fun e => negb (clicks_on i e)) evs = true ->
  is_awaited i (auto (run evs start)) = true ->
  verifyPresentation_call i (pg (auto (run evs start)))
  = (pg (auto (run evs start)), Js.Normal false).
Proof.
  intros Hevs Haw.
  destruct (flagged_inv_run i evs start Hevs scan_inv_start) as [_ [_ Hflag]].
  { split; [apply not_elem_of_nil |].
    intros a sa Ha. cbn in Ha. rewrite lookup_nil in Ha. discriminate. }
  unfold is_awaited, awaited in Haw. apply existsb_exists in Haw as (j & Hin & Hj).
  apply String.eqb_eq in Hj. subst j. apply in_map_iff in Hin as (sc & Hsc & Hin).
  apply list_elem_of_In, list_elem_of_lookup in Hin as [a Ha].
  specialize (Hflag a sc Ha Hsc).
  rewrite manual_call_eq. unfold flagged. now rewrite Hflag.
Qed.

Lemma manual_verify_waits_for_auto_verify_witness :
  is_awaited "px-1"
    (auto (run [Click "px-2"; Auto (Snapshot [received "px-1"]);
                Done 0 (Js.Normal Json.JNull)] start)) = true ∧
  verifyPresentation_call "px-1"
    (pg (auto (run [Click "px-2"; Auto (Snapshot [received "px-1"]);
                    Done 0 (Js.Normal Json.JNull)] start)))
  = (pg (auto (run [Click "px-2"; Auto (Snapshot [received "px-1"]);
                    Done 0 (Js.Normal Json.JNull)] start)), Js.Normal false).
Proof.
  split; [reflexivity |].
  apply (manual_verify_waits_for_auto_verify
           [Click "px-2"; Auto (Snapshot [received "px-1"]); Done 0 (Js.Normal Json.JNull)]
           "px-1"); reflexivity.
Defined.

End ManualVerifyProps.
